(** * algs-codex: Fibonacci heap and van Emde Boas tree

    A shallow embedding of [dataStructures/fibHeap.py] (with [item.py]) and
    of [datastrucutres/vebtree.py], and the properties of the specification
    checked against it.

    Python objects with identity (heap items) live in a store indexed by
    references; the methods of the source become functions that take the
    store and the receiver and return the new store and receiver, or the
    exception the source raises.  Loops and recursion that follow pointers
    take a fuel argument. *)

From Stdlib Require Import ZArith Lia.
From Stdlib Require Import Floats.SpecFloat.
From stdpp Require Import base numbers option list.

Set Default Proof Using "Type".
Local Open Scope Z_scope.

(** ** Outcomes of a call *)

(** The exceptions the modelled code can raise. *)
Inductive exn :=
| AttributeError
| AssertionError
| IndexError
| OverflowError
| ZeroDivisionError
| ValueError
| TypeError.

(** A call returns a value, raises, or (in the model only) runs out of
    fuel. *)
Inductive res (A : Type) : Type :=
| Ok (a : A)
| Raise (e : exn)
| OutOfFuel.
Arguments Ok {A} a.
Arguments Raise {A} e.
Arguments OutOfFuel {A}.

#[global] Instance res_ret : MRet res := λ A a, Ok a.
#[global] Instance res_bind : MBind res := λ A B f m,
  match m with
  | Ok a => f a
  | Raise e => Raise e
  | OutOfFuel => OutOfFuel
  end.

(** ** Objects of fibHeap.py *)

Definition ref := positive.

(** Keys are numbers; [delete] also uses [float('-inf')]. *)
Inductive Key :=
| NegInf
| Num (k : Z).

Definition key_lt (a b : Key) : bool :=
  match a, b with
  | NegInf, NegInf => false
  | NegInf, Num _ => true
  | Num _, NegInf => false
  | Num x, Num y => x <? y
  end.

Definition key_le (a b : Key) : bool :=
  match a, b with
  | NegInf, _ => true
  | Num _, NegInf => false
  | Num x, Num y => x <=? y
  end.

(** [a > b] *)
Definition key_gt (a b : Key) : bool := key_lt b a.

(** A [CircularDLL] object.  No such object is ever referenced from two
    places, so it is stored inline in its holder.  [cur] is written by
    [__init__] and never read. *)
Record CircularDLL := mkCircularDLL {
  start : option ref;
  cur : option ref
}.

(** A [FibHeapHItem].  [left] and [right] are the sibling links the
    [CircularDLL] methods write; an attribute that was never assigned and one
    that holds [None] are both [None] here (every read of one by the source
    is followed by a dereference that raises [AttributeError] on [None]). *)
Record FibHeapHItem := mkFibHeapHItem {
  key : Key;
  payload : N;
  left : option ref;
  right : option ref;
  parent : option ref;
  children : option CircularDLL;
  marked : bool;
  degree : Z
}.

Definition store := ref → FibHeapHItem.

Definition upd (s : store) (r : ref) (f : FibHeapHItem → FibHeapHItem) : store :=
  λ r', if decide (r' = r) then f (s r') else s r'.

Definition with_key (v : Key) (i : FibHeapHItem) :=
  mkFibHeapHItem v (payload i) (left i) (right i) (parent i) (children i) (marked i) (degree i).
Definition with_left (v : option ref) (i : FibHeapHItem) :=
  mkFibHeapHItem (key i) (payload i) v (right i) (parent i) (children i) (marked i) (degree i).
Definition with_right (v : option ref) (i : FibHeapHItem) :=
  mkFibHeapHItem (key i) (payload i) (left i) v (parent i) (children i) (marked i) (degree i).
Definition with_parent (v : option ref) (i : FibHeapHItem) :=
  mkFibHeapHItem (key i) (payload i) (left i) (right i) v (children i) (marked i) (degree i).
Definition with_children (v : option CircularDLL) (i : FibHeapHItem) :=
  mkFibHeapHItem (key i) (payload i) (left i) (right i) (parent i) v (marked i) (degree i).
Definition with_marked (v : bool) (i : FibHeapHItem) :=
  mkFibHeapHItem (key i) (payload i) (left i) (right i) (parent i) (children i) v (degree i).
Definition with_degree (v : Z) (i : FibHeapHItem) :=
  mkFibHeapHItem (key i) (payload i) (left i) (right i) (parent i) (children i) (marked i) v.

(** [o.attr] on a value that may be [None]. *)
Definition deref (o : option ref) : res ref :=
  match o with
  | Some r => Ok r
  | None => Raise AttributeError
  end.

(** [FibHeapHItem(key, payload)] as it is after [__init__]. *)
Definition new_item (k : Z) (p : N) : FibHeapHItem :=
  mkFibHeapHItem (Num k) p None None None None false 0.

Module CircularDLL.

(** The linking loop of [__init__]: [prev.right = item; item.left = prev]. *)
Fixpoint init_links (s : store) (prev : ref) (rest : list ref) : store :=
  match rest with
  | [] => s
  | item :: rest' =>
      let s1 := upd s prev (with_right (Some item)) in
      let s2 := upd s1 item (with_left (Some prev)) in
      init_links s2 item rest'
  end.

(** [CircularDLL(init_items)] *)
Definition init (s : store) (init_items : list ref) : store * CircularDLL :=
  match init_items with
  | [] => (s, mkCircularDLL None None)
  | first :: rest =>
      let lst := List.last rest first in
      let s1 := upd s first (with_left (Some lst)) in
      let s2 := upd s1 lst (with_right (Some first)) in
      let s3 := init_links s2 first rest in
      (s3, mkCircularDLL (Some first) (Some first))
  end.

(** The [while True] loop of [items]: [current] has been reached and is
    appended; the walk stops when [current.right] is [self.start]. *)
Fixpoint items_loop (fuel : nat) (s : store) (st : ref) (current : ref)
    (result : list ref) : res (list ref) :=
  match fuel with
  | O => OutOfFuel
  | S fuel' =>
      let result' := result ++ [current] in
      let nxt := right (s current) in
      if decide (nxt = Some st) then Ok result'
      else
        match nxt with
        | Some c => items_loop fuel' s st c result'
        | None => Raise AttributeError
        end
  end.

Definition items (fuel : nat) (s : store) (self : CircularDLL) : res (list ref) :=
  match start self with
  | None => Ok []
  | Some st => items_loop fuel s st st []
  end.

Definition insert (s : store) (self : CircularDLL) (item : ref)
    : res (store * CircularDLL) :=
  match start self with
  | None =>
      let s1 := upd s item (with_left (Some item)) in
      let s2 := upd s1 item (with_right (Some item)) in
      Ok (s2, mkCircularDLL (Some item) (cur self))
  | Some a =>
      let leftNeighbour := left (s a) in
      let rightNeighbour := a in
      l ← deref leftNeighbour;
      let s1 := upd s l (with_right (Some item)) in
      let s2 := upd s1 item (with_left leftNeighbour) in
      let s3 := upd s2 item (with_right (Some rightNeighbour)) in
      let s4 := upd s3 rightNeighbour (with_left (Some item)) in
      Ok (s4, self)
  end.

Definition merge (s : store) (self another : CircularDLL)
    : res (store * CircularDLL) :=
  match start self with
  | None => Ok (s, mkCircularDLL (start another) (cur self))
  | Some start1 =>
      match start another with
      | None => Ok (s, self)
      | Some start2 =>
          let end1 := left (s start1) in
          let end2 := left (s start2) in
          let s1 := upd s start1 (with_left end2) in
          e1 ← deref end1;
          let s2 := upd s1 e1 (with_right (Some start2)) in
          let s3 := upd s2 start2 (with_left end1) in
          e2 ← deref end2;
          let s4 := upd s3 e2 (with_right (Some start1)) in
          Ok (s4, self)
      end
  end.

Definition delete (s : store) (self : CircularDLL) (item : ref)
    : res (store * CircularDLL) :=
  if decide (left (s item) = Some item) then
    (* Singleton *)
    let s1 := upd s item (with_left None) in
    let s2 := upd s1 item (with_right None) in
    Ok (s2, mkCircularDLL None (cur self))
  else
    (* General *)
    let leftNeighbour := left (s item) in
    let rightNeighbour := right (s item) in
    r ← deref (right (s item));
    let s1 := upd s r (with_left leftNeighbour) in
    l ← deref (left (s1 item));
    let s2 := upd s1 l (with_right rightNeighbour) in
    Ok (s2, mkCircularDLL (right (s2 item)) (cur self)).

End CircularDLL.

(** A [FibHeap] object. *)
Record FibHeap := mkFibHeap {
  roots : CircularDLL;
  n : Z;
  min : option ref
}.

Module FibHeapHItem.

(** [self.link(other)]: a [CircularDLL] object is always truthy, so the test
    [if self.children] only asks whether the attribute is [None]. *)
Definition link (s : store) (self other : ref) : res store :=
  s1 ← match children (s self) with
       | Some c =>
           '(s', c') ← CircularDLL.insert s c other;
           Ok (upd s' self (with_children (Some c')))
       | None =>
           let '(s', c') := CircularDLL.init s [other] in
           Ok (upd s' self (with_children (Some c')))
       end;
  let s2 := upd s1 other (with_marked false) in
  let s3 := upd s2 other (with_parent (Some self)) in
  Ok (upd s3 self (λ i, with_degree (degree i + 1) i)).

End FibHeapHItem.

(** The [dict] of [consolidate], in insertion order (the order in which
    [values()] yields). *)
Definition dict := list (Z * ref).

Fixpoint dict_pop (k : Z) (d : dict) : option (ref * dict) :=
  match d with
  | [] => None
  | (k', v) :: d' =>
      if k' =? k then Some (v, d')
      else
        match dict_pop k d' with
        | Some (w, d'') => Some (w, (k', v) :: d'')
        | None => None
        end
  end.

Fixpoint dict_set (k : Z) (v : ref) (d : dict) : dict :=
  match d with
  | [] => [(k, v)]
  | (k', v') :: d' =>
      if k' =? k then (k', v) :: d' else (k', v') :: dict_set k v d'
  end.

Definition dict_values (d : dict) : list ref := map snd d.

Module FibHeap.

(** [FibHeap(init_item)].  Without an item, the statement [self.n - 0]
    reads the attribute [n], which nothing has assigned. *)
Definition init (s : store) (init_item : option ref) : res (store * FibHeap) :=
  match init_item with
  | Some item =>
      let '(s', r) := CircularDLL.init s [item] in
      Ok (s', mkFibHeap r 1 (Some item))
  | None => Raise AttributeError
  end.

Definition insert (s : store) (self : FibHeap) (item : ref)
    : res (store * FibHeap) :=
  '(s1, r) ← CircularDLL.insert s (roots self) item;
  let n1 := n self + 1 in
  match min self with
  | Some m =>
      if key_gt (key (s1 m)) (key (s1 item))
      then Ok (s1, mkFibHeap r n1 (Some item))
      else Ok (s1, mkFibHeap r n1 (Some m))
  | None => Ok (s1, mkFibHeap r n1 (Some item))
  end.

(** [self.merge(another)]; [another] itself is not written. *)
Definition merge (s : store) (self another : FibHeap) : res (store * FibHeap) :=
  '(s1, r) ← CircularDLL.merge s (roots self) (roots another);
  let n1 := n self + n another in
  m1 ← deref (min self);
  m2 ← deref (min another);
  if key_gt (key (s1 m1)) (key (s1 m2))
  then Ok (s1, mkFibHeap r n1 (min another))
  else Ok (s1, mkFibHeap r n1 (min self)).

Definition first (self : FibHeap) : option ref := min self.

(** The [while item.degree in new_roots] loop for one root. *)
Fixpoint bunch (fuel : nat) (s : store) (new_roots : dict) (item : ref)
    : res (store * dict) :=
  match fuel with
  | O => OutOfFuel
  | S fuel' =>
      match dict_pop (degree (s item)) new_roots with
      | Some (other, new_roots') =>
          let '(item', other') :=
            if key_lt (key (s other)) (key (s item))
            then (other, item) else (item, other) in
          s' ← FibHeapHItem.link s item' other';
          bunch fuel' s' new_roots' item'
      | None => Ok (s, dict_set (degree (s item)) item new_roots)
      end
  end.

(** The bunching pass over the snapshot [self.roots.items()]. *)
Fixpoint bunching_pass (fuel : nat) (s : store) (new_roots : dict)
    (its : list ref) : res (store * dict) :=
  match its with
  | [] => Ok (s, new_roots)
  | item :: rest =>
      '(s', new_roots') ← bunch fuel s new_roots item;
      bunching_pass fuel s' new_roots' rest
  end.

(** The reforming pass over [new_roots.values()]. *)
Fixpoint reforming_pass (s : store) (self : FibHeap) (vals : list ref)
    : res (store * FibHeap) :=
  match vals with
  | [] => Ok (s, self)
  | item :: rest =>
      match min self with
      | None =>
          let '(s', r) := CircularDLL.init s [item] in
          reforming_pass s' (mkFibHeap r (n self) (Some item)) rest
      | Some _ =>
          '(s', self') ← insert s self item;
          reforming_pass s' (mkFibHeap (roots self') (n self' - 1) (min self')) rest
      end
  end.

Definition consolidate (fuel : nat) (s : store) (self : FibHeap)
    : res (store * FibHeap) :=
  its ← CircularDLL.items fuel s (roots self);
  '(s1, new_roots) ← bunching_pass fuel s [] its;
  reforming_pass s1 (mkFibHeap (roots self) (n self) None) (dict_values new_roots).

Definition extract_min (fuel : nat) (s : store) (self : FibHeap)
    : res (option ref * store * FibHeap) :=
  match min self with
  | None => Ok (None, s, self)
  | Some cm =>
      '(s1, r1) ← match children (s cm) with
                  | Some c =>
                      cs ← CircularDLL.items fuel s c;
                      let s' := foldl (λ st c, upd st c (with_parent None)) s cs in
                      CircularDLL.merge s' (roots self) c
                  | None => Ok (s, roots self)
                  end;
      '(s2, r2) ← CircularDLL.delete s1 r1 cm;
      let n2 := n self - 1 in
      match start r2 with
      | None => Ok (Some cm, s2, mkFibHeap r2 n2 None)
      | Some _ =>
          '(s3, self3) ← consolidate fuel s2 (mkFibHeap r2 n2 (min self));
          Ok (Some cm, s3, self3)
      end
  end.

Fixpoint cut (fuel : nat) (s : store) (self : FibHeap) (item : ref)
    : res (store * FibHeap) :=
  match fuel with
  | O => OutOfFuel
  | S fuel' =>
      match parent (s item) with
      | None => Ok (s, self)
      | Some p =>
          c ← match children (s p) with
              | Some c => Ok c
              | None => Raise AttributeError
              end;
          '(s1, c') ← CircularDLL.delete s c item;
          let s2 := upd s1 p (with_children (Some c')) in
          let s3 := upd s2 p (λ i, with_degree (degree i - 1) i) in
          let s4 := upd s3 item (with_parent None) in
          let s5 := upd s4 item (with_marked false) in
          '(s6, r) ← CircularDLL.insert s5 (roots self) item;
          let self' := mkFibHeap r (n self) (min self) in
          match parent (s6 p) with
          | Some _ =>
              if marked (s6 p) then cut fuel' s6 self' p
              else Ok (upd s6 p (with_marked true), self')
          | None => Ok (s6, self')
          end
      end
  end.

(** [cut2(x, y)], which nothing calls but [cascading_cut]. *)
Definition cut2 (s : store) (self : FibHeap) (x y : ref)
    : res (store * FibHeap) :=
  c ← match children (s y) with
      | Some c => Ok c
      | None => Raise AttributeError
      end;
  '(s1, c') ← CircularDLL.delete s c x;
  let s2 := upd s1 y (with_children (Some c')) in
  let s3 := upd s2 y (λ i, with_degree (degree i - 1) i) in
  '(s4, r) ← CircularDLL.insert s3 (roots self) x;
  let s5 := upd s4 x (with_parent None) in
  let s6 := upd s5 x (with_marked false) in
  Ok (s6, mkFibHeap r (n self) (min self)).

(** [cascading_cut(y)]: on an unmarked [y] the statement
    [y.marked == True] is a comparison whose value is dropped. *)
Fixpoint cascading_cut (fuel : nat) (s : store) (self : FibHeap) (y : ref)
    : res (store * FibHeap) :=
  match fuel with
  | O => OutOfFuel
  | S fuel' =>
      match parent (s y) with
      | None => Ok (s, self)
      | Some z =>
          if negb (marked (s y)) then Ok (s, self)
          else
            '(s1, self1) ← cut2 s self y z;
            cascading_cut fuel' s1 self1 z
      end
  end.

Definition decrease_key (fuel : nat) (s : store) (self : FibHeap) (item : ref)
    (new_key : Key) : res (store * FibHeap) :=
  if negb (key_le new_key (key (s item))) then Raise AssertionError
  else
    let s1 := upd s item (with_key new_key) in
    '(s2, self2) ← match parent (s1 item) with
                   | Some p =>
                       if key_lt (key (s1 item)) (key (s1 p))
                       then cut fuel s1 self item
                       else Ok (s1, self)
                   | None => Ok (s1, self)
                   end;
    m ← deref (min self2);
    if key_lt (key (s2 item)) (key (s2 m))
    then Ok (s2, mkFibHeap (roots self2) (n self2) (Some item))
    else Ok (s2, self2).

Definition delete (fuel : nat) (s : store) (self : FibHeap) (item : ref)
    : res (option ref * store * FibHeap) :=
  '(s1, self1) ← decrease_key fuel s self item NegInf;
  extract_min fuel s1 self1.

End FibHeap.

(** ** vebtree.py *)

(** *** Python numbers

    The helpers go through [math.sqrt], [/] and [math.floor]: the quotient
    and the root are IEEE 754 doubles, modelled with the Standard Library's
    [SpecFloat] at binary64. *)

Definition prec : Z := 53.
Definition emax : Z := 1024.

(** An [int] taken as the exact mantissa of a float with exponent 0. *)
Definition exact_float (z : Z) : spec_float :=
  match z with
  | Z0 => S754_zero false
  | Zpos m => S754_finite false m 0
  | Zneg m => S754_finite true m 0
  end.

(** [float(z)]: the nearest double, [OverflowError] when there is none. *)
Definition float_of_int (z : Z) : res spec_float :=
  match binary_normalize prec emax z 0 false with
  | S754_infinity _ => Raise OverflowError
  | f => Ok f
  end.

(** [math.sqrt(u)] on an [int]. *)
Definition math_sqrt (u : Z) : res spec_float :=
  f ← float_of_int u;
  match SFsqrt prec emax f with
  | S754_nan => Raise ValueError
  | r => Ok r
  end.

(** [math.floor(f)]: an [int] in Python 3. *)
Definition math_floor (f : spec_float) : res Z :=
  match f with
  | S754_zero _ => Ok 0
  | S754_infinity _ => Raise OverflowError
  | S754_nan => Raise ValueError
  | S754_finite sg m e =>
      let v := if sg then Zneg m else Zpos m in
      Ok (if 0 <=? e then v * 2 ^ e else v / 2 ^ (- e))
  end.

(** [x / y] on two [int]s: the exact quotient rounded to the nearest
    double. *)
Definition int_truediv (x y : Z) : res spec_float :=
  if y =? 0 then Raise ZeroDivisionError
  else
    match SFdiv prec emax (exact_float x) (exact_float y) with
    | S754_infinity _ => Raise OverflowError
    | q => Ok q
    end.

(** [math.floor(math.sqrt(u))] *)
Definition root (u : Z) : res Z :=
  r ← math_sqrt u;
  math_floor r.

Definition high (x u : Z) : res Z :=
  ru ← root u;
  q ← int_truediv x ru;
  math_floor q.

Definition low (x u : Z) : res Z :=
  ru ← root u;
  if ru =? 0 then Raise ZeroDivisionError else Ok (x mod ru).

Definition index (x y u : Z) : res Z :=
  ru ← root u;
  Ok (x * ru + y).

(** *** Identity of [int] objects

    [member] compares with [is].  An [int] object is its value and the
    address that identifies it; CPython keeps one shared object for every
    value from -5 to 256 (here at address 1) and allocates a new object for
    every other result of an arithmetic operation. *)
Record pyint := mkint {
  ival : Z;
  iaddr : positive
}.

Definition is_small (v : Z) : bool := (-5 <=? v) && (v <=? 256).

(** The object a caller holds for value [v], allocated at [a] unless [v] is
    one of the shared small values. *)
Definition pyobj (v : Z) (a : positive) : pyint :=
  if is_small v then mkint v 1 else mkint v a.

(** [a is b] on two [int]s *)
Definition int_is (a b : pyint) : bool :=
  (ival a =? ival b) && (iaddr a =? iaddr b)%positive.

(** [x is o] where [o] is an [int] or [None] *)
Definition is_ (x : pyint) (o : option pyint) : bool :=
  match o with
  | Some y => int_is x y
  | None => false
  end.

(** Computations that create [int] objects thread the next free address. *)
Definition alloc (A : Type) : Type := positive → res (A * positive).

#[global] Instance alloc_ret : MRet alloc := λ A a nxt, Ok (a, nxt).
#[global] Instance alloc_bind : MBind alloc := λ A B f m nxt,
  match m nxt with
  | Ok (a, nxt') => f a nxt'
  | Raise e => Raise e
  | OutOfFuel => OutOfFuel
  end.

Definition lift {A} (r : res A) : alloc A := λ nxt,
  match r with
  | Ok a => Ok (a, nxt)
  | Raise e => Raise e
  | OutOfFuel => OutOfFuel
  end.

Definition raise {A} (e : exn) : alloc A := λ _, Raise e.

(** The object that holds a computed value. *)
Definition fresh (v : Z) : alloc pyint := λ nxt,
  if is_small v then Ok (mkint v 1, nxt) else Ok (mkint v nxt, Pos.succ nxt).

(** [l[i]] position: negative indices count from the end. *)
Definition py_index (len : nat) (i : Z) : res nat :=
  let n := Z.of_nat len in
  if (i <? - n) || (n <=? i) then Raise IndexError
  else Ok (Z.to_nat (if i <? 0 then i + n else i)).

(** A [VEBTree] node: the base case has only [u = 2], [min] and [max]. *)
#[warnings="-register-all"]
Inductive VEBTree :=
| Base (vmin vmax : option pyint)
| Node (u ru : Z) (vmin vmax : option pyint) (summary : VEBTree)
    (cluster : list VEBTree).

Module VEBTree.

Definition u (t : VEBTree) : Z :=
  match t with
  | Base _ _ => 2
  | Node u _ _ _ _ _ => u
  end.

Definition minimum (t : VEBTree) : option pyint :=
  match t with
  | Base mn _ => mn
  | Node _ _ mn _ _ _ => mn
  end.

Definition maximum (t : VEBTree) : option pyint :=
  match t with
  | Base _ mx => mx
  | Node _ _ _ mx _ _ => mx
  end.

(** [VEBTree(u)] *)
Fixpoint init (fuel : nat) (u : Z) : res VEBTree :=
  match fuel with
  | O => OutOfFuel
  | S fuel' =>
      if u =? 2 then Ok (Base None None)
      else
        ru ← root u;
        summary ← init fuel' ru;
        if ru <=? 0 then Ok (Node u ru None None summary [])
        else
          c ← init fuel' ru;
          Ok (Node u ru None None summary (replicate (Z.to_nat ru) c))
  end.

(** [x > self.max] and the like raise [TypeError] on [None]. *)
Definition int_of (o : option pyint) : alloc pyint :=
  match o with
  | Some y => mret y
  | None => raise TypeError
  end.

Definition high_obj (x : pyint) (u : Z) : alloc pyint :=
  h ← lift (high (ival x) u); fresh h.

Definition low_obj (x : pyint) (u : Z) : alloc pyint :=
  l ← lift (low (ival x) u); fresh l.

Fixpoint insert (t : VEBTree) (x : pyint) {struct t} : alloc VEBTree :=
  match t with
  | Base mn mx =>
      match mn with
      | None => mret (Base (Some x) (Some x))
      | Some m =>
          let '(mn', x') := if ival x <? ival m then (x, m) else (m, x) in
          mx0 ← int_of mx;
          mret (Base (Some mn') (if ival mx0 <? ival x' then Some x' else mx))
      end
  | Node u ru mn mx summary cluster =>
      match mn with
      | None => mret (Node u ru (Some x) (Some x) summary cluster)
      | Some m =>
          let '(mn', x') := if ival x <? ival m then (x, m) else (m, x) in
          '(summary', cluster') ←
            (if 2 <? u then
               h1 ← high_obj x' u;
               i1 ← lift (py_index (length cluster) (ival h1));
               c1 ← lift (match cluster !! i1 with
                          | Some c => Ok c
                          | None => Raise IndexError
                          end);
               summary' ←
                 (match minimum c1 with
                  | None => h2 ← high_obj x' u; insert summary h2
                  | Some _ => mret summary
                  end);
               h3 ← high_obj x' u;
               i3 ← lift (py_index (length cluster) (ival h3));
               l3 ← low_obj x' u;
               cluster' ←
                 (fix at_ (l : list VEBTree) (i : nat) {struct l}
                      : alloc (list VEBTree) :=
                    match l, i with
                    | [], _ => raise IndexError
                    | c :: l', O => c' ← insert c l3; mret (c' :: l')
                    | c :: l', S i' => l'' ← at_ l' i'; mret (c :: l'')
                    end) cluster i3;
               mret (summary', cluster')
             else mret (summary, cluster));
          mx0 ← int_of mx;
          mret (Node u ru (Some mn') (if ival mx0 <? ival x' then Some x' else mx)
                  summary' cluster')
      end
  end.

(** [self.u is 2] holds exactly at a base node, whose [u] is the shared
    object for 2. *)
Fixpoint member (t : VEBTree) (x : pyint) {struct t} : alloc bool :=
  match t with
  | Base mn mx => mret (is_ x mn || is_ x mx)
  | Node u ru mn mx summary cluster =>
      if is_ x mn || is_ x mx then mret true
      else
        h ← high_obj x u;
        i ← lift (py_index (length cluster) (ival h));
        l ← low_obj x u;
        (fix at_ (cl : list VEBTree) (i : nat) {struct cl} : alloc bool :=
           match cl, i with
           | [], _ => raise IndexError
           | c :: _, O => member c l
           | _ :: cl', S i' => at_ cl' i'
           end) cluster i
  end.

(** [successor]: the calls [self.index(...)] look up an attribute [index]
    that [VEBTree] does not define. *)
Fixpoint successor (t : VEBTree) (x : pyint) {struct t}
    : alloc (option pyint) :=
  match t with
  | Base mn mx =>
      if (ival x =? 0) && (match mx with Some m => ival m =? 1 | None => false end)
      then mret (Some (mkint 1 1))
      else mret None
  | Node u ru mn mx summary cluster =>
      if match mn with Some m => ival x <? ival m | None => false end
      then mret mn
      else
        h ← high_obj x u;
        i ← lift (py_index (length cluster) (ival h));
        c ← lift (match cluster !! i with
                  | Some c => Ok c
                  | None => Raise IndexError
                  end);
        let max_in_cluster := maximum c in
        lw ← low_obj x u;
        if match max_in_cluster with Some m => ival lw <? ival m | None => false end
        then
          h' ← high_obj x u;
          i' ← lift (py_index (length cluster) (ival h'));
          lw' ← low_obj x u;
          offset ←
            (fix at_ (cl : list VEBTree) (i : nat) {struct cl}
                 : alloc (option pyint) :=
               match cl, i with
               | [], _ => raise IndexError
               | c :: _, O => successor c lw'
               | _ :: cl', S i' => at_ cl' i'
               end) cluster i';
          raise AttributeError
        else
          h' ← high_obj x u;
          succ_cluster ← successor summary h';
          match succ_cluster with
          | None => mret None
          | Some sc =>
              i' ← lift (py_index (length cluster) (ival sc));
              c' ← lift (match cluster !! i' with
                         | Some c => Ok c
                         | None => Raise IndexError
                         end);
              let offset := minimum c' in
              raise AttributeError
          end
  end.

(** [predecessor], with the same calls to the missing [self.index]. *)
Fixpoint predecessor (t : VEBTree) (x : pyint) {struct t}
    : alloc (option pyint) :=
  match t with
  | Base mn mx =>
      if (match mn with Some m => ival m =? 0 | None => false end) && (ival x =? 1)
      then mret (Some (mkint 0 1))
      else mret None
  | Node u ru mn mx summary cluster =>
      if match mx with Some m => ival m <? ival x | None => false end
      then mret mx
      else
        h ← high_obj x u;
        i ← lift (py_index (length cluster) (ival h));
        c ← lift (match cluster !! i with
                  | Some c => Ok c
                  | None => Raise IndexError
                  end);
        let min_in_cluster := minimum c in
        inside ← (match min_in_cluster with
                  | Some m => lw ← low_obj x u; mret (ival m <? ival lw)
                  | None => mret false
                  end);
        if inside : bool
        then
          h' ← high_obj x u;
          i' ← lift (py_index (length cluster) (ival h'));
          lw' ← low_obj x u;
          offset ←
            (fix at_ (cl : list VEBTree) (i : nat) {struct cl}
                 : alloc (option pyint) :=
               match cl, i with
               | [], _ => raise IndexError
               | c :: _, O => predecessor c lw'
               | _ :: cl', S i' => at_ cl' i'
               end) cluster i';
          raise AttributeError
        else
          h' ← high_obj x u;
          pred_cluster ← predecessor summary h';
          match pred_cluster with
          | None =>
              if match mn with Some m => ival m <? ival x | None => false end
              then mret mn
              else mret None
          | Some pc =>
              i' ← lift (py_index (length cluster) (ival pc));
              c' ← lift (match cluster !! i' with
                         | Some c => Ok c
                         | None => Raise IndexError
                         end);
              let offset := maximum c' in
              raise AttributeError
          end
  end.

End VEBTree.

(** * Specification vocabulary *)

(** [lastd p l] is the last element of [p :: l]; [front p l] is [p :: l]
    without it. *)
Definition lastd (p : ref) (l : list ref) : ref := foldl (λ _ x, x) p l.
Arguments lastd : simpl never.

Fixpoint front (p : ref) (l : list ref) : list ref :=
  match l with
  | [] => []
  | x :: l' => p :: front x l'
  end.

(** [chain s p l]: starting at [p], following [right] visits [l] in order,
    and [left] leads back. *)
Fixpoint chain (s : store) (p : ref) (l : list ref) : Prop :=
  match l with
  | [] => True
  | x :: l' => right (s p) = Some x ∧ left (s x) = Some p ∧ chain s x l'
  end.

(** [ring s st L]: the list anchored at [st] is a well-formed ring whose
    members, from the anchor and following [right], are [L]. *)
Definition ring (s : store) (st : option ref) (L : list ref) : Prop :=
  match L with
  | [] => st = None
  | a :: l => st = Some a ∧ NoDup (a :: l) ∧ chain s a (l ++ [a])
  end.

(** Everything but the sibling links of an item. *)
Definition same_data (i j : FibHeapHItem) : Prop :=
  key i = key j ∧ payload i = payload j ∧ parent i = parent j ∧
  children i = children j ∧ marked i = marked j ∧ degree i = degree j.

(** The invariant of [consolidate]'s scratch dictionary: one entry per
    degree, filed under the degree its item has. *)
Definition dict_ok (s : store) (d : dict) : Prop :=
  NoDup (d.*1) ∧ ∀ k r, (k, r) ∈ d → degree (s r) = k.


(** ** Concrete states

    Items as a caller creates them: item [r] has key [10 * r]. *)
Definition fresh_store : store := λ r, new_item (10 * Z.pos r) 0.

(** The ring 1, 2, 3 as [CircularDLL([i1, i2, i3])] builds it. *)
Definition ring3 : store * CircularDLL :=
  CircularDLL.init fresh_store [1; 2; 3]%positive.

(** The ring 1, 2. *)
Definition ring2 : store * CircularDLL :=
  CircularDLL.init fresh_store [1; 2]%positive.

(** [FibHeap(i1)] followed by [insert] of the other items. *)
Fixpoint insert_all (s : store) (h : FibHeap) (l : list ref) : res (store * FibHeap) :=
  match l with
  | [] => Ok (s, h)
  | x :: l' => '(s', h') ← FibHeap.insert s h x; insert_all s' h' l'
  end.

Definition heap_of (s : store) (first : ref) (others : list ref) : res (store * FibHeap) :=
  '(s', h) ← FibHeap.init s (Some first);
  insert_all s' h others.

(** The heap that is empty again: [FibHeap(i)] after one [extract_min]. *)
Definition emptied_heap (s : store) (i : ref) : res (store * FibHeap) :=
  '(s1, h1) ← FibHeap.init s (Some i);
  '(_, s2, h2) ← FibHeap.extract_min 1 s1 h1;
  Ok (s2, h2).

(** Reading a result off a call that is known to return. *)
Definition is_ok {A} (m : res A) : bool :=
  match m with
  | Ok _ => true
  | _ => false
  end.

Definition get_ok {A} (d : A) (m : res A) : A :=
  match m with
  | Ok a => a
  | _ => d
  end.

Definition no_heap : FibHeap := mkFibHeap (mkCircularDLL None None) 0 None.

(** [FibHeap(i1)] with items 2 to 5 inserted, and that heap after one
    [extract_min]. *)
Definition heap5 : store * FibHeap :=
  get_ok (fresh_store, no_heap) (heap_of fresh_store 1%positive [2; 3; 4; 5]%positive).

Definition heap5_extracted : option ref * store * FibHeap :=
  get_ok (None, fresh_store, no_heap) (FibHeap.extract_min 5 heap5.1 heap5.2).

(** Heap A holds item 1; heap B held item 2 and was emptied by
    [extract_min]. *)
Definition merge_scenario : store * FibHeap * FibHeap :=
  get_ok (fresh_store, no_heap, no_heap)
    ('(s1, A) ← FibHeap.init fresh_store (Some 1%positive);
     '(s2, B) ← emptied_heap s1 2%positive;
     Ok (s2, A, B)).

Definition emptied1 : store * FibHeap :=
  get_ok (fresh_store, no_heap) (emptied_heap fresh_store 1%positive).

(** [index(high(x, u), low(x, u), u)] *)
Definition split_join (x u : Z) : res Z :=
  h ← high x u;
  l ← low x u;
  index h l u.

(** Run a computation from a first free address and keep its value. *)
Definition run {A} (m : alloc A) (nxt : positive) : res A :=
  match m nxt with
  | Ok (a, _) => Ok a
  | Raise e => Raise e
  | OutOfFuel => OutOfFuel
  end.

Fixpoint veb_insert_all (t : VEBTree) (xs : list pyint) : alloc VEBTree :=
  match xs with
  | [] => mret t
  | x :: xs' => t' ← VEBTree.insert t x; veb_insert_all t' xs'
  end.

(** [VEBTree(u)] followed by [insert] of each of [xs]. *)
Definition veb_of (u : Z) (xs : list pyint) : alloc VEBTree :=
  t ← lift (VEBTree.init 8 u);
  veb_insert_all t xs.

(** The tree of universe 16 holding 2, 3, 4, 5, 7 and 10. *)
Definition tree16 : alloc VEBTree :=
  veb_of 16 (map (λ v, pyobj v 2) [2; 3; 4; 5; 7; 10]).

(** The tree of universe 65536 after [insert] of one object of value 1000,
    allocated at address 2. *)
Definition tree65536 : alloc VEBTree :=
  veb_of 65536 [pyobj 1000 2].


(** The heap of [heap5_extracted] after [decrease_key(i5, 35)]. *)
Definition heap5_decreased : store * FibHeap :=
  get_ok (fresh_store, no_heap)
    (FibHeap.decrease_key 5 heap5_extracted.1.2 heap5_extracted.2 5%positive (Num 35)).


(** Two rings in one store: 1, 2, 3 and, built after it, 4, 5. *)
Definition ring45 : store * CircularDLL :=
  CircularDLL.init ring3.1 [4; 5]%positive.

(** The singleton ring of item 1. *)
Definition ring1 : store * CircularDLL :=
  CircularDLL.init fresh_store [1%positive].

(** [min] names a root whose key is smallest among the roots [L]; on an
    empty root list it is [None]. *)
Definition min_ok (s : store) (h : FibHeap) (L : list ref) : Prop :=
  match L with
  | [] => min h = None
  | _ => ∃ m, min h = Some m ∧ m ∈ L ∧ ∀ r, r ∈ L → key_le (key (s m)) (key (s r)) = true
  end.

(** The min-heap property: no child has a smaller key than its parent. *)
Definition heap_order (s : store) : Prop :=
  ∀ x p, parent (s x) = Some p → key_le (key (s p)) (key (s x)) = true.

(** Keys and payloads are the same in two stores. *)
Definition same_keys (s s' : store) : Prop :=
  ∀ r, key (s' r) = key (s r) ∧ payload (s' r) = payload (s r).

(** The ring 1, 2 after [delete] of item 1. *)
Definition ring2_deleted : store * CircularDLL :=
  get_ok ring2 (CircularDLL.delete ring2.1 ring2.2 1%positive).

(** Two heaps in one store: A holds items 1 and 2, B holds items 3 and 4. *)
Definition two_heaps : store * FibHeap * FibHeap :=
  get_ok (fresh_store, no_heap, no_heap)
    ('(s1, A) ← heap_of fresh_store 1%positive [2%positive];
     '(s2, B) ← heap_of s1 3%positive [4%positive];
     Ok (s2, A, B)).

(** [floor(x / ru)] computed in floats is [x // ru], for the [n] values of
    [x] from [x0] on. *)
Fixpoint floor_div_exact (ru : Z) (n : nat) (x0 : Z) : bool :=
  match n with
  | O => true
  | S n' =>
      match q ← int_truediv x0 ru; math_floor q with
      | Ok h => (h =? x0 / ru) && floor_div_exact ru n' (x0 + 1)
      | _ => false
      end
  end.

(** ** vEB trees: shape and contents *)

(** The universes 2, 4, 16, 256, 65536, ...: [universe k] is 2^(2^k). *)
Fixpoint universe (k : nat) : Z :=
  match k with
  | O => 2
  | S k' => universe k' * universe k'
  end.

(** An [int] object as CPython hands it out: a value from -5 to 256 is the
    shared object. *)
Definition cpython_int (p : pyint) : Prop :=
  is_small (ival p) = true → iaddr p = 1%positive.

(** The attribute [o] holds an [int] of value [y]. *)
Definition holds (o : option pyint) (y : Z) : Prop :=
  ∃ p, o = Some p ∧ ival p = y.

(** [y] is stored below a node: its low part is in the cluster of its high
    part. *)
Definition in_cluster (P : VEBTree → Z → Prop) (ru : Z) (cl : list VEBTree)
    (y : Z) : Prop :=
  0 ≤ y ∧ ∃ c, cl !! Z.to_nat (y / ru) = Some c ∧ P c (y mod ru).

(** The values a tree of universe [universe k] holds. *)
Fixpoint has (k : nat) (t : VEBTree) (y : Z) : Prop :=
  match k, t with
  | O, Base mn mx => holds mn y ∨ holds mx y
  | S k', Node _ ru mn mx _ cl =>
      holds mn y ∨ holds mx y ∨ in_cluster (has k') ru cl y
  | _, _ => False
  end.

(** [min] and [max] are both unset on a tree that holds nothing, and
    otherwise bound what the tree holds. *)
Definition bounds (u : Z) (mn mx : option pyint) (P : Z → Prop) : Prop :=
  match mn, mx with
  | None, None => ∀ y, ¬ P y
  | Some a, Some b =>
      cpython_int a ∧ cpython_int b ∧ 0 ≤ ival a ∧ ival a ≤ ival b ∧
      ival b < u ∧ ∀ y, P y → ival a ≤ y ≤ ival b
  | _, _ => False
  end.

(** A tree as [VEBTree(universe k)] and [insert] leave it. *)
Fixpoint wf (k : nat) (t : VEBTree) : Prop :=
  match k, t with
  | O, Base mn mx => bounds 2 mn mx (λ y, holds mn y ∨ holds mx y)
  | S k', Node u ru mn mx s cl =>
      u = universe (S k') ∧ ru = universe k' ∧
      wf k' s ∧ length cl = Z.to_nat ru ∧ Forall (wf k') cl ∧
      bounds u mn mx (λ y, holds mn y ∨ holds mx y ∨ in_cluster (has k') ru cl y) ∧
      (∀ b, mx = Some b → holds mn (ival b) ∨ in_cluster (has k') ru cl (ival b)) ∧
      (∀ i, has k' s i ↔
            0 ≤ i ∧ ∃ c, cl !! Z.to_nat i = Some c ∧ VEBTree.minimum c ≠ None)
  | _, _ => False
  end.

(** The float arithmetic of the helpers is exact on universe [u]. *)
Definition exact_universe (u ru : Z) : Prop :=
  root u = Ok ru ∧
  ∀ x, 0 ≤ x < u → high x u = Ok (x / ru) ∧ low x u = Ok (x mod ru).

(** [heap5] after [delete] of item 3. *)
Definition heap5_deleted : option ref * store * FibHeap :=
  get_ok (None, fresh_store, no_heap) (FibHeap.delete 5 heap5.1 heap5.2 3%positive).

(** [heap5_decreased] after [cascading_cut] of item 4. *)
Definition heap5_cascaded : store * FibHeap :=
  get_ok (fresh_store, no_heap)
    (FibHeap.cascading_cut 5 heap5_decreased.1 heap5_decreased.2 4%positive).

(** [r] is the least value above [x] among those [P] holds of, or [None]
    when there is none. *)
Definition is_succ (P : Z → Prop) (x : Z) (r : option Z) : Prop :=
  match r with
  | Some v => P v ∧ x < v ∧ ∀ y, P y → x < y → v ≤ y
  | None => ∀ y, P y → y ≤ x
  end.

(** [r] is the greatest value below [x] among those [P] holds of, or
    [None] when there is none. *)
Definition is_pred (P : Z → Prop) (x : Z) (r : option Z) : Prop :=
  match r with
  | Some v => P v ∧ v < x ∧ ∀ y, P y → y < x → y ≤ v
  | None => ∀ y, P y → x ≤ y
  end.

(** ** Well-formed heaps

    [anc s r x]: following [parent] from [x] leads to [r]. *)
Inductive anc (s : store) (r : ref) : ref → Prop :=
| anc_refl : anc s r r
| anc_step x p : parent (s x) = Some p → anc s r p → anc s r x.

(** The [children] list of [p] is the ring of the items whose [parent] is
    [p]. *)
Definition kids_ok (s : store) (p : ref) : Prop :=
  match children (s p) with
  | None => ∀ y, parent (s y) ≠ Some p
  | Some c => ∃ Lc, ring s (start c) Lc ∧ ∀ y, y ∈ Lc ↔ parent (s y) = Some p
  end.

(** A forest over the items [M] with the parentless, pairwise different
    items [V] at the top: only items of [M] have or are parents, every
    [children] list is in order, and every item of [M] sits below one of
    [V]. *)
Record forest (s : store) (V M : list ref) : Prop := {
  fo_roots : ∀ r, r ∈ V → parent (s r) = None ∧ r ∈ M;
  fo_nodup : NoDup V;
  fo_parent : ∀ x p, parent (s x) = Some p → x ∈ M ∧ p ∈ M;
  fo_kids : ∀ p, p ∈ M → kids_ok s p;
  fo_anc : ∀ x, x ∈ M → ∃ r, r ∈ V ∧ anc s r x
}.

(** A heap that holds exactly the items [M], with roots [L]: the root list
    is a ring, below it is a forest in min-heap order, [min] is a smallest
    root and [n] counts the items. *)
Record heap_wf (s : store) (h : FibHeap) (L M : list ref) : Prop := {
  hw_ring : ring s (start (roots h)) L;
  hw_forest : forest s L M;
  hw_nodup : NoDup M;
  hw_min : min_ok s h L;
  hw_order : heap_order s;
  hw_n : n h = Z.of_nat (length M)
}.

(** [extract_min] called until it returns [None], at most [k] times; the
    items come in the order they were returned. *)
Fixpoint drain (k fuel : nat) (s : store) (h : FibHeap)
    : res (list ref * store * FibHeap) :=
  match k with
  | O => Ok ([], s, h)
  | S k' =>
      '(z, s1, h1) ← FibHeap.extract_min fuel s h;
      match z with
      | None => Ok ([], s1, h1)
      | Some x =>
          '(zs, s2, h2) ← drain k' fuel s1 h1;
          Ok (x :: zs, s2, h2)
      end
  end.

(** No item of the list has a smaller key than an item before it. *)
Fixpoint key_sorted (s : store) (l : list ref) : Prop :=
  match l with
  | [] => True
  | x :: l' =>
      (∀ y, y ∈ l' → key_le (key (s x)) (key (s y)) = true) ∧ key_sorted s l'
  end.

(** * Properties of the circular doubly-linked list *)

Lemma upd_same s r f : upd s r f r = f (s r).
Proof. unfold upd. by rewrite decide_True. Qed.

Lemma upd_other s r f r' : r' ≠ r → upd s r f r' = s r'.
Proof. intros. unfold upd. by rewrite decide_False. Qed.

(** Reduce field reads through a stack of [upd]s by cases on the
    references. *)
Ltac upd_cases :=
  simpl in *; unfold upd in *; repeat (case_decide; simplify_eq/=); simpl in *; try done; try congruence.

Lemma lastd_cons p x l : lastd p (x :: l) = lastd x l.
Proof. done. Qed.

Lemma lastd_snoc p l x : lastd p (l ++ [x]) = x.
Proof. unfold lastd. by rewrite foldl_app. Qed.

Lemma lastd_elem p l : lastd p l ∈ p :: l.
Proof.
  revert p. induction l as [|x l IH]; intros p.
  - apply list_elem_of_here.
  - rewrite lastd_cons. apply list_elem_of_further, IH.
Qed.

Lemma lastd_elem_ne p l : l ≠ [] → lastd p l ∈ l.
Proof. destruct l as [|x l]; [done|]. intros _. rewrite lastd_cons. apply lastd_elem. Qed.

Lemma front_lastd p l : p :: l = front p l ++ [lastd p l].
Proof.
  revert p. induction l as [|x l IH]; intros p; simpl; [done|].
  by rewrite lastd_cons, <- IH.
Qed.

Lemma front_not_last p l x : NoDup (p :: l) → x ∈ front p l → x ≠ lastd p l.
Proof.
  rewrite (front_lastd p l). intros Hnd Hx ->.
  apply NoDup_app in Hnd as (_ & Hd & _). apply (Hd _ Hx). apply list_elem_of_here.
Qed.

Lemma front_subseteq p l x : x ∈ front p l → x ∈ p :: l.
Proof. rewrite (front_lastd p l). intros. apply elem_of_app. by left. Qed.

Lemma chain_app s p l1 l2 :
  chain s p (l1 ++ l2) ↔ chain s p l1 ∧ chain s (lastd p l1) l2.
Proof.
  revert p. induction l1 as [|x l1 IH]; intros p; simpl.
  - tauto.
  - rewrite IH, lastd_cons. tauto.
Qed.

Lemma chain_frame s s' p l :
  chain s p l →
  (∀ x, x ∈ front p l → right (s' x) = right (s x)) →
  (∀ x, x ∈ l → left (s' x) = left (s x)) →
  chain s' p l.
Proof.
  revert p. induction l as [|x l IH]; intros p; simpl; [done|].
  intros (Hr & Hl & Hc) Hfr Hfl. split_and!.
  - rewrite Hfr; [done|]. destruct l; apply list_elem_of_here.
  - rewrite Hfl; [done|]. apply list_elem_of_here.
  - apply IH; [done| |].
    + intros y Hy. apply Hfr. destruct l as [|z l]; [by apply elem_of_nil in Hy|].
      by apply list_elem_of_further.
    + intros y Hy. apply Hfl. by apply list_elem_of_further.
Qed.


Lemma ring_links s a l :
  ring s (Some a) (a :: l) →
  left (s a) = Some (lastd a l) ∧ right (s (lastd a l)) = Some a ∧ chain s a l.
Proof.
  intros (_ & _ & Hc). apply chain_app in Hc as (Hc & Hr & Hl & _). done.
Qed.

Lemma ring_start s st L : ring s st L → st = head L.
Proof. destruct L; simpl; [done|]. by intros (-> & _). Qed.

Lemma ring_nil s st : ring s st [] ↔ st = None.
Proof. done. Qed.

Lemma ring_None s L : ring s None L → L = [].
Proof. destruct L; [done|]. by intros (? & _). Qed.

(** Walking the ring with [items] enumerates exactly its members. *)
Lemma items_loop_chain fuel s a c l acc :
  chain s c (l ++ [a]) → a ∉ l → (length l < fuel)%nat →
  CircularDLL.items_loop fuel s a c acc = Ok (acc ++ c :: l).
Proof.
  revert c l acc. induction fuel as [|fuel IH]; intros c l acc Hc Ha Hlen; [lia|].
  simpl. destruct l as [|x l]; simpl in *.
  - destruct Hc as (Hr & _). rewrite Hr. by rewrite decide_True.
  - destruct Hc as (Hr & _ & Hc). rewrite Hr.
    rewrite decide_False by (intros [= ->]; apply Ha, list_elem_of_here).
    rewrite IH with (l := l); [by rewrite <- app_assoc|done| |lia].
    intros Hin. apply Ha. by apply list_elem_of_further.
Qed.

Lemma items_ring fuel s c L :
  ring s (start c) L → (length L ≤ fuel)%nat → CircularDLL.items fuel s c = Ok L.
Proof.
  unfold CircularDLL.items. destruct L as [|a l]; simpl.
  - by intros ->.
  - intros (-> & Hnd & Hc) Hlen.
    rewrite (items_loop_chain fuel s a a l []); [done|done| |lia].
    by apply NoDup_cons in Hnd as [? _].
Qed.

(** Rotating a ring to another of its members. *)
Lemma ring_rotate s a l1 x l2 :
  ring s (Some a) (a :: l1 ++ x :: l2) → ring s (Some x) (x :: l2 ++ a :: l1).
Proof.
  intros (_ & Hnd & Hc). split_and!; [done| |].
  - eapply NoDup_Permutation_proper; [|exact Hnd].
    change (x :: l2 ++ a :: l1) with ((x :: l2) ++ (a :: l1)).
    change (a :: l1 ++ x :: l2) with ((a :: l1) ++ (x :: l2)).
    apply Permutation_app_comm.
  - rewrite <- app_assoc in Hc. apply chain_app in Hc as (H1 & H2).
    simpl in H2. destruct H2 as (Hr & Hl & H2).
    rewrite <- app_assoc. simpl. apply chain_app. split; [|].
    + apply chain_app in H2 as (H2 & _). done.
    + apply chain_app in H2 as (_ & H3).
      destruct H3 as (Hr3 & Hl3 & _). simpl. split_and!; [done..|].
      apply chain_app. split; [done|]. simpl. done.
Qed.

(** [CircularDLL([x])] is the singleton ring. *)
Lemma init_singleton s x :
  ∃ s', CircularDLL.init s [x] = (s', mkCircularDLL (Some x) (Some x)) ∧
        ring s' (Some x) [x] ∧
        (∀ r, same_data (s r) (s' r)) ∧
        (∀ r, r ≠ x → s' r = s r).
Proof.
  eexists. split; [reflexivity|]. split; [|split].
  - split; [done|]. split; [apply NoDup_singleton|]. simpl. upd_cases.
  - intros r. unfold same_data. upd_cases.
  - intros r Hr. upd_cases.
Qed.

(** [insert] puts the item at the end of the walk from the anchor, which
    stays where it was. *)
Lemma insert_ring s c L item :
  ring s (start c) L → item ∉ L →
  ∃ s' c', CircularDLL.insert s c item = Ok (s', c') ∧
        cur c' = cur c ∧
        ring s' (start c') (L ++ [item]) ∧
        (∀ r, same_data (s r) (s' r)) ∧
        (∀ r, r ≠ item → r ∉ L → s' r = s r).
Proof.
  intros Hring Hitem. unfold CircularDLL.insert.
  destruct L as [|a l]; simpl in Hring.
  - rewrite Hring. do 2 eexists. split; [reflexivity|]. split; [done|]. split; [|split].
    + split; [done|]. split; [apply NoDup_singleton|]. simpl. upd_cases.
    + intros r. unfold same_data. upd_cases.
    + intros r Hr _. upd_cases.
  - destruct Hring as (Hst & Hnd & Hc0).
    assert (Hring : ring s (Some a) (a :: l)) by done.
    pose proof (ring_links _ _ _ Hring) as (Hl & Hr & Hc).
    rewrite Hst, Hl. simpl.
    do 2 eexists. split; [reflexivity|]. rewrite Hst.
    assert (Ha : item ≠ a) by (intros ->; apply Hitem, list_elem_of_here).
    assert (Hb : item ≠ lastd a l) by (intros ->; apply Hitem, lastd_elem).
    split; [done|]. split; [|split].
    + split; [done|]. split.
      * change (a :: l ++ [item]) with ((a :: l) ++ [item]).
        apply NoDup_app. split_and!; [done| |apply NoDup_singleton].
        intros x Hx ->%list_elem_of_singleton. done.
      * rewrite <- app_assoc. apply chain_app. split.
        -- apply (chain_frame s); [done| |].
           ++ intros x Hx. pose proof (front_not_last _ _ _ Hnd Hx).
              apply front_subseteq in Hx.
              assert (x ≠ item) by (intros ->; done). upd_cases.
           ++ intros x Hx. apply NoDup_cons in Hnd as [Hna _].
              assert (x ≠ a) by (intros ->; done).
              assert (x ≠ item) by (intros ->; apply Hitem; by apply list_elem_of_further).
              upd_cases.
        -- simpl. split_and!; [upd_cases..|done].
    + intros r. unfold same_data. upd_cases.
    + intros r Hne Hin.
      assert (r ≠ a) by (intros ->; apply Hin, list_elem_of_here).
      assert (r ≠ lastd a l) by (intros ->; apply Hin, lastd_elem).
      upd_cases.
Qed.

(** [delete] at the anchor of a ring with at least two members. *)
Lemma delete_head s c a b l :
  ring s (Some a) (a :: b :: l) →
  ∃ s', CircularDLL.delete s c a = Ok (s', mkCircularDLL (Some b) (cur c)) ∧
        right (s a) = Some b ∧
        ring s' (Some b) (b :: l) ∧
        (∀ r, same_data (s r) (s' r)) ∧
        (∀ r, r ∉ b :: l → s' r = s r).
Proof.
  intros (_ & Hnd & Hc). simpl in Hc. destruct Hc as (Hab & Hba & Hc).
  apply chain_app in Hc as (Hc & Hza & Haz & _).
  set (z := lastd b l) in *.
  assert (Hz : z ∈ b :: l) by apply lastd_elem.
  apply NoDup_cons in Hnd as [Ha Hnd].
  assert (Hza' : z ≠ a) by (intros ->; done).
  assert (Hba' : b ≠ a) by (intros ->; apply Ha, list_elem_of_here).
  unfold CircularDLL.delete. rewrite Haz, Hab.
  rewrite decide_False by congruence. simpl.
  rewrite (upd_other _ _ _ a) by done. rewrite Haz. simpl.
  rewrite !(upd_other _ _ _ a) by done. rewrite Hab.
  eexists. split; [reflexivity|]. split; [done|]. split; [|split].
  - split; [done|]. split; [done|]. apply chain_app. split.
    + apply (chain_frame s); [done| |].
      * intros x Hx. pose proof (front_not_last _ _ _ Hnd Hx). fold z in H. upd_cases.
      * intros x Hx. apply NoDup_cons in Hnd as [Hb _].
        assert (x ≠ b) by (intros ->; done). upd_cases.
    + fold z. simpl. upd_cases.
  - intros r. unfold same_data. upd_cases.
  - intros r Hr. assert (r ≠ b) by (intros ->; apply Hr, list_elem_of_here).
    assert (r ≠ z) by (intros ->; done). upd_cases.
Qed.

(** [delete] of the only member. *)
Lemma delete_singleton s c a :
  ring s (Some a) [a] →
  ∃ s', CircularDLL.delete s c a = Ok (s', mkCircularDLL None (cur c)) ∧
        left (s' a) = None ∧ right (s' a) = None ∧
        (∀ r, same_data (s r) (s' r)) ∧
        (∀ r, r ≠ a → s' r = s r).
Proof.
  intros (_ & _ & Hc). simpl in Hc. destruct Hc as (Hr & Hl & _).
  unfold CircularDLL.delete. rewrite Hl, decide_True by done.
  eexists. split; [reflexivity|]. split_and!.
  - upd_cases.
  - upd_cases.
  - intros r. unfold same_data. upd_cases.
  - intros r Hne. upd_cases.
Qed.

(** [delete] of any member: the rest is again a ring. *)
Lemma delete_ring s c L x :
  ring s (start c) L → x ∈ L →
  ∃ s' c' L', CircularDLL.delete s c x = Ok (s', c') ∧
        cur c' = cur c ∧
        ring s' (start c') L' ∧
        L ≡ₚ x :: L' ∧
        (L' ≠ [] → start c' = right (s x) ∧ s' x = s x) ∧
        (∀ r, same_data (s r) (s' r)) ∧
        (∀ r, r ∉ L → s' r = s r).
Proof.
  intros Hring Hx. apply list_elem_of_split in Hx as (l1 & l2 & ->).
  assert (Hrot : ring s (Some x) (x :: l2 ++ l1)).
  { destruct l1 as [|a l1].
    - rewrite app_nil_r. simpl in Hring. destruct Hring as (_ & ?). done.
    - simpl in Hring. destruct Hring as (_ & Hr).
      apply ring_rotate. done. }
  assert (Hperm : l1 ++ x :: l2 ≡ₚ x :: l2 ++ l1).
  { rewrite <- Permutation_middle. constructor. apply Permutation_app_comm. }
  destruct (l2 ++ l1) as [|b l] eqn:Hl.
  - destruct (delete_singleton s c x Hrot) as (s' & Hd & Hl' & Hr' & Hsd & Hfr).
    exists s', (mkCircularDLL None (cur c)), []. split_and!; try done.
    intros r Hr. apply Hfr. intros ->. apply Hr. rewrite Hperm. apply list_elem_of_here.
  - destruct (delete_head s c x b l Hrot) as (s' & Hd & Hxr & Hring' & Hsd & Hfr).
    exists s', (mkCircularDLL (Some b) (cur c)), (b :: l). split_and!; try done.
    + intros _. split; [done|]. apply Hfr. destruct Hrot as (_ & Hnd & _).
      by apply NoDup_cons in Hnd as [? _].
    + intros r Hr. apply Hfr. intros Hin. apply Hr. rewrite Hperm.
      by apply list_elem_of_further.
Qed.

(** [merge] splices two disjoint rings. *)
Lemma merge_ring s c1 c2 L1 L2 :
  ring s (start c1) L1 → ring s (start c2) L2 → (∀ x, x ∈ L1 → x ∉ L2) →
  ∃ s' c', CircularDLL.merge s c1 c2 = Ok (s', c') ∧
        cur c' = cur c1 ∧
        ring s' (start c') (L1 ++ L2) ∧
        (∀ r, same_data (s r) (s' r)) ∧
        (∀ r, r ∉ L1 ++ L2 → s' r = s r).
Proof.
  intros H1 H2 Hdisj. unfold CircularDLL.merge.
  destruct L1 as [|a l1].
  { simpl in H1. rewrite H1. do 2 eexists. split; [reflexivity|]. by split_and!. }
  destruct L2 as [|c l2].
  { destruct H1 as (Hst & ?). simpl in H2. rewrite Hst, H2.
    do 2 eexists. split; [reflexivity|]. rewrite app_nil_r, Hst. by split_and!. }
  destruct H1 as (Hst1 & Hnd1 & Hc1). destruct H2 as (Hst2 & Hnd2 & Hc2).
  rewrite Hst1, Hst2.
  apply chain_app in Hc1 as (Hc1 & Hba & Hab & _).
  apply chain_app in Hc2 as (Hc2 & Hdc & Hcd & _).
  set (b := lastd a l1) in *. set (d := lastd c l2) in *.
  assert (Hb : b ∈ a :: l1) by apply lastd_elem.
  assert (Hd : d ∈ c :: l2) by apply lastd_elem.
  assert (Ha : a ∈ a :: l1) by apply list_elem_of_here.
  assert (Hc : c ∈ c :: l2) by apply list_elem_of_here.
  rewrite Hab, Hcd. simpl.
  do 2 eexists. split; [reflexivity|]. rewrite Hst1. split; [done|]. split; [|split].
  - split; [done|]. split.
    + change (a :: l1 ++ c :: l2) with ((a :: l1) ++ (c :: l2)).
      apply NoDup_app. done.
    + rewrite <- app_assoc. apply chain_app. split.
      * apply (chain_frame s); [done| |].
        -- intros x Hx. pose proof (front_not_last _ _ _ Hnd1 Hx) as Hxb. fold b in Hxb.
           apply front_subseteq in Hx.
           assert (x ≠ d) by (intros ->; by apply (Hdisj d)).
           upd_cases.
        -- intros x Hx. apply NoDup_cons in Hnd1 as [Hna _].
           assert (x ≠ a) by (intros ->; done).
           assert (x ≠ c) by (intros ->; apply (Hdisj c); [by apply list_elem_of_further|done]).
           upd_cases.
      * fold b. simpl.
        assert (b ≠ d) by (intros Heq; apply (Hdisj b); [done|by rewrite Heq]).
        assert (c ≠ a) by (intros ->; by apply (Hdisj a)).
        split; [upd_cases|]. split; [upd_cases|].
        apply chain_app. split.
        -- apply (chain_frame s); [done| |].
           ++ intros x Hx. pose proof (front_not_last _ _ _ Hnd2 Hx) as Hxd. fold d in Hxd.
              apply front_subseteq in Hx.
              assert (x ≠ b) by (intros ->; by apply (Hdisj b)).
              upd_cases.
           ++ intros x Hx. apply NoDup_cons in Hnd2 as [Hnc _].
              assert (x ≠ c) by (intros ->; done).
              assert (x ≠ a) by (intros ->; apply (Hdisj a); [done|by apply list_elem_of_further]).
              upd_cases.
        -- fold d. simpl. split; [upd_cases|]. split; [upd_cases|done].
  - intros r. unfold same_data. upd_cases.
  - intros r Hr. change (a :: l1 ++ c :: l2) with ((a :: l1) ++ (c :: l2)) in Hr.
    assert (∀ y, y ∈ a :: l1 → r ≠ y).
    { intros y Hy ->. apply Hr. apply elem_of_app. by left. }
    assert (∀ y, y ∈ c :: l2 → r ≠ y).
    { intros y Hy ->. apply Hr. apply elem_of_app. by right. }
    assert (r ≠ a) by auto. assert (r ≠ b) by auto.
    assert (r ≠ c) by auto. assert (r ≠ d) by auto.
    upd_cases.
Qed.

(** C10.  In a circular doubly-linked list with at least two members,
    [delete(x)] of any member [x], the anchor or not, returns with the
    anchor [start] set to the former right neighbour of [x]; the other
    members still form a ring. *)
Theorem delete_sets_start_to_right s c L x :
  ring s (start c) L → (2 ≤ length L)%nat → x ∈ L →
  ∃ s' c' r L',
    CircularDLL.delete s c x = Ok (s', c') ∧
    right (s x) = Some r ∧ start c' = Some r ∧
    ring s' (start c') L' ∧ L ≡ₚ x :: L'.
Proof.
  intros Hring Hlen Hx.
  destruct (delete_ring s c L x Hring Hx)
    as (s' & c' & L' & Hd & _ & Hring' & Hperm & Hstart & _).
  destruct L' as [|r l'].
  { apply Permutation_length in Hperm. simpl in Hperm. lia. }
  destruct Hstart as [Hst _]; [done|].
  exists s', c', r, (r :: l'). split_and!; try done.
  - rewrite <- Hst. by destruct Hring' as (? & _).
  - by destruct Hring' as (? & _).
Qed.

Lemma ring3_ok : ring ring3.1 (start ring3.2) [1; 2; 3]%positive.
Proof.
  split; [reflexivity|]. split.
  - apply (bool_decide_unpack _). by vm_compute.
  - simpl. repeat split; reflexivity.
Qed.

Lemma delete_sets_start_to_right_witness :
  ring ring3.1 (start ring3.2) [1; 2; 3]%positive ∧
  (2 ≤ length [1; 2; 3]%positive)%nat ∧
  2%positive ∈ [1; 2; 3]%positive ∧
  ∃ s' c' r L',
    CircularDLL.delete ring3.1 ring3.2 2%positive = Ok (s', c') ∧
    right (ring3.1 2%positive) = Some r ∧ start c' = Some r ∧
    ring s' (start c') L' ∧ [1; 2; 3]%positive ≡ₚ 2%positive :: L'.
Proof.
  assert (H1 : ring ring3.1 (start ring3.2) [1; 2; 3]%positive) by apply ring3_ok.
  assert (H2 : (2 ≤ length [1; 2; 3]%positive)%nat) by (simpl; lia).
  assert (H3 : 2%positive ∈ [1; 2; 3]%positive) by (apply (bool_decide_unpack _); by vm_compute).
  split; [exact H1|]. split; [exact H2|]. split; [exact H3|].
  exact (delete_sets_start_to_right ring3.1 ring3.2 [1; 2; 3]%positive 2%positive H1 H2 H3).
Defined.

(** C8 (general branch).  Deleting member 1 of the ring 1, 2 returns with the
    links of 1 still pointing at 2: the source clears [left] and [right]
    only in the singleton branch. *)
Theorem delete_general_keeps_links :
  ∃ s' c', CircularDLL.delete ring2.1 ring2.2 1%positive = Ok (s', c') ∧
           start c' = Some 2%positive ∧
           left (s' 1%positive) = Some 2%positive ∧
           right (s' 1%positive) = Some 2%positive.
Proof. do 2 eexists. split; [reflexivity|]. repeat split; reflexivity. Qed.

(** * Properties of the Fibonacci heap *)

Lemma same_data_refl i : same_data i i.
Proof. by repeat split. Qed.

Lemma same_data_trans i j k : same_data i j → same_data j k → same_data i k.
Proof. unfold same_data. intros (?&?&?&?&?&?) (?&?&?&?&?&?). split_and!; congruence. Qed.

(** The list methods write nothing but sibling links. *)
Lemma insert_same_data s c item s' c' :
  CircularDLL.insert s c item = Ok (s', c') → ∀ r, same_data (s r) (s' r).
Proof.
  unfold CircularDLL.insert. destruct (start c) as [a|].
  - destruct (left (s a)) as [l|]; simpl; [|done].
    intros [= <- <-] r. unfold same_data. upd_cases.
  - intros [= <- <-] r. unfold same_data. upd_cases.
Qed.

Lemma merge_same_data s c1 c2 s' c' :
  CircularDLL.merge s c1 c2 = Ok (s', c') → ∀ r, same_data (s r) (s' r).
Proof.
  unfold CircularDLL.merge. destruct (start c1) as [a|].
  - destruct (start c2) as [c|].
    + destruct (left (s a)) as [b|]; simpl; [|done].
      destruct (left (s c)) as [d|]; simpl; [|done].
      intros [= <- <-] r. unfold same_data. upd_cases.
    + intros [= <- <-] r. apply same_data_refl.
  - intros [= <- <-] r. apply same_data_refl.
Qed.

Lemma delete_same_data s c x s' c' :
  CircularDLL.delete s c x = Ok (s', c') → ∀ r, same_data (s r) (s' r).
Proof.
  unfold CircularDLL.delete. case_decide.
  - intros [= <- <-] r. unfold same_data. upd_cases.
  - destruct (right (s x)) as [rn|]; simpl; [|done].
    destruct (left (upd s rn (with_left (left (s x))) x)) as [ln|]; simpl; [|done].
    intros [= <- <-] r. unfold same_data. upd_cases.
Qed.

(** [link] raises the degree of the parent by one and touches no other
    degree; the only mark it writes is the clearing of the child's. *)
Lemma link_degree s a b s' :
  FibHeapHItem.link s a b = Ok s' →
  ∀ r, degree (s' r) = if decide (r = a) then degree (s a) + 1 else degree (s r).
Proof.
  unfold FibHeapHItem.link. intros H r.
  destruct (children (s a)) as [c|].
  - destruct (CircularDLL.insert s c b) as [[s1 c1]| |] eqn:Hi; simpl in H; [|done..].
    injection H as <-. pose proof (insert_same_data _ _ _ _ _ Hi) as Hsd.
    destruct (Hsd r) as (_&_&_&_&_&Hr). destruct (Hsd a) as (_&_&_&_&_&Ha).
    upd_cases.
  - simpl in H. injection H as <-. upd_cases.
Qed.


(** The scratch dictionary. *)
Lemma dict_pop_Some k d v d' :
  dict_pop k d = Some (v, d') →
  (k, v) ∈ d ∧ (∀ e, e ∈ d' → e ∈ d) ∧ (NoDup (d.*1) → NoDup (d'.*1) ∧ k ∉ d'.*1).
Proof.
  revert v d'. induction d as [|[k' v'] d IH]; intros v d'; simpl; [done|].
  destruct (Z.eqb_spec k' k) as [->|Hne].
  - intros [= <- <-]. split_and!.
    + apply list_elem_of_here.
    + intros e He. by apply list_elem_of_further.
    + intros [??]%NoDup_cons. done.
  - destruct (dict_pop k d) as [[w d'']|] eqn:Hp; [|done].
    intros [= <- <-]. destruct (IH _ _ eq_refl) as (Hin & Hsub & Hnd).
    split_and!.
    + by apply list_elem_of_further.
    + intros e [->|He]%elem_of_cons; [apply list_elem_of_here|].
      apply list_elem_of_further. by apply Hsub.
    + intros [Hk' Hd]%NoDup_cons. destruct (Hnd Hd) as [Hnd' Hk]. simpl. split.
      * apply NoDup_cons. split; [|done]. intros Hin'. apply Hk'.
        apply list_elem_of_fmap in Hin' as ([k1 r1] & -> & He).
        apply list_elem_of_fmap. exists (k1, r1). split; [done|]. by apply Hsub.
      * intros [?|?]%elem_of_cons; [congruence|done].
Qed.

Lemma dict_pop_None k d : dict_pop k d = None → k ∉ d.*1.
Proof.
  induction d as [|[k' v'] d IH]; simpl; [intros _; apply not_elem_of_nil|].
  destruct (Z.eqb_spec k' k) as [->|Hne]; [done|].
  destruct (dict_pop k d) as [[w d'']|]; [done|]. intros _.
  intros [?|?]%elem_of_cons; [congruence|]. by apply IH.
Qed.

Lemma dict_set_fresh k v d : k ∉ d.*1 → dict_set k v d = d ++ [(k, v)].
Proof.
  induction d as [|[k' v'] d IH]; simpl; [done|]. intros Hk.
  destruct (Z.eqb_spec k' k) as [->|Hne].
  - exfalso. apply Hk, list_elem_of_here.
  - rewrite IH; [done|]. intros Hin. apply Hk. by apply list_elem_of_further.
Qed.

Lemma dict_ok_nil s : dict_ok s [].
Proof. split; [constructor|]. intros k r Hin. by apply elem_of_nil in Hin. Qed.

Lemma dict_ok_degrees s d : dict_ok s d → (λ r, degree (s r)) <$> dict_values d = d.*1.
Proof.
  intros [_ Hd]. unfold dict_values. induction d as [|[k r] d IH]; simpl; [done|].
  rewrite (Hd k r) by apply list_elem_of_here. f_equal. apply IH.
  intros k' r' Hin. apply Hd. by apply list_elem_of_further.
Qed.

Lemma dict_ok_values s d : dict_ok s d → NoDup (dict_values d).
Proof.
  intros Hok. apply (NoDup_fmap_1 (λ r, degree (s r))).
  rewrite (dict_ok_degrees _ _ Hok). by destruct Hok.
Qed.

(** One root through the [while] loop keeps the dictionary well filed. *)
Lemma bunch_ok fuel s d item s' d' :
  dict_ok s d → FibHeap.bunch fuel s d item = Ok (s', d') →
  dict_ok s' d' ∧ d' ≠ [].
Proof.
  revert s d item. induction fuel as [|fuel IH]; intros s d item Hok; simpl; [done|].
  destruct (dict_pop (degree (s item)) d) as [[other d1]|] eqn:Hp.
  - apply dict_pop_Some in Hp as (Hin & Hsub & Hnd).
    destruct Hok as [Hkeys Hdeg]. destruct (Hnd Hkeys) as [Hkeys1 Hfresh].
    pose proof (Hdeg _ _ Hin) as Hother.
    set (p := if key_lt (key (s other)) (key (s item)) then (other, item) else (item, other)).
    assert (Hp1 : degree (s p.1) = degree (s item)).
    { unfold p. by destruct (key_lt _ _). }
    destruct p as [item' other']. simpl in Hp1.
    destruct (FibHeapHItem.link s item' other') as [s1| |] eqn:Hl; simpl; [|done..].
    intros Hb. apply (IH s1 d1 item'); [|done]. split; [done|].
    intros k r Hkr. rewrite (link_degree _ _ _ _ Hl). case_decide as Hr.
    + subst r. exfalso. apply Hfresh. rewrite <- Hp1, (Hdeg k item') by by apply Hsub.
      apply list_elem_of_fmap. by exists (k, item').
    + apply Hdeg. by apply Hsub.
  - intros [= <- <-]. apply dict_pop_None in Hp. rewrite dict_set_fresh by done.
    destruct Hok as [Hkeys Hdeg]. split; [split|].
    + rewrite fmap_app. apply NoDup_app. split_and!; [done| |apply NoDup_singleton].
      intros x Hx ->%list_elem_of_singleton. done.
    + intros k r [Hin|Hin%list_elem_of_singleton]%elem_of_app; [by apply Hdeg|].
      by injection Hin as -> ->.
    + by destruct d.
Qed.

Lemma bunching_pass_ok fuel s d its s' d' :
  dict_ok s d → FibHeap.bunching_pass fuel s d its = Ok (s', d') →
  dict_ok s' d' ∧ (its ≠ [] → d' ≠ []).
Proof.
  revert s d. induction its as [|item rest IH]; intros s d Hok; simpl.
  - intros [= <- <-]. done.
  - destruct (FibHeap.bunch fuel s d item) as [[s1 d1]| |] eqn:Hb; simpl; [|done..].
    intros Hrest. destruct (bunch_ok _ _ _ _ _ _ Hok Hb) as [Hok1 Hne1].
    destruct (IH _ _ Hok1 Hrest) as [Hok' Hne']. split; [done|]. intros _.
    destruct rest as [|x rest]; [|by apply Hne'].
    simpl in Hrest. by injection Hrest as <- <-.
Qed.

(** [FibHeap.insert] appends to the root ring. *)
Lemma heap_insert_ring s h L item :
  ring s (start (roots h)) L → item ∉ L →
  ∃ s' h', FibHeap.insert s h item = Ok (s', h') ∧
        ring s' (start (roots h')) (L ++ [item]) ∧
        n h' = n h + 1 ∧
        min h' ≠ None ∧
        (∀ r, same_data (s r) (s' r)) ∧
        (∀ r, r ≠ item → r ∉ L → s' r = s r).
Proof.
  intros Hring Hitem.
  destruct (insert_ring s (roots h) L item Hring Hitem)
    as (s' & c' & Hi & _ & Hring' & Hsd & Hfr).
  unfold FibHeap.insert. rewrite Hi. simpl.
  destruct (min h) as [m|].
  - destruct (key_gt _ _); do 2 eexists; (split; [reflexivity|]); by split_and!.
  - do 2 eexists. split; [reflexivity|]. by split_and!.
Qed.



Lemma items_nonempty fuel s c l :
  CircularDLL.items fuel s c = Ok l → start c ≠ None → l ≠ [].
Proof.
  unfold CircularDLL.items. destruct (start c) as [st|]; [|done]. intros H _.
  assert (Hgen : ∀ fuel cur acc l, CircularDLL.items_loop fuel s st cur acc = Ok l → l ≠ []).
  { clear. induction fuel as [|fuel IH]; intros cur acc l; simpl; [done|].
    case_decide.
    - intros [= <-]. by destruct acc.
    - destruct (right (s cur)); [apply IH|done]. }
  by apply Hgen in H.
Qed.



Lemma ok_get_ok {A} (d : A) (m : res A) : is_ok m = true → m = Ok (get_ok d m).
Proof. by destruct m. Qed.


(** C1.  A new empty heap cannot be made: [FibHeap()] evaluates [self.n - 0]
    before any [n] exists and raises [AttributeError], so no sequence of
    [insert] calls on it ever starts. *)
Theorem empty_heap_constructor_raises s :
  FibHeap.init s None = Raise AttributeError.
Proof. reflexivity. Qed.

(** [merge] reads [self.min.key] and [another.min.key] without a test for
    [None]. *)
Lemma merge_None_raises s A B :
  min A = None ∨ min B = None → FibHeap.merge s A B = Raise AttributeError.
Proof.
  intros Hmin. unfold FibHeap.merge.
  destruct (CircularDLL.merge s (roots A) (roots B)) as [[s1 r]|e|] eqn:Hm; simpl.
  - destruct (min A) as [a|]; simpl; [|done].
    destruct (min B) as [b|]; simpl; [|done]. by destruct Hmin.
  - unfold CircularDLL.merge in Hm.
    destruct (start (roots A)) as [a|]; [|done].
    destruct (start (roots B)) as [b|]; [|done].
    destruct (left (s a)); simpl in Hm; [|by simplify_eq].
    destruct (left (s b)); simpl in Hm; by simplify_eq.
  - unfold CircularDLL.merge in Hm.
    destruct (start (roots A)) as [a|]; [|done].
    destruct (start (roots B)) as [b|]; [|done].
    destruct (left (s a)); simpl in Hm; [|done].
    destruct (left (s b)); simpl in Hm; done.
Qed.

(** C4 (an empty side).  With A holding one item and B emptied, so that
    [B.min] is [None], [B.n] is 0 and [B.roots] is empty, [A.merge(B)],
    [B.merge(A)] and [B.merge(B)] all raise [AttributeError]. *)
Theorem merge_with_empty_heap_raises :
  let '(s, A, B) := merge_scenario in
  min A = Some 1%positive ∧ n A = 1 ∧
  min B = None ∧ n B = 0 ∧ start (roots B) = None ∧
  FibHeap.merge s A B = Raise AttributeError ∧
  FibHeap.merge s B A = Raise AttributeError ∧
  FibHeap.merge s B B = Raise AttributeError.
Proof.
  destruct merge_scenario as [[s A] B] eqn:E.
  assert (HA : min A = Some 1%positive ∧ n A = 1).
  { replace A with merge_scenario.1.2 by by rewrite E. split; vm_compute; reflexivity. }
  assert (HB : min B = None ∧ n B = 0 ∧ start (roots B) = None).
  { replace B with merge_scenario.2 by by rewrite E. repeat split; vm_compute; reflexivity. }
  destruct HA as [? ?]. destruct HB as (HB & ? & ?).
  split_and!; try done; apply merge_None_raises; auto.
Qed.

(** C7.  On a heap whose [min] is [None], [extract_min] returns [None] and
    the store and the heap object ([roots], [min], [n]) are what they
    were. *)
Theorem extract_min_on_empty fuel s h :
  min h = None → FibHeap.extract_min fuel s h = Ok (None, s, h).
Proof. intros Hmin. unfold FibHeap.extract_min. by rewrite Hmin. Qed.

Lemma extract_min_on_empty_witness :
  emptied_heap fresh_store 1%positive = Ok emptied1 ∧
  min emptied1.2 = None ∧
  FibHeap.extract_min 0 emptied1.1 emptied1.2 = Ok (None, emptied1.1, emptied1.2).
Proof.
  assert (H : min emptied1.2 = None) by (vm_compute; reflexivity).
  split; [apply ok_get_ok; vm_compute; reflexivity|]. split; [exact H|].
  exact (extract_min_on_empty 0 emptied1.1 emptied1.2 H).
Defined.

(** ** The invariant under insert, merge and decrease_key *)

Lemma ring_ext s s' st L :
  ring s st L →
  (∀ x, x ∈ L → left (s' x) = left (s x) ∧ right (s' x) = right (s x)) →
  ring s' st L.
Proof.
  destruct L as [|a l]; [done|]. intros (Hst & Hnd & Hc) Hfr.
  split; [done|]. split; [done|].
  assert (Hin : ∀ x, x ∈ l ++ [a] → x ∈ a :: l).
  { intros x [Hx|Hx%list_elem_of_singleton]%elem_of_app.
    - by apply list_elem_of_further.
    - subst. apply list_elem_of_here. }
  apply (chain_frame s); [done| |].
  - intros x Hx. apply Hfr. apply front_subseteq in Hx.
    apply elem_of_cons in Hx as [->|Hx]; [apply list_elem_of_here|by apply Hin].
  - intros x Hx. by apply Hfr, Hin.
Qed.


Lemma ring_NoDup s st L : ring s st L → NoDup L.
Proof. destruct L; [constructor|]. by intros (_ & ? & _). Qed.








(** ** [extract_min] sets no mark *)










(** * Properties of the van Emde Boas tree *)

(** C9 (large universe).  For [u = 2^64] and [x = 2^64 - 1] the quotient
    [x / ru] rounds up to the double 2^32, so [high] returns 2^32, one past
    the last cluster, and [index(high, low)] is [x + 2^32], not [x]. *)
Theorem index_high_low_large_universe :
  high (2 ^ 64 - 1) (2 ^ 64) = Ok (2 ^ 32) ∧
  low (2 ^ 64 - 1) (2 ^ 64) = Ok (2 ^ 32 - 1) ∧
  split_join (2 ^ 64 - 1) (2 ^ 64) = Ok (2 ^ 64 - 1 + 2 ^ 32).
Proof. repeat split; vm_compute; reflexivity. Qed.

(** C5 (the general case).  On the tree of universe 16 holding 2, 3, 4, 5, 7
    and 10, [successor(5)] raises [AttributeError] at [self.index]; only the
    paths that never build an index return ([successor(1)] is the minimum,
    [successor(10)] is [None]). *)
Theorem successor_raises_attribute_error :
  run (t ← tree16; mret (ival <$> VEBTree.minimum t, ival <$> VEBTree.maximum t)) 3
    = Ok (Some 2, Some 10) ∧
  run (t ← tree16; VEBTree.successor t (pyobj 5 2)) 3 = Raise AttributeError ∧
  run (t ← tree16; VEBTree.successor t (pyobj 2 2)) 3 = Raise AttributeError ∧
  run (t ← tree16; VEBTree.successor t (pyobj 1 2)) 3 = Ok (Some (pyobj 2 2)) ∧
  run (t ← tree16; VEBTree.successor t (pyobj 10 2)) 3 = Ok None.
Proof. repeat split; vm_compute; reflexivity. Qed.

(** C2 (identity instead of equality).  In the tree of universe 65536 that
    holds 1000, [member] of the very object that was inserted is [True], and
    [member] of another [int] object of value 1000 is [False]. *)
Theorem member_misses_equal_int :
  run (t ← tree65536; VEBTree.member t (pyobj 1000 2)) 4 = Ok true ∧
  run (t ← tree65536; VEBTree.member t (pyobj 1000 3)) 4 = Ok false.
Proof. split; vm_compute; reflexivity. Qed.

(** ** Further properties of the circular doubly-linked list *)

Lemma last_cons_default (y : ref) l d d' : List.last (y :: l) d = List.last (y :: l) d'.
Proof.
  revert y. induction l as [|a l IH]; intros y; [done|].
  change (List.last (a :: l) d = List.last (a :: l) d'). apply IH.
Qed.

Lemma last_lastd (p : ref) l : List.last l p = lastd p l.
Proof.
  revert p. induction l as [|x l IH]; intros p; [done|].
  rewrite lastd_cons, <- IH. destruct l as [|y l]; [done|].
  change (List.last (y :: l) p = List.last (y :: l) x). apply last_cons_default.
Qed.

Lemma init_links_spec l s p :
  NoDup (p :: l) →
  chain (CircularDLL.init_links s p l) p l ∧
  left (CircularDLL.init_links s p l p) = left (s p) ∧
  right (CircularDLL.init_links s p l (lastd p l)) = right (s (lastd p l)) ∧
  (∀ r, r ∉ p :: l → CircularDLL.init_links s p l r = s r) ∧
  (∀ r, same_data (s r) (CircularDLL.init_links s p l r)).
Proof.
  revert s p. induction l as [|x l IH]; intros s p Hnd.
  - simpl. split_and!; try done; intros r; apply same_data_refl.
  - apply NoDup_cons in Hnd as [Hp Hnd].
    cbn [CircularDLL.init_links].
    set (s2 := upd (upd s p (with_right (Some x))) x (with_left (Some p))).
    destruct (IH s2 x Hnd) as (Hc & Hl & Hr & Hfr & Hsd).
    assert (Hpx : p ≠ x) by (intros ->; apply Hp, list_elem_of_here).
    assert (Hlast : lastd x l ≠ p) by (intros E; apply Hp; rewrite <- E; apply lastd_elem).
    split_and!.
    + simpl. split_and!; [|by rewrite Hl; unfold s2; upd_cases|done].
      rewrite Hfr by done. unfold s2. upd_cases.
    + rewrite Hfr by done. unfold s2. upd_cases.
    + rewrite lastd_cons, Hr. unfold s2. upd_cases.
    + intros r Hr'. rewrite Hfr.
      * assert (r ≠ p) by (intros ->; apply Hr', list_elem_of_here).
        assert (r ≠ x) by (intros ->; apply Hr', list_elem_of_further, list_elem_of_here).
        unfold s2. upd_cases.
      * intros Hin. apply Hr'. by apply list_elem_of_further.
    + intros r. eapply same_data_trans; [|apply Hsd]. unfold s2, same_data. upd_cases.
Qed.

(** X1.  [CircularDLL(init_items)] on distinct items returns the ring of
    these items in the order given, anchored at the first; it writes only
    the links of the items given. *)
Theorem init_builds_ring s first rest :
  NoDup (first :: rest) →
  ∃ s', CircularDLL.init s (first :: rest) = (s', mkCircularDLL (Some first) (Some first)) ∧
        ring s' (Some first) (first :: rest) ∧
        (∀ r, same_data (s r) (s' r)) ∧
        (∀ r, r ∉ first :: rest → s' r = s r).
Proof.
  intros Hnd. eexists. split; [reflexivity|].
  rewrite last_lastd.
  set (s2 := upd (upd s first (with_left (Some (lastd first rest))))
               (lastd first rest) (with_right (Some first))).
  destruct (init_links_spec rest s2 first Hnd) as (Hc & Hl & Hr & Hfr & Hsd).
  split_and!.
  - split; [done|]. split; [done|]. apply chain_app. split; [done|]. simpl.
    split_and!; [| |done].
    + rewrite Hr. unfold s2. upd_cases.
    + rewrite Hl. unfold s2. upd_cases.
  - intros r. eapply same_data_trans; [|apply Hsd]. unfold s2, same_data. upd_cases.
  - intros r Hr'. rewrite Hfr by done.
    assert (r ≠ first) by (intros ->; apply Hr', list_elem_of_here).
    assert (r ≠ lastd first rest) by (intros ->; apply Hr', lastd_elem).
    unfold s2. upd_cases.
Qed.

Lemma NoDup_123 : NoDup [1; 2; 3]%positive.
Proof. apply (bool_decide_unpack _). by vm_compute. Qed.

Lemma init_builds_ring_witness :
  NoDup [1; 2; 3]%positive ∧
  ∃ s', CircularDLL.init fresh_store [1; 2; 3]%positive
          = (s', mkCircularDLL (Some 1%positive) (Some 1%positive)) ∧
        ring s' (Some 1%positive) [1; 2; 3]%positive ∧
        (∀ r, same_data (fresh_store r) (s' r)) ∧
        (∀ r, r ∉ [1; 2; 3]%positive → s' r = fresh_store r).
Proof.
  split; [exact NoDup_123|].
  exact (init_builds_ring fresh_store 1%positive [2; 3]%positive NoDup_123).
Defined.

(** X2.  On a well-formed ring, [items()] returns each member exactly once,
    in ring order from the anchor, as soon as the fuel covers the length. *)
Theorem items_enumerates_ring fuel s c L :
  ring s (start c) L → (length L ≤ fuel)%nat →
  CircularDLL.items fuel s c = Ok L ∧ NoDup L ∧ head L = start c.
Proof.
  intros Hring Hlen. split_and!.
  - by apply items_ring.
  - by eapply ring_NoDup.
  - symmetry. by eapply ring_start.
Qed.

Lemma items_enumerates_ring_witness :
  ring ring3.1 (start ring3.2) [1; 2; 3]%positive ∧
  (length [1; 2; 3]%positive ≤ 3)%nat ∧
  CircularDLL.items 3 ring3.1 ring3.2 = Ok [1; 2; 3]%positive ∧
  NoDup [1; 2; 3]%positive ∧ head [1; 2; 3]%positive = start ring3.2.
Proof.
  assert (H1 := ring3_ok).
  assert (H2 : (length [1; 2; 3]%positive ≤ 3)%nat) by (simpl; lia).
  split; [exact H1|]. split; [exact H2|].
  exact (items_enumerates_ring 3 ring3.1 ring3.2 [1; 2; 3]%positive H1 H2).
Defined.

(** X3.  [insert(item)] of a non-member into a well-formed ring returns the
    ring with [item] last in the walk from the anchor, that is immediately
    before [start]; the anchor of a non-empty list stays, an empty list
    becomes the singleton anchored at [item]; no other item is written. *)
Theorem insert_before_start s c L item :
  ring s (start c) L → item ∉ L →
  ∃ s' c', CircularDLL.insert s c item = Ok (s', c') ∧
        ring s' (start c') (L ++ [item]) ∧
        start c' = Some (default item (head L)) ∧
        (∀ r, r ≠ item → r ∉ L → s' r = s r).
Proof.
  intros Hring Hitem.
  destruct (insert_ring s c L item Hring Hitem) as (s' & c' & Hi & _ & Hr & _ & Hfr).
  exists s', c'. split_and!; try done.
  rewrite (ring_start _ _ _ Hr). by destruct L.
Qed.

Lemma notin_123 : 4%positive ∉ [1; 2; 3]%positive.
Proof. apply (bool_decide_unpack _). by vm_compute. Qed.

Lemma insert_before_start_witness :
  ring ring3.1 (start ring3.2) [1; 2; 3]%positive ∧
  (4%positive ∉ [1; 2; 3]%positive) ∧
  ∃ s' c', CircularDLL.insert ring3.1 ring3.2 4%positive = Ok (s', c') ∧
        ring s' (start c') ([1; 2; 3]%positive ++ [4%positive]) ∧
        start c' = Some (default 4%positive (head [1; 2; 3]%positive)) ∧
        (∀ r, r ≠ 4%positive → r ∉ [1; 2; 3]%positive → s' r = ring3.1 r).
Proof.
  split; [exact ring3_ok|]. split; [exact notin_123|].
  exact (insert_before_start ring3.1 ring3.2 [1; 2; 3]%positive 4%positive ring3_ok notin_123).
Defined.

(** X4.  [merge(another)] of two well-formed rings with no common member
    returns one ring: the members of [self] followed by those of [another];
    when [self] is empty it adopts the anchor of [another], and no item
    outside the two rings is written. *)
Theorem merge_splices_rings s c1 c2 L1 L2 :
  ring s (start c1) L1 → ring s (start c2) L2 → (∀ x, x ∈ L1 → x ∉ L2) →
  ∃ s' c', CircularDLL.merge s c1 c2 = Ok (s', c') ∧
        ring s' (start c') (L1 ++ L2) ∧
        (∀ r, r ∉ L1 ++ L2 → s' r = s r).
Proof.
  intros H1 H2 Hd.
  destruct (merge_ring s c1 c2 L1 L2 H1 H2 Hd) as (s' & c' & Hm & _ & Hr & _ & Hfr).
  by exists s', c'.
Qed.

Lemma ring45_ok :
  ring ring45.1 (start ring3.2) [1; 2; 3]%positive ∧
  ring ring45.1 (start ring45.2) [4; 5]%positive.
Proof.
  split.
  - split; [reflexivity|]. split; [exact NoDup_123|]. simpl. repeat split; reflexivity.
  - split; [reflexivity|]. split; [apply (bool_decide_unpack _); by vm_compute|].
    simpl. repeat split; reflexivity.
Qed.

Lemma disjoint_123_45 : ∀ x : ref, x ∈ [1; 2; 3]%positive → x ∉ [4; 5]%positive.
Proof.
  intros x Hx Hy. repeat (apply elem_of_cons in Hx as [->|Hx];
    [by repeat (apply elem_of_cons in Hy as [Hy|Hy]; [done|]); apply elem_of_nil in Hy|]).
  by apply elem_of_nil in Hx.
Qed.

Lemma merge_splices_rings_witness :
  ring ring45.1 (start ring3.2) [1; 2; 3]%positive ∧
  ring ring45.1 (start ring45.2) [4; 5]%positive ∧
  (∀ x : ref, x ∈ [1; 2; 3]%positive → x ∉ [4; 5]%positive) ∧
  ∃ s' c', CircularDLL.merge ring45.1 ring3.2 ring45.2 = Ok (s', c') ∧
        ring s' (start c') ([1; 2; 3]%positive ++ [4; 5]%positive) ∧
        (∀ r, r ∉ [1; 2; 3]%positive ++ [4; 5]%positive → s' r = ring45.1 r).
Proof.
  destruct ring45_ok as [H1 H2].
  split; [exact H1|]. split; [exact H2|]. split; [exact disjoint_123_45|].
  exact (merge_splices_rings ring45.1 ring3.2 ring45.2 _ _ H1 H2 disjoint_123_45).
Defined.

(** X5.  [delete(x)] of the only member returns the empty list: [start] is
    [None] and the links of [x] are cleared to [None]; no other item is
    written. *)
Theorem delete_sole_member s c x :
  ring s (start c) [x] →
  ∃ s', CircularDLL.delete s c x = Ok (s', mkCircularDLL None (cur c)) ∧
        left (s' x) = None ∧ right (s' x) = None ∧
        CircularDLL.items 0 s' (mkCircularDLL None (cur c)) = Ok [] ∧
        (∀ r, r ≠ x → s' r = s r).
Proof.
  intros Hring.
  assert (Hr : ring s (Some x) [x]) by (destruct Hring as (_ & ?); by split).
  destruct (delete_singleton s c x Hr) as (s' & Hd & Hl & Hrr & _ & Hfr).
  exists s'. by split_and!.
Qed.

Lemma ring1_ok : ring ring1.1 (start ring1.2) [1%positive].
Proof.
  split; [reflexivity|]. split; [apply NoDup_singleton|]. simpl. repeat split; reflexivity.
Qed.

Lemma delete_sole_member_witness :
  ring ring1.1 (start ring1.2) [1%positive] ∧
  ∃ s', CircularDLL.delete ring1.1 ring1.2 1%positive
          = Ok (s', mkCircularDLL None (cur ring1.2)) ∧
        left (s' 1%positive) = None ∧ right (s' 1%positive) = None ∧
        CircularDLL.items 0 s' (mkCircularDLL None (cur ring1.2)) = Ok [] ∧
        (∀ r, r ≠ 1%positive → s' r = ring1.1 r).
Proof.
  split; [exact ring1_ok|].
  exact (delete_sole_member ring1.1 ring1.2 1%positive ring1_ok).
Defined.

(** X6.  The list methods write sibling links only: after [insert], [merge]
    or [delete] returns, every item has the key, payload, parent, children,
    mark and degree it had. *)
Theorem list_methods_write_links_only s c c2 x :
  (∀ s' c', CircularDLL.insert s c x = Ok (s', c') → ∀ r, same_data (s r) (s' r)) ∧
  (∀ s' c', CircularDLL.merge s c c2 = Ok (s', c') → ∀ r, same_data (s r) (s' r)) ∧
  (∀ s' c', CircularDLL.delete s c x = Ok (s', c') → ∀ r, same_data (s r) (s' r)).
Proof.
  split_and!; intros s' c'.
  - apply insert_same_data.
  - apply merge_same_data.
  - apply delete_same_data.
Qed.

(** [delete] of a member, with the ring written as the walk up to [x] and
    the walk after it: the ring that is left starts after [x]. *)
Lemma delete_ring_split s c l1 x l2 :
  ring s (start c) (l1 ++ x :: l2) →
  ∃ s' c', CircularDLL.delete s c x = Ok (s', c') ∧
        ring s' (start c') (l2 ++ l1) ∧
        (∀ r, r ∉ l1 ++ x :: l2 → s' r = s r).
Proof.
  intros Hring.
  assert (Hrot : ring s (Some x) (x :: l2 ++ l1)).
  { destruct l1 as [|a l1].
    - rewrite app_nil_r. simpl in Hring. destruct Hring as (_ & ?). done.
    - simpl in Hring. destruct Hring as (_ & Hr). apply ring_rotate. done. }
  assert (Hperm : l1 ++ x :: l2 ≡ₚ x :: l2 ++ l1).
  { rewrite <- Permutation_middle. constructor. apply Permutation_app_comm. }
  destruct (l2 ++ l1) as [|b l] eqn:Hl.
  - destruct (delete_singleton s c x Hrot) as (s' & Hd & _ & _ & _ & Hfr).
    exists s', (mkCircularDLL None (cur c)). split_and!; try done.
    intros r Hr. apply Hfr. intros ->. apply Hr. rewrite Hperm. apply list_elem_of_here.
  - destruct (delete_head s c x b l Hrot) as (s' & Hd & _ & Hring' & _ & Hfr).
    exists s', (mkCircularDLL (Some b) (cur c)). split_and!; try done.
    intros r Hr. apply Hfr. intros Hin. apply Hr. rewrite Hperm.
    by apply list_elem_of_further.
Qed.

(** X7.  [insert(item)] followed by [delete(item)] gives back the ring:
    same members in the same order, same anchor. *)
Theorem insert_then_delete s c L item :
  ring s (start c) L → item ∉ L →
  ∃ s1 c1 s2 c2,
    CircularDLL.insert s c item = Ok (s1, c1) ∧
    CircularDLL.delete s1 c1 item = Ok (s2, c2) ∧
    ring s2 (start c2) L ∧ start c2 = start c ∧
    CircularDLL.items (length L) s2 c2 = Ok L.
Proof.
  intros Hring Hitem.
  destruct (insert_ring s c L item Hring Hitem) as (s1 & c1 & Hi & _ & Hr1 & _ & _).
  destruct (delete_ring_split s1 c1 L item [] Hr1) as (s2 & c2 & Hd & Hr2 & _).
  simpl in Hr2. exists s1, c1, s2, c2. split_and!; try done.
  - rewrite (ring_start _ _ _ Hr2). symmetry. by eapply ring_start.
  - by apply items_ring.
Qed.

Lemma insert_then_delete_witness :
  ring ring3.1 (start ring3.2) [1; 2; 3]%positive ∧
  (4%positive ∉ [1; 2; 3]%positive) ∧
  ∃ s1 c1 s2 c2,
    CircularDLL.insert ring3.1 ring3.2 4%positive = Ok (s1, c1) ∧
    CircularDLL.delete s1 c1 4%positive = Ok (s2, c2) ∧
    ring s2 (start c2) [1; 2; 3]%positive ∧ start c2 = start ring3.2 ∧
    CircularDLL.items (length [1; 2; 3]%positive) s2 c2 = Ok [1; 2; 3]%positive.
Proof.
  split; [exact ring3_ok|]. split; [exact notin_123|].
  exact (insert_then_delete ring3.1 ring3.2 [1; 2; 3]%positive 4%positive ring3_ok notin_123).
Defined.

(** ** Further properties of the Fibonacci heap *)

Lemma key_le_refl a : key_le a a = true.
Proof. destruct a; simpl; [done|]. lia. Qed.

Lemma key_le_trans a b c : key_le a b = true → key_le b c = true → key_le a c = true.
Proof. destruct a, b, c; simpl; try done. lia. Qed.

Lemma key_lt_le a b : key_lt a b = true → key_le a b = true.
Proof. destruct a, b; simpl; try done. lia. Qed.

Lemma key_not_lt_le a b : key_lt a b = false → key_le b a = true.
Proof. destruct a, b; simpl; try done. lia. Qed.

Lemma same_keys_refl s : same_keys s s.
Proof. by intros r. Qed.

Lemma same_keys_trans s1 s2 s3 : same_keys s1 s2 → same_keys s2 s3 → same_keys s1 s3.
Proof. intros H1 H2 r. destruct (H1 r), (H2 r). split; congruence. Qed.

Lemma same_data_keys s s' : (∀ r, same_data (s r) (s' r)) → same_keys s s'.
Proof. intros H r. by destruct (H r) as (->&->&_). Qed.

(** [FibHeap.insert] and the minimum. *)
Lemma heap_insert_min s h L item :
  ring s (start (roots h)) L → item ∉ L → min_ok s h L →
  ∃ s' h', FibHeap.insert s h item = Ok (s', h') ∧
        ring s' (start (roots h')) (L ++ [item]) ∧
        n h' = n h + 1 ∧
        min_ok s' h' (L ++ [item]) ∧
        min h' = match min h with
                 | Some m => if key_lt (key (s item)) (key (s m)) then Some item else Some m
                 | None => Some item
                 end ∧
        same_keys s s'.
Proof.
  intros Hring Hitem Hmin.
  destruct (insert_ring s (roots h) L item Hring Hitem)
    as (s' & c' & Hi & _ & Hring' & Hsd & _).
  pose proof (same_data_keys _ _ Hsd) as Hk.
  assert (Hkey : ∀ r, key (s' r) = key (s r)) by (intros r; apply Hk).
  unfold FibHeap.insert. rewrite Hi. simpl.
  assert (HL : ∀ l : list ref, match l ++ [item] with [] => False | _ => True end).
  { intros l. by destruct l. }
  destruct L as [|a l].
  - simpl in Hmin. rewrite Hmin. do 2 eexists. split; [reflexivity|].
    split_and!; try done. simpl. exists item. split_and!; [done|apply list_elem_of_here|].
    intros r ->%list_elem_of_singleton. apply key_le_refl.
  - destruct Hmin as (m & Hm & HmL & Hle). rewrite Hm. unfold key_gt. rewrite !Hkey.
    destruct (key_lt (key (s item)) (key (s m))) eqn:Hlt;
      do 2 eexists; (split; [reflexivity|]); split_and!; try done; simpl.
    + exists item. split_and!; [done| |].
      * apply list_elem_of_further, elem_of_app. right. apply list_elem_of_here.
      * intros r Hr. rewrite !Hkey.
        change (a :: l ++ [item]) with ((a :: l) ++ [item]) in Hr.
        apply elem_of_app in Hr as [Hr|Hr%list_elem_of_singleton].
        -- eapply key_le_trans; [by apply key_lt_le|by apply Hle].
        -- subst. apply key_le_refl.
    + exists m. split_and!; [done| |].
      * change (a :: l ++ [item]) with ((a :: l) ++ [item]). apply elem_of_app. by left.
      * intros r Hr. rewrite !Hkey.
        change (a :: l ++ [item]) with ((a :: l) ++ [item]) in Hr.
        apply elem_of_app in Hr as [Hr|Hr%list_elem_of_singleton].
        -- by apply Hle.
        -- subst. by apply key_not_lt_le.
Qed.

(** X8.  [FibHeap.insert] on a heap whose root list is a ring and whose
    [min] is a smallest root returns with the item appended to the root
    list, [n] one larger and [min] again a smallest root: the new item when
    its key is strictly smaller, the old minimum otherwise.  Keys and
    payloads are not written. *)
Theorem heap_insert_keeps_min s h L item :
  ring s (start (roots h)) L → item ∉ L → min_ok s h L →
  ∃ s' h', FibHeap.insert s h item = Ok (s', h') ∧
        ring s' (start (roots h')) (L ++ [item]) ∧
        n h' = n h + 1 ∧
        min_ok s' h' (L ++ [item]) ∧
        min h' = match min h with
                 | Some m => if key_lt (key (s item)) (key (s m)) then Some item else Some m
                 | None => Some item
                 end ∧
        same_keys s s'.
Proof. apply heap_insert_min. Qed.

(** X9.  [FibHeap.merge] of two non-empty heaps with well-formed, disjoint
    root lists returns with the roots of [another] spliced after those of
    [self], [n] the sum of the two counts and [min] the smaller of the two
    minima ([self]'s on a tie), which is a smallest root of the result. *)
Theorem heap_merge_nonempty s A B LA LB :
  ring s (start (roots A)) LA → ring s (start (roots B)) LB →
  (∀ x, x ∈ LA → x ∉ LB) →
  min_ok s A LA → min_ok s B LB → LA ≠ [] → LB ≠ [] →
  ∃ s' A' a b, FibHeap.merge s A B = Ok (s', A') ∧
        min A = Some a ∧ min B = Some b ∧
        ring s' (start (roots A')) (LA ++ LB) ∧
        n A' = n A + n B ∧
        min A' = (if key_lt (key (s b)) (key (s a)) then Some b else Some a) ∧
        min_ok s' A' (LA ++ LB) ∧
        same_keys s s'.
Proof.
  intros HrA HrB Hdisj HmA HmB HneA HneB.
  destruct (merge_ring s (roots A) (roots B) LA LB HrA HrB Hdisj)
    as (s' & c' & Hm & _ & Hring' & Hsd & _).
  pose proof (same_data_keys _ _ Hsd) as Hk.
  assert (Hkey : ∀ r, key (s' r) = key (s r)) by (intros r; apply Hk).
  destruct LA as [|a0 la]; [done|]. destruct LB as [|b0 lb]; [done|].
  destruct HmA as (a & Ha & HaL & Hale). destruct HmB as (b & Hb & HbL & Hble).
  assert (Hres : FibHeap.merge s A B
            = Ok (s', mkFibHeap c' (n A + n B)
                        (if key_lt (key (s b)) (key (s a)) then Some b else Some a))).
  { unfold FibHeap.merge. rewrite Hm. simpl. rewrite Ha, Hb. simpl.
    unfold key_gt. rewrite !Hkey. by destruct (key_lt _ _). }
  eexists s', _, a, b. split; [exact Hres|]. split_and!; try done.
  assert (Hin : ∀ r, r ∈ a0 :: la ++ b0 :: lb ↔ r ∈ a0 :: la ∨ r ∈ b0 :: lb).
  { intros r. change (a0 :: la ++ b0 :: lb) with ((a0 :: la) ++ (b0 :: lb)).
    apply elem_of_app. }
  cbn [min_ok app min].
  destruct (key_lt (key (s b)) (key (s a))) eqn:Hlt.
  - exists b. split_and!; [done|apply Hin; by right|].
    intros r Hr. rewrite !Hkey. apply Hin in Hr as [Hr|Hr]; [|by apply Hble].
    eapply key_le_trans; [by apply key_lt_le|by apply Hale].
  - exists a. split_and!; [done|apply Hin; by left|].
    intros r Hr. rewrite !Hkey. apply Hin in Hr as [Hr|Hr]; [by apply Hale|].
    eapply key_le_trans; [by apply key_not_lt_le|by apply Hble].
Qed.

(** The reforming pass leaves [n] as it was: the [n -= 1] after each
    [insert] undoes the increment. *)
Lemma reforming_pass_n vals s h s' h' :
  FibHeap.reforming_pass s h vals = Ok (s', h') → n h' = n h.
Proof.
  revert s h. induction vals as [|item rest IH]; intros s h.
  - simpl. by intros [= <- <-].
  - cbn [FibHeap.reforming_pass]. destruct (min h) as [m|] eqn:Hm.
    + destruct (FibHeap.insert s h item) as [[s1 h1]| |] eqn:Hi; simpl; [|done..].
      intros Hr. rewrite (IH _ _ Hr). simpl.
      unfold FibHeap.insert in Hi. rewrite Hm in Hi.
      destruct (CircularDLL.insert s (roots h) item) as [[s2 c2]| |]; simpl in Hi; [|done..].
      destruct (key_gt _ _); injection Hi as <- <-; simpl; lia.
    + destruct (CircularDLL.init s [item]) as [s1 r1]. intros Hr.
      by rewrite (IH _ _ Hr).
Qed.

(** X10.  Whenever [extract_min] returns, what it returns is the item that
    [min] named, and if there was one the count [n] is exactly one less: the
    re-insertions of [consolidate] cancel out. *)
Theorem extract_min_returns_min fuel s h z s' h' :
  FibHeap.extract_min fuel s h = Ok (z, s', h') →
  z = min h ∧ n h' = match min h with Some _ => n h - 1 | None => n h end.
Proof.
  unfold FibHeap.extract_min. destruct (min h) as [cm|]; [|by intros [= <- <- <-]].
  intros H.
  match type of H with (?m ≫= _) = _ => destruct m as [[s1 r1]| |] end;
    simpl in H; [|done..].
  destruct (CircularDLL.delete s1 r1 cm) as [[s2 r2]| |]; simpl in H; [|done..].
  destruct (start r2) as [st|].
  - destruct (FibHeap.consolidate fuel s2 _) as [[s3 h3]| |] eqn:Hc; simpl in H; [|done..].
    injection H as <- <- <-. split; [done|].
    unfold FibHeap.consolidate in Hc.
    destruct (CircularDLL.items fuel s2 _) as [its| |]; simpl in Hc; [|done..].
    destruct (FibHeap.bunching_pass fuel s2 [] its) as [[s4 d]| |]; simpl in Hc; [|done..].
    by rewrite (reforming_pass_n _ _ _ _ _ Hc).
  - by injection H as <- <- <-.
Qed.

Lemma extract_min_returns_min_witness :
  FibHeap.extract_min 5 heap5.1 heap5.2 = Ok heap5_extracted ∧
  heap5_extracted.1.1 = min heap5.2 ∧
  n heap5_extracted.2 = match min heap5.2 with Some _ => n heap5.2 - 1 | None => n heap5.2 end.
Proof.
  assert (H : FibHeap.extract_min 5 heap5.1 heap5.2 = Ok heap5_extracted)
    by (apply ok_get_ok; vm_compute; reflexivity).
  split; [exact H|].
  destruct heap5_extracted as [[z s'] h'].
  exact (extract_min_returns_min 5 heap5.1 heap5.2 z s' h' H).
Defined.

(** [link] makes [b] a child of [a] and writes no key or payload. *)
Lemma link_parent_keys s a b s' :
  FibHeapHItem.link s a b = Ok s' →
  (∀ r, parent (s' r) = if decide (r = b) then Some a else parent (s r)) ∧
  same_keys s s'.
Proof.
  unfold FibHeapHItem.link. intros H.
  destruct (children (s a)) as [c|].
  - destruct (CircularDLL.insert s c b) as [[s1 c1]| |] eqn:Hi; simpl in H; [|done..].
    injection H as <-. pose proof (insert_same_data _ _ _ _ _ Hi) as Hsd.
    split; intros r; destruct (Hsd r) as (Hk&Hp&Hpar&_); upd_cases.
  - simpl in H. injection H as <-. split; intros r; upd_cases.
Qed.

Lemma clear_parents_spec cs s r :
  parent (foldl (λ st c, upd st c (with_parent None)) s cs r)
    = (if decide (r ∈ cs) then None else parent (s r)) ∧
  key (foldl (λ st c, upd st c (with_parent None)) s cs r) = key (s r) ∧
  payload (foldl (λ st c, upd st c (with_parent None)) s cs r) = payload (s r) ∧
  left (foldl (λ st c, upd st c (with_parent None)) s cs r) = left (s r) ∧
  right (foldl (λ st c, upd st c (with_parent None)) s cs r) = right (s r) ∧
  children (foldl (λ st c, upd st c (with_parent None)) s cs r) = children (s r).
Proof.
  revert s. induction cs as [|c cs IH]; intros s.
  - cbn [foldl]. split_and!; try done.
  - cbn [foldl]. destruct (IH (upd s c (with_parent None))) as (Hp & Hk & Hpl & Hl & Hr & Hc).
    rewrite Hp, Hk, Hpl, Hl, Hr, Hc. split_and!; [|upd_cases..].
    destruct (decide (r = c)) as [->|Hne].
    + rewrite (decide_True (P := c ∈ c :: cs)) by apply list_elem_of_here.
      case_decide; [done|]. upd_cases.
    + rewrite upd_other by done.
      destruct (decide (r ∈ cs)) as [Hin|Hin].
      * rewrite decide_True; [done|by apply list_elem_of_further].
      * rewrite decide_False; [done|]. intros [?|?]%elem_of_cons; done.
Qed.

(** Through [bunch], the only parents written are those of linked items,
    each under an item whose key is not larger. *)
Lemma bunch_order fuel s d item s' d' :
  FibHeap.bunch fuel s d item = Ok (s', d') →
  heap_order s → heap_order s' ∧ same_keys s s'.
Proof.
  revert s d item. induction fuel as [|fuel IH]; intros s d item; simpl; [done|].
  destruct (dict_pop _ d) as [[other d1]|].
  - destruct (key_lt (key (s other)) (key (s item))) eqn:Hlt.
    + destruct (FibHeapHItem.link s other item) as [s1| |] eqn:Hl; simpl; [|done..].
      intros Hb Ho. destruct (link_parent_keys _ _ _ _ Hl) as [Hp Hk].
      destruct (IH _ _ _ Hb) as [Ho' Hk'].
      * intros x p Hx. destruct (Hk x) as [-> _]. destruct (Hk p) as [-> _].
        rewrite Hp in Hx. case_decide.
        -- injection Hx as <-. subst. by apply key_lt_le.
        -- by apply Ho.
      * split; [done|]. by eapply same_keys_trans.
    + destruct (FibHeapHItem.link s item other) as [s1| |] eqn:Hl; simpl; [|done..].
      intros Hb Ho. destruct (link_parent_keys _ _ _ _ Hl) as [Hp Hk].
      destruct (IH _ _ _ Hb) as [Ho' Hk'].
      * intros x p Hx. destruct (Hk x) as [-> _]. destruct (Hk p) as [-> _].
        rewrite Hp in Hx. case_decide.
        -- injection Hx as <-. subst. by apply key_not_lt_le.
        -- by apply Ho.
      * split; [done|]. by eapply same_keys_trans.
  - intros [= <- <-] Ho. split; [done|apply same_keys_refl].
Qed.

Lemma bunching_pass_order fuel s d its s' d' :
  FibHeap.bunching_pass fuel s d its = Ok (s', d') →
  heap_order s → heap_order s' ∧ same_keys s s'.
Proof.
  revert s d. induction its as [|item rest IH]; intros s d; simpl.
  - intros [= <- <-] Ho. split; [done|apply same_keys_refl].
  - destruct (FibHeap.bunch fuel s d item) as [[s1 d1]| |] eqn:Hb; simpl; [|done..].
    intros Hrest Ho. destruct (bunch_order _ _ _ _ _ _ Hb Ho) as [Ho1 Hk1].
    destruct (IH _ _ Hrest Ho1) as [Ho' Hk']. split; [done|]. by eapply same_keys_trans.
Qed.

Lemma reforming_pass_same_data vals s h s' h' :
  FibHeap.reforming_pass s h vals = Ok (s', h') → ∀ r, same_data (s r) (s' r).
Proof.
  revert s h. induction vals as [|item rest IH]; intros s h.
  - simpl. intros [= <- <-] r. apply same_data_refl.
  - cbn [FibHeap.reforming_pass]. destruct (min h) as [m|] eqn:Hm.
    + destruct (FibHeap.insert s h item) as [[s1 h1]| |] eqn:Hi; simpl; [|done..].
      intros Hr r. eapply same_data_trans; [|by eapply IH].
      unfold FibHeap.insert in Hi. rewrite Hm in Hi.
      destruct (CircularDLL.insert s (roots h) item) as [[s2 c2]| |] eqn:Hci;
        simpl in Hi; [|done..].
      assert (s1 = s2) as -> by (destruct (key_gt _ _); by injection Hi as <- <-).
      by eapply insert_same_data.
    + destruct (init_singleton s item) as (s1 & Hi & _ & Hsd & _). rewrite Hi.
      intros Hr r. eapply same_data_trans; [apply Hsd|by eapply IH].
Qed.

Lemma heap_order_same_data s s' :
  (∀ r, same_data (s r) (s' r)) → heap_order s → heap_order s'.
Proof.
  intros Hsd Ho x p Hx.
  destruct (Hsd x) as (<-&_&Hpx&_). destruct (Hsd p) as (<-&_).
  apply Ho. by rewrite Hpx.
Qed.

Lemma extract_min_order fuel s h z s' h' :
  FibHeap.extract_min fuel s h = Ok (z, s', h') →
  heap_order s → heap_order s' ∧ same_keys s s'.
Proof.
  unfold FibHeap.extract_min. destruct (min h) as [cm|].
  2:{ intros [= <- <- <-] Ho. split; [done|apply same_keys_refl]. }
  intros H Ho.
  match type of H with (?m ≫= _) = _ => destruct m as [[s1 r1]| |] eqn:H1 end;
    simpl in H; [|done..].
  assert (O1 : heap_order s1 ∧ same_keys s s1).
  { destruct (children (s cm)) as [c|].
    - destruct (CircularDLL.items fuel s c) as [cs| |]; simpl in H1; [|done..].
      pose proof (merge_same_data _ _ _ _ _ H1) as Hsd.
      set (s0 := foldl _ s cs) in *.
      assert (O0 : heap_order s0 ∧ same_keys s s0).
      { split.
        - intros x p Hx. unfold s0 in *.
          destruct (clear_parents_spec cs s x) as (Hp & -> & _).
          destruct (clear_parents_spec cs s p) as (_ & -> & _).
          rewrite Hp in Hx. case_decide; [done|]. by apply Ho.
        - intros r. unfold s0. by destruct (clear_parents_spec cs s r) as (_ & -> & -> & _). }
      destruct O0 as [O0 K0]. split; [by eapply heap_order_same_data|].
      eapply same_keys_trans; [done|by apply same_data_keys].
    - injection H1 as <- <-. split; [done|apply same_keys_refl]. }
  destruct O1 as [O1 K1].
  destruct (CircularDLL.delete s1 r1 cm) as [[s2 r2]| |] eqn:H2; simpl in H; [|done..].
  pose proof (delete_same_data _ _ _ _ _ H2) as Hsd2.
  assert (O2 : heap_order s2) by by eapply heap_order_same_data.
  assert (K2 : same_keys s s2).
  { eapply same_keys_trans; [done|by apply same_data_keys]. }
  destruct (start r2) as [st|].
  - destruct (FibHeap.consolidate fuel s2 _) as [[s3 h3]| |] eqn:Hc; simpl in H; [|done..].
    injection H as <- <- <-.
    unfold FibHeap.consolidate in Hc.
    destruct (CircularDLL.items fuel s2 _) as [its| |]; simpl in Hc; [|done..].
    destruct (FibHeap.bunching_pass fuel s2 [] its) as [[s4 d]| |] eqn:Hb; simpl in Hc; [|done..].
    destruct (bunching_pass_order _ _ _ _ _ _ Hb O2) as [O4 K4].
    pose proof (reforming_pass_same_data _ _ _ _ _ Hc) as Hsd5.
    split; [by eapply heap_order_same_data|].
    eapply same_keys_trans; [done|]. eapply same_keys_trans; [done|by apply same_data_keys].
  - by injection H as <- <- <-.
Qed.

(** [cut] writes no key or payload, and the only parents it writes it sets
    to [None]: that of [item], if it had one, and of the ancestors it
    cascades through. *)
Lemma cut_parent_keys fuel s h item s' h' :
  FibHeap.cut fuel s h item = Ok (s', h') →
  same_keys s s' ∧
  ∀ x q, parent (s' x) = Some q →
         parent (s x) = Some q ∧ (parent (s item) ≠ None → x ≠ item).
Proof.
  revert s h item. induction fuel as [|fuel IH]; intros s h item H; simpl in H; [done|].
  destruct (parent (s item)) as [p|] eqn:Hpi.
  2:{ injection H as <- <-. split; [apply same_keys_refl|]. intros x q Hx. by split. }
  destruct (children (s p)) as [c|]; simpl in H; [|done].
  destruct (CircularDLL.delete s c item) as [[s1 c']| |] eqn:Hd; simpl in H; [|done..].
  pose proof (delete_same_data _ _ _ _ _ Hd) as Hsd1.
  match type of H with
  | context [CircularDLL.insert ?x _ _] => set (s5 := x) in *
  end.
  destruct (CircularDLL.insert s5 (roots h) item) as [[s6 r6]| |] eqn:Hi; simpl in H; [|done..].
  pose proof (insert_same_data _ _ _ _ _ Hi) as Hsd6.
  assert (K6 : same_keys s s6).
  { intros r. destruct (Hsd6 r) as (<-&<-&_). destruct (Hsd1 r) as (Hk&Hp&_).
    unfold s5. upd_cases. }
  assert (P6 : ∀ r, parent (s6 r) = if decide (r = item) then None else parent (s r)).
  { intros r. destruct (Hsd6 r) as (_&_&<-&_). destruct (Hsd1 r) as (_&_&Hp&_).
    unfold s5. upd_cases. }
  assert (Hres : ∀ x q, parent (s6 x) = Some q → parent (s x) = Some q ∧ x ≠ item).
  { intros x q Hx. rewrite P6 in Hx. by case_decide. }
  destruct (parent (s6 p)) as [pp|].
  - destruct (marked (s6 p)).
    + destruct (IH _ _ _ H) as [K' P']. split; [by eapply same_keys_trans|].
      intros x q Hx. destruct (P' x q Hx) as [Hx6 _].
      destruct (Hres x q Hx6). done.
    + injection H as <- <-. split.
      * intros r. destruct (K6 r). upd_cases.
      * intros x q Hx. assert (Hx6 : parent (s6 x) = Some q) by (revert Hx; upd_cases).
        destruct (Hres x q Hx6). done.
  - injection H as <- <-. split; [done|]. intros x q Hx. destruct (Hres x q Hx). done.
Qed.

Lemma decrease_key_order fuel s h item k s' h' :
  FibHeap.decrease_key fuel s h item k = Ok (s', h') →
  (heap_order s → heap_order s') ∧
  key (s' item) = k ∧ key_le k (key (s item)) = true ∧
  (∀ r, r ≠ item → key (s' r) = key (s r)) ∧
  (∀ r, payload (s' r) = payload (s r)).
Proof.
  unfold FibHeap.decrease_key. intros H.
  destruct (key_le k (key (s item))) eqn:Hle; simpl in H; [|done].
  set (s1 := upd s item (with_key k)) in *.
  assert (K1 : ∀ r, key (s1 r) = if decide (r = item) then k else key (s r)).
  { intros r. unfold s1. upd_cases. }
  assert (P1 : ∀ r, parent (s1 r) = parent (s r) ∧ payload (s1 r) = payload (s r)).
  { intros r. unfold s1. upd_cases. }
  assert (Hcore : ∀ x q, heap_order s → parent (s x) = Some q →
            (x = item → key_lt k (key (s1 q)) = false) →
            key_le (key (s1 q)) (key (s1 x)) = true).
  { intros x q Ho Hx Hitem. specialize (Ho x q Hx). rewrite (K1 x).
    case_decide as Hxi.
    - apply key_not_lt_le. by apply Hitem.
    - rewrite (K1 q). case_decide; [|done]. subst. by eapply key_le_trans. }
  match type of H with (?m ≫= _) = _ => destruct m as [[s2 h2]| |] eqn:Hc end;
    simpl in H; [|done..].
  assert (H2 : (heap_order s → heap_order s2) ∧ same_keys s1 s2).
  { destruct (parent (s1 item)) as [p|] eqn:Hp.
    - destruct (key_lt (key (s1 item)) (key (s1 p))) eqn:Hlt.
      + destruct (cut_parent_keys _ _ _ _ _ _ Hc) as [K2 P2]. split; [|done].
        intros Ho x q Hx. destruct (P2 x q Hx) as [Hx1 Hne].
        destruct (K2 x) as [-> _]. destruct (K2 q) as [-> _].
        rewrite (proj1 (P1 x)) in Hx1. apply Hcore; [done..|].
        intros ->. exfalso. apply Hne; [|done]. by rewrite Hp.
      + injection Hc as <- <-. split; [|apply same_keys_refl].
        intros Ho x q Hx. rewrite (proj1 (P1 x)) in Hx. apply Hcore; [done..|].
        intros ->. rewrite (proj1 (P1 item)) in Hp. rewrite Hx in Hp. injection Hp as ->.
        rewrite (K1 item), decide_True in Hlt by done. done.
    - injection Hc as <- <-. split; [|apply same_keys_refl].
      intros Ho x q Hx. rewrite (proj1 (P1 x)) in Hx. apply Hcore; [done..|].
      intros ->. rewrite (proj1 (P1 item)) in Hp. congruence. }
  destruct H2 as [O2 K2].
  assert (s' = s2) as ->.
  { destruct (min h2); simpl in H; [|done]. destruct (key_lt _ _); by injection H as <- <-. }
  split_and!; [done| |done| |].
  - destruct (K2 item) as [-> _]. rewrite K1. by rewrite decide_True.
  - intros r Hr. destruct (K2 r) as [-> _]. rewrite K1. by rewrite decide_False.
  - intros r. destruct (K2 r) as [_ ->]. apply P1.
Qed.

(** X11.  The min-heap property is kept by every operation that returns:
    [insert], [merge], [extract_min] and [decrease_key] leave no child with
    a key smaller than its parent's if there was none before. *)
Theorem heap_order_preserved :
  (∀ s h item s' h',
     FibHeap.insert s h item = Ok (s', h') → heap_order s → heap_order s') ∧
  (∀ s A B s' A',
     FibHeap.merge s A B = Ok (s', A') → heap_order s → heap_order s') ∧
  (∀ fuel s h z s' h',
     FibHeap.extract_min fuel s h = Ok (z, s', h') → heap_order s → heap_order s') ∧
  (∀ fuel s h item k s' h',
     FibHeap.decrease_key fuel s h item k = Ok (s', h') → heap_order s → heap_order s').
Proof.
  split_and!.
  - intros s h item s' h' H. apply heap_order_same_data.
    unfold FibHeap.insert in H.
    destruct (CircularDLL.insert s (roots h) item) as [[s1 c1]| |] eqn:Hi; simpl in H; [|done..].
    assert (s' = s1) as ->.
    { destruct (min h); [destruct (key_gt _ _)|]; by injection H as <- <-. }
    by eapply insert_same_data.
  - intros s A B s' A' H. apply heap_order_same_data.
    unfold FibHeap.merge in H.
    destruct (CircularDLL.merge s (roots A) (roots B)) as [[s1 c1]| |] eqn:Hm; simpl in H; [|done..].
    destruct (min A); simpl in H; [|done]. destruct (min B); simpl in H; [|done].
    assert (s' = s1) as -> by (destruct (key_gt _ _); by injection H as <- <-).
    by eapply merge_same_data.
  - intros fuel s h z s' h' H Ho. by destruct (extract_min_order _ _ _ _ _ _ H Ho).
  - intros fuel s h item k s' h' H. by destruct (decrease_key_order _ _ _ _ _ _ _ H).
Qed.

(** X12.  [decrease_key] returns only if the new key is not larger than the
    old one; then the item has the new key and nothing else changed: every
    other key and every payload is as before, also through the cuts. *)
Theorem decrease_key_writes_one_key fuel s h item k s' h' :
  FibHeap.decrease_key fuel s h item k = Ok (s', h') →
  key_le k (key (s item)) = true ∧ key (s' item) = k ∧
  (∀ r, r ≠ item → key (s' r) = key (s r)) ∧
  (∀ r, payload (s' r) = payload (s r)).
Proof.
  intros H. destruct (decrease_key_order _ _ _ _ _ _ _ H) as (_ & ? & ? & ? & ?). done.
Qed.

(** [extract_min] and the keys. *)
Lemma extract_min_same_keys fuel s h z s' h' :
  FibHeap.extract_min fuel s h = Ok (z, s', h') → same_keys s s'.
Proof.
  unfold FibHeap.extract_min. destruct (min h) as [cm|].
  2:{ intros [= <- <- <-]. apply same_keys_refl. }
  intros H.
  match type of H with (?m ≫= _) = _ => destruct m as [[s1 r1]| |] eqn:H1 end;
    simpl in H; [|done..].
  assert (K1 : same_keys s s1).
  { destruct (children (s cm)) as [c|].
    - destruct (CircularDLL.items fuel s c) as [cs| |]; simpl in H1; [|done..].
      pose proof (merge_same_data _ _ _ _ _ H1) as Hsd.
      eapply same_keys_trans; [|by apply same_data_keys].
      intros r. by destruct (clear_parents_spec cs s r) as (_ & -> & -> & _).
    - injection H1 as <- <-. apply same_keys_refl. }
  destruct (CircularDLL.delete s1 r1 cm) as [[s2 r2]| |] eqn:H2; simpl in H; [|done..].
  pose proof (delete_same_data _ _ _ _ _ H2) as Hsd2.
  assert (K2 : same_keys s s2).
  { eapply same_keys_trans; [done|by apply same_data_keys]. }
  destruct (start r2) as [st|].
  - destruct (FibHeap.consolidate fuel s2 _) as [[s3 h3]| |] eqn:Hc; simpl in H; [|done..].
    injection H as <- <- <-.
    unfold FibHeap.consolidate in Hc.
    destruct (CircularDLL.items fuel s2 _) as [its| |]; simpl in Hc; [|done..].
    destruct (FibHeap.bunching_pass fuel s2 [] its) as [[s4 d]| |] eqn:Hb; simpl in Hc; [|done..].
    assert (K4 : same_keys s2 s4).
    { clear -Hb. revert s2 Hb. generalize (@nil (Z * ref)). induction its as [|i its IH];
        intros d0 s2; simpl.
      - intros [= <- <-]. apply same_keys_refl.
      - destruct (FibHeap.bunch fuel s2 d0 i) as [[sa da]| |] eqn:Hbu; simpl; [|done..].
        intros Hrest. eapply same_keys_trans; [|by eapply IH].
        clear -Hbu. revert s2 d0 i Hbu. induction fuel as [|fuel IHf]; intros s2 d0 i; simpl; [done|].
        destruct (dict_pop _ d0) as [[other d1]|].
        + destruct (if key_lt _ _ then _ else _) as [i' o'].
          destruct (FibHeapHItem.link s2 i' o') as [sl| |] eqn:Hl; simpl; [|done..].
          intros Hb. eapply same_keys_trans; [|by eapply IHf].
          by destruct (link_parent_keys _ _ _ _ Hl).
        + intros [= <- <-]. apply same_keys_refl. }
    pose proof (reforming_pass_same_data _ _ _ _ _ Hc) as Hsd5.
    eapply same_keys_trans; [done|]. eapply same_keys_trans; [done|by apply same_data_keys].
  - by injection H as <- <- <-.
Qed.

(** X13.  [extract_min] writes no key and no payload. *)
Theorem extract_min_keeps_keys fuel s h z s' h' :
  FibHeap.extract_min fuel s h = Ok (z, s', h') → same_keys s s'.
Proof. apply extract_min_same_keys. Qed.

(** ** Concrete states used by the witnesses *)

Lemma list_methods_write_links_only_witness :
  CircularDLL.delete ring2.1 ring2.2 1%positive = Ok ring2_deleted ∧
  ∀ r, same_data (ring2.1 r) (ring2_deleted.1 r).
Proof.
  assert (H : CircularDLL.delete ring2.1 ring2.2 1%positive = Ok ring2_deleted)
    by (apply ok_get_ok; vm_compute; reflexivity).
  split; [exact H|].
  destruct ring2_deleted as [s' c'].
  destruct (list_methods_write_links_only ring2.1 ring2.2 ring2.2 1%positive) as (_ & _ & Hd).
  exact (Hd s' c' H).
Defined.

Lemma heap5_ring : ring heap5.1 (start (roots heap5.2)) [1; 2; 3; 4; 5]%positive.
Proof.
  split; [vm_compute; reflexivity|]. split; [apply (bool_decide_unpack _); by vm_compute|].
  simpl. split_and!; [vm_compute; reflexivity..|done].
Qed.

Lemma heap5_min_ok : min_ok heap5.1 heap5.2 [1; 2; 3; 4; 5]%positive.
Proof.
  exists 1%positive. split; [vm_compute; reflexivity|]. split; [apply list_elem_of_here|].
  intros r Hr. repeat (apply elem_of_cons in Hr as [->|Hr]; [vm_compute; reflexivity|]).
  by apply elem_of_nil in Hr.
Qed.

Lemma notin_heap5 : 6%positive ∉ [1; 2; 3; 4; 5]%positive.
Proof. apply (bool_decide_unpack _). by vm_compute. Qed.

Lemma heap5_no_parent x : parent (heap5.1 x) = None.
Proof.
  destruct x as [[[x|x|]|[x|x|]|]|[[x|x|]|[x|x|]|]|]; vm_compute; reflexivity.
Qed.

Lemma heap5_order : heap_order heap5.1.
Proof. intros x p Hx. by rewrite heap5_no_parent in Hx. Qed.

Lemma heap5_extract_eq : FibHeap.extract_min 5 heap5.1 heap5.2 = Ok heap5_extracted.
Proof. apply ok_get_ok. vm_compute. reflexivity. Qed.

Lemma heap5_decrease_eq :
  FibHeap.decrease_key 5 heap5_extracted.1.2 heap5_extracted.2 5%positive (Num 35)
  = Ok heap5_decreased.
Proof. apply ok_get_ok. vm_compute. reflexivity. Qed.

Lemma heap_insert_keeps_min_witness :
  ring heap5.1 (start (roots heap5.2)) [1; 2; 3; 4; 5]%positive ∧
  (6%positive ∉ [1; 2; 3; 4; 5]%positive) ∧
  min_ok heap5.1 heap5.2 [1; 2; 3; 4; 5]%positive ∧
  ∃ s' h', FibHeap.insert heap5.1 heap5.2 6%positive = Ok (s', h') ∧
        n h' = n heap5.2 + 1 ∧ same_keys heap5.1 s'.
Proof.
  split; [exact heap5_ring|]. split; [exact notin_heap5|]. split; [exact heap5_min_ok|].
  destruct (heap_insert_keeps_min heap5.1 heap5.2 _ 6%positive
              heap5_ring notin_heap5 heap5_min_ok) as (s' & h' & Hi & _ & Hn & _ & _ & Hk).
  exists s', h'. split; [exact Hi|]. split; [exact Hn|exact Hk].
Defined.

Lemma two_heaps_rings :
  ring two_heaps.1.1 (start (roots two_heaps.1.2)) [1; 2]%positive ∧
  ring two_heaps.1.1 (start (roots two_heaps.2)) [3; 4]%positive.
Proof.
  split.
  - split; [vm_compute; reflexivity|]. split; [apply (bool_decide_unpack _); by vm_compute|].
    simpl. split_and!; [vm_compute; reflexivity..|done].
  - split; [vm_compute; reflexivity|]. split; [apply (bool_decide_unpack _); by vm_compute|].
    simpl. split_and!; [vm_compute; reflexivity..|done].
Qed.

Lemma two_heaps_min :
  min_ok two_heaps.1.1 two_heaps.1.2 [1; 2]%positive ∧
  min_ok two_heaps.1.1 two_heaps.2 [3; 4]%positive.
Proof.
  split.
  - exists 1%positive. split; [vm_compute; reflexivity|]. split; [apply list_elem_of_here|].
    intros r Hr. repeat (apply elem_of_cons in Hr as [->|Hr]; [vm_compute; reflexivity|]).
    by apply elem_of_nil in Hr.
  - exists 3%positive. split; [vm_compute; reflexivity|]. split; [apply list_elem_of_here|].
    intros r Hr. repeat (apply elem_of_cons in Hr as [->|Hr]; [vm_compute; reflexivity|]).
    by apply elem_of_nil in Hr.
Qed.

Lemma disjoint_12_34 : ∀ x : ref, x ∈ [1; 2]%positive → x ∉ [3; 4]%positive.
Proof.
  intros x Hx Hy. repeat (apply elem_of_cons in Hx as [->|Hx];
    [by repeat (apply elem_of_cons in Hy as [Hy|Hy]; [done|]); apply elem_of_nil in Hy|]).
  by apply elem_of_nil in Hx.
Qed.

Lemma heap_merge_nonempty_witness :
  ring two_heaps.1.1 (start (roots two_heaps.1.2)) [1; 2]%positive ∧
  ring two_heaps.1.1 (start (roots two_heaps.2)) [3; 4]%positive ∧
  (∀ x : ref, x ∈ [1; 2]%positive → x ∉ [3; 4]%positive) ∧
  min_ok two_heaps.1.1 two_heaps.1.2 [1; 2]%positive ∧
  min_ok two_heaps.1.1 two_heaps.2 [3; 4]%positive ∧
  [1; 2]%positive ≠ [] ∧ [3; 4]%positive ≠ [] ∧
  ∃ s' A', FibHeap.merge two_heaps.1.1 two_heaps.1.2 two_heaps.2 = Ok (s', A') ∧
        n A' = n two_heaps.1.2 + n two_heaps.2.
Proof.
  destruct two_heaps_rings as [R1 R2]. destruct two_heaps_min as [M1 M2].
  assert (N1 : [1; 2]%positive ≠ []) by done.
  assert (N2 : [3; 4]%positive ≠ []) by done.
  split; [exact R1|]. split; [exact R2|]. split; [exact disjoint_12_34|].
  split; [exact M1|]. split; [exact M2|]. split; [exact N1|]. split; [exact N2|].
  destruct (heap_merge_nonempty _ _ _ _ _ R1 R2 disjoint_12_34 M1 M2 N1 N2)
    as (s' & A' & a & b & Hm & _ & _ & _ & Hn & _).
  exists s', A'. split; [exact Hm|exact Hn].
Defined.

Lemma heap_order_preserved_witness :
  FibHeap.extract_min 5 heap5.1 heap5.2 = Ok heap5_extracted ∧
  heap_order heap5.1 ∧ heap_order heap5_extracted.1.2.
Proof.
  split; [exact heap5_extract_eq|]. split; [exact heap5_order|].
  assert (H := heap5_extract_eq). destruct heap5_extracted as [[z s'] h'].
  destruct heap_order_preserved as (_ & _ & He & _).
  exact (He _ _ _ _ _ _ H heap5_order).
Defined.

Lemma decrease_key_writes_one_key_witness :
  FibHeap.decrease_key 5 heap5_extracted.1.2 heap5_extracted.2 5%positive (Num 35)
    = Ok heap5_decreased ∧
  key_le (Num 35) (key (heap5_extracted.1.2 5%positive)) = true ∧
  key (heap5_decreased.1 5%positive) = Num 35 ∧
  (∀ r, r ≠ 5%positive → key (heap5_decreased.1 r) = key (heap5_extracted.1.2 r)) ∧
  (∀ r, payload (heap5_decreased.1 r) = payload (heap5_extracted.1.2 r)).
Proof.
  split; [exact heap5_decrease_eq|].
  assert (H := heap5_decrease_eq). destruct heap5_decreased as [s' h'].
  exact (decrease_key_writes_one_key _ _ _ _ _ _ _ H).
Defined.

Lemma extract_min_keeps_keys_witness :
  FibHeap.extract_min 5 heap5.1 heap5.2 = Ok heap5_extracted ∧
  same_keys heap5.1 heap5_extracted.1.2.
Proof.
  split; [exact heap5_extract_eq|].
  assert (H := heap5_extract_eq). destruct heap5_extracted as [[z s'] h'].
  exact (extract_min_keeps_keys _ _ _ _ _ _ H).
Defined.

(** ** The splitting helpers on the universes a tree can be built for *)

Lemma floor_div_exact_spec ru n x0 x :
  floor_div_exact ru n x0 = true → x0 ≤ x < x0 + Z.of_nat n →
  (q ← int_truediv x ru; math_floor q) = Ok (x / ru).
Proof.
  revert x0. induction n as [|n IH]; intros x0 H Hx; [lia|].
  cbn [floor_div_exact] in H.
  destruct (q ← int_truediv x0 ru; math_floor q) as [h| |] eqn:E; [|done..].
  apply andb_true_iff in H as [Hh H]. apply Z.eqb_eq in Hh. subst h.
  destruct (decide (x = x0)) as [->|Hne]; [exact E|].
  apply (IH (x0 + 1) H). lia.
Qed.

Lemma helpers_exact_spec u ru x :
  root u = Ok ru → 0 < ru →
  floor_div_exact ru (Z.to_nat u) 0 = true → 0 ≤ x < u →
  high x u = Ok (x / ru) ∧ low x u = Ok (x mod ru) ∧ split_join x u = Ok x.
Proof.
  intros Hr Hpos Hc Hx.
  assert (Hh : high x u = Ok (x / ru)).
  { unfold high. rewrite Hr. cbn [mbind res_bind].
    apply (floor_div_exact_spec ru _ 0 x Hc). lia. }
  assert (Hl : low x u = Ok (x mod ru)).
  { unfold low. rewrite Hr. cbn [mbind res_bind].
    destruct (ru =? 0) eqn:E; [apply Z.eqb_eq in E; lia|done]. }
  split; [exact Hh|]. split; [exact Hl|].
  unfold split_join. rewrite Hh, Hl. cbn [mbind res_bind].
  unfold index. rewrite Hr. cbn [mbind res_bind].
  f_equal. pose proof (Z.div_mod x ru). lia.
Qed.

Lemma floor_div_exact_small :
  floor_div_exact 2 (Z.to_nat 4) 0 = true ∧
  floor_div_exact 4 (Z.to_nat 16) 0 = true ∧
  floor_div_exact 16 (Z.to_nat 256) 0 = true ∧
  floor_div_exact 256 (Z.to_nat 65536) 0 = true.
Proof. split; [|split; [|split]]; vm_compute; reflexivity. Qed.

Lemma root_small :
  root 4 = Ok 2 ∧ root 16 = Ok 4 ∧ root 256 = Ok 16 ∧ root 65536 = Ok 256.
Proof. split; [|split; [|split]]; vm_compute; reflexivity. Qed.

(** X14.  On the universes 4, 16, 256 and 65536 the float arithmetic of the helpers
    is exact for every [x] below [u]: [high(x, u)] is [x // ru], [low(x, u)]
    is [x % ru] and [index(high(x, u), low(x, u), u)] gives [x] back, where
    [ru] is the integer square root of [u]. *)
Theorem helpers_exact_on_small_universes u x :
  u ∈ [4; 16; 256; 65536] → 0 ≤ x < u →
  high x u = Ok (x / Z.sqrt u) ∧ low x u = Ok (x mod Z.sqrt u) ∧
  split_join x u = Ok x.
Proof.
  intros Hu Hx.
  destruct floor_div_exact_small as (H4 & H16 & H256 & H65536).
  destruct root_small as (R4 & R16 & R256 & R65536).
  apply elem_of_cons in Hu as [->|Hu].
  { change (Z.sqrt 4) with 2. apply helpers_exact_spec; [exact R4|lia|exact H4|exact Hx]. }
  apply elem_of_cons in Hu as [->|Hu].
  { change (Z.sqrt 16) with 4. apply helpers_exact_spec; [exact R16|lia|exact H16|exact Hx]. }
  apply elem_of_cons in Hu as [->|Hu].
  { change (Z.sqrt 256) with 16. apply helpers_exact_spec; [exact R256|lia|exact H256|exact Hx]. }
  apply elem_of_cons in Hu as [->|Hu].
  { change (Z.sqrt 65536) with 256.
    apply helpers_exact_spec; [exact R65536|lia|exact H65536|exact Hx]. }
  apply elem_of_nil in Hu. destruct Hu.
Qed.

Lemma helpers_exact_on_small_universes_witness :
  256 ∈ [4; 16; 256; 65536] ∧ 0 ≤ 200 < 256 ∧
  high 200 256 = Ok (200 / Z.sqrt 256) ∧ low 200 256 = Ok (200 mod Z.sqrt 256) ∧
  split_join 200 256 = Ok 200.
Proof.
  assert (H1 : 256 ∈ [4; 16; 256; 65536]) by (apply (bool_decide_unpack _); by vm_compute).
  assert (H2 : 0 ≤ 200 < 256) by lia.
  split; [exact H1|]. split; [exact H2|].
  exact (helpers_exact_on_small_universes 256 200 H1 H2).
Defined.

(** ** vEB trees on the universes 2, 4, 16, 256 and 65536 *)

Lemma universe_ge k : 2 ≤ universe k.
Proof. induction k as [|k IH]; cbn [universe]; [lia|nia]. Qed.

Lemma exact_universes k :
  (k < 4)%nat → exact_universe (universe (S k)) (universe k).
Proof.
  intros Hk.
  destruct floor_div_exact_small as (H4 & H16 & H256 & H65536).
  destruct root_small as (R4 & R16 & R256 & R65536).
  assert (Hgen : ∀ u ru, root u = Ok ru → 0 < ru →
            floor_div_exact ru (Z.to_nat u) 0 = true → exact_universe u ru).
  { intros u ru Hr Hpos Hc. split; [exact Hr|]. intros x Hx.
    destruct (helpers_exact_spec u ru x Hr Hpos Hc Hx) as (Hh & Hl & _).
    split; [exact Hh|exact Hl]. }
  destruct k as [|[|[|[|k]]]]; [| | | |lia].
  - change (universe 1) with 4. change (universe 0) with 2.
    apply Hgen; [exact R4|lia|exact H4].
  - change (universe 2) with 16. change (universe 1) with 4.
    apply Hgen; [exact R16|lia|exact H16].
  - change (universe 3) with 256. change (universe 2) with 16.
    apply Hgen; [exact R256|lia|exact H256].
  - change (universe 4) with 65536. change (universe 3) with 256.
    apply Hgen; [exact R65536|lia|exact H65536].
Qed.

Lemma fresh_spec v nxt :
  ∃ p nxt', fresh v nxt = Ok (p, nxt') ∧ ival p = v ∧ cpython_int p.
Proof.
  unfold fresh. destruct (is_small v) eqn:E.
  - exists (mkint v 1), nxt. split; [reflexivity|]. split; [reflexivity|].
    intros _. reflexivity.
  - exists (mkint v nxt), (Pos.succ nxt). split; [reflexivity|].
    split; [reflexivity|]. intros H. cbn [ival] in H. congruence.
Qed.

Lemma insert_at_spec (cl : list VEBTree) (i : nat) (l3 : pyint) nxt :
  (fix at_ (l : list VEBTree) (i : nat) {struct l} : alloc (list VEBTree) :=
     match l, i with
     | [], _ => raise IndexError
     | c :: l', O => c' ← VEBTree.insert c l3; mret (c' :: l')
     | c :: l', S i' => l'' ← at_ l' i'; mret (c :: l'')
     end) cl i nxt =
  match cl !! i with
  | Some c =>
      match VEBTree.insert c l3 nxt with
      | Ok (c', n') => Ok (<[i:=c']> cl, n')
      | Raise e => Raise e
      | OutOfFuel => OutOfFuel
      end
  | None => Raise IndexError
  end.
Proof.
  revert i nxt. induction cl as [|c cl IH]; intros i nxt; [reflexivity|].
  destruct i as [|i].
  - cbn [lookup list_lookup]. unfold mbind at 1, alloc_bind.
    destruct (VEBTree.insert c l3 nxt) as [[c' n']| |]; reflexivity.
  - cbn [lookup list_lookup]. unfold mbind at 1, alloc_bind. rewrite IH.
    change (list_lookup i cl) with (cl !! i).
    destruct (cl !! i) as [c0|]; [|reflexivity].
    destruct (VEBTree.insert c0 l3 nxt) as [[c' n']| |]; reflexivity.
Qed.

Lemma alloc_bind_ok {A B} (m : alloc A) (f : A → alloc B) nxt a n' :
  m nxt = Ok (a, n') → (m ≫= f) nxt = f a n'.
Proof. intros H. unfold mbind, alloc_bind. rewrite H. reflexivity. Qed.

Lemma py_index_ok len i :
  0 ≤ i < Z.of_nat len → py_index len i = Ok (Z.to_nat i).
Proof.
  intros Hi. unfold py_index.
  destruct (i <? - Z.of_nat len) eqn:E1; [apply Z.ltb_lt in E1; lia|].
  destruct (Z.of_nat len <=? i) eqn:E2; [apply Z.leb_le in E2; lia|].
  destruct (i <? 0) eqn:E3; [apply Z.ltb_lt in E3; lia|]. reflexivity.
Qed.

Lemma high_obj_spec u ru x nxt :
  exact_universe u ru → 0 ≤ ival x < u →
  ∃ p n', VEBTree.high_obj x u nxt = Ok (p, n') ∧ ival p = ival x / ru ∧
          cpython_int p.
Proof.
  intros [_ He] Hx. destruct (He _ Hx) as [Hh _].
  unfold VEBTree.high_obj. rewrite Hh.
  destruct (fresh_spec (ival x / ru) nxt) as (p & n' & Hf & Hv & Hc).
  exists p, n'. split; [|split; [exact Hv|exact Hc]].
  unfold mbind, alloc_bind, lift. exact Hf.
Qed.

Lemma low_obj_spec u ru x nxt :
  exact_universe u ru → 0 ≤ ival x < u →
  ∃ p n', VEBTree.low_obj x u nxt = Ok (p, n') ∧ ival p = ival x mod ru ∧
          cpython_int p.
Proof.
  intros [_ He] Hx. destruct (He _ Hx) as [_ Hl].
  unfold VEBTree.low_obj. rewrite Hl.
  destruct (fresh_spec (ival x mod ru) nxt) as (p & n' & Hf & Hv & Hc).
  exists p, n'. split; [|split; [exact Hv|exact Hc]].
  unfold mbind, alloc_bind, lift. exact Hf.
Qed.

Lemma holds_Some p y : holds (Some p) y ↔ ival p = y.
Proof.
  unfold holds. split.
  - intros (q & Hq & Hv). by simplify_eq.
  - intros Hv. by exists p.
Qed.

Lemma holds_None y : ¬ holds None y.
Proof. intros (q & Hq & _). discriminate. Qed.

(** What a well-formed tree holds lies in its universe. *)
Lemma has_range k t y : wf k t → has k t y → 0 ≤ y < universe k.
Proof.
  destruct k as [|k], t as [mn mx|u ru mn mx s cl]; cbn [wf has]; try done.
  - intros Hb Hy. unfold bounds in Hb.
    destruct mn as [a|], mx as [b|]; try done; [|by apply Hb in Hy].
    destruct Hb as (_ & _ & H0 & Hab & Hb2 & Hall).
    specialize (Hall y Hy). cbn [universe]. lia.
  - intros (Hu & Hru & _ & _ & _ & Hb & _) Hy. unfold bounds in Hb.
    destruct mn as [a|], mx as [b|]; try done; [|by apply Hb in Hy].
    destruct Hb as (_ & _ & H0 & Hab & Hb2 & Hall).
    specialize (Hall y Hy). lia.
Qed.

(** A tree holds something exactly when its [min] is set. *)
Lemma has_minimum k t : wf k t → (∃ y, has k t y) ↔ VEBTree.minimum t ≠ None.
Proof.
  destruct k as [|k], t as [mn mx|u ru mn mx s cl]; cbn [wf has VEBTree.minimum];
    try done.
  - intros Hb. unfold bounds in Hb. destruct mn as [a|], mx as [b|]; try done.
    + split; [done|]. intros _. exists (ival a). left. by apply holds_Some.
    + split; [|done]. intros [y Hy]. by apply Hb in Hy.
  - intros (_ & _ & _ & _ & _ & Hb & _). unfold bounds in Hb.
    destruct mn as [a|], mx as [b|]; try done.
    + split; [done|]. intros _. exists (ival a). left. by apply holds_Some.
    + split; [|done]. intros [y Hy]. by apply Hb in Hy.
Qed.

(** Storing into one cluster adds one value to what the clusters hold. *)
Lemma in_cluster_insert (P : VEBTree → Z → Prop) ru cl c c' x :
  0 < ru → 0 ≤ x →
  cl !! Z.to_nat (x / ru) = Some c →
  (∀ y, P c' y ↔ P c y ∨ y = x mod ru) →
  ∀ y, in_cluster P ru (<[Z.to_nat (x / ru) := c']> cl) y ↔
       in_cluster P ru cl y ∨ y = x.
Proof.
  intros Hru Hx Hc HP y. unfold in_cluster.
  assert (Hlt : (Z.to_nat (x / ru) < length cl)%nat).
  { apply lookup_lt_is_Some. by eexists. }
  destruct (decide (y / ru = x / ru)) as [Heq|Hne].
  - rewrite Heq, list_lookup_insert_eq by exact Hlt. split.
    + intros (Hy & c0 & Hc0 & Hp). simplify_eq. apply HP in Hp as [Hp|Hp].
      * left. split; [exact Hy|]. by exists c.
      * right. rewrite (Z.div_mod y ru), (Z.div_mod x ru) by lia.
        rewrite Heq, Hp. reflexivity.
    + intros [(Hy & c0 & Hc0 & Hp)|Hyx].
      * simplify_eq. split; [exact Hy|]. exists c'. split; [done|].
        apply HP. by left.
      * subst y. split; [exact Hx|]. exists c'. split; [done|].
        apply HP. by right.
  - split.
    + intros (Hy & c0 & Hc0 & Hp). left. split; [exact Hy|]. exists c0.
      split; [|exact Hp].
      rewrite list_lookup_insert_ne in Hc0; [exact Hc0|].
      intros E. apply Hne. symmetry.
      apply Z2Nat.inj in E; [exact E| |]; apply Z.div_pos; lia.
    + intros [(Hy & c0 & Hc0 & Hp)|Hyx]; [|by subst y].
      split; [exact Hy|]. exists c0. split; [|exact Hp].
      rewrite list_lookup_insert_ne; [exact Hc0|].
      intros E. apply Hne. symmetry.
      apply Z2Nat.inj in E; [exact E| |]; apply Z.div_pos; lia.
Qed.

Lemma lift_ok {A} (r : res A) a nxt : r = Ok a → lift r nxt = Ok (a, nxt).
Proof. intros ->. reflexivity. Qed.

Ltac bind_step H := rewrite (alloc_bind_ok _ _ _ _ _ H); cbv beta.

(** The bookkeeping of [min] and [max] around one stored value. *)
Lemma node_update (a b v mn' x' mxv : Z) (C C' : Z → Prop) :
  a ≤ b → (∀ y, C y → a ≤ y ≤ b) → (b = a ∨ C b) →
  mn' = Z.min v a → x' = Z.max v a → mxv = Z.max b x' →
  (∀ y, C' y ↔ C y ∨ y = x') →
  (∀ y, (mn' = y ∨ mxv = y ∨ C' y) ↔ ((a = y ∨ b = y ∨ C y) ∨ y = v)) ∧
  (∀ y, (mn' = y ∨ mxv = y ∨ C' y) → mn' ≤ y ≤ mxv) ∧
  (mn' = mxv ∨ C' mxv).
Proof.
  intros Hab Hall Hb -> -> -> HC'. split; [|split].
  - intros y. rewrite HC'. split.
    + intros [H|[H|[H|H]]]; [| |tauto|];
        (assert (a = y ∨ b = y ∨ y = v) by lia; tauto).
    + intros [[H|[H|H]]|H]; [| |tauto|].
      * assert (Z.min v a = y ∨ y = Z.max v a) by lia. tauto.
      * subst y. destruct Hb as [Hb|Hb]; [|tauto].
        assert (Z.min v a = b ∨ Z.max b (Z.max v a) = b) by lia. tauto.
      * assert (Z.min v a = y ∨ y = Z.max v a) by lia. tauto.
  - intros y. rewrite HC'. intros [H|[H|[H|H]]]; [lia|lia| |lia].
    specialize (Hall y H). lia.
  - rewrite HC'. destruct (Z.le_gt_cases (Z.max v a) b) as [Hle|Hgt].
    + replace (Z.max b (Z.max v a)) with b by lia.
      destruct Hb as [Hb|Hb]; [|tauto].
      assert (Z.min v a = b ∨ b = Z.max v a) by lia. tauto.
    + right. right. lia.
Qed.

Lemma swap_spec (x m mn' x' : pyint) :
  (if ival x <? ival m then (x, m) else (m, x)) = (mn', x') →
  cpython_int x → cpython_int m →
  cpython_int mn' ∧ cpython_int x' ∧
  ival mn' = Z.min (ival x) (ival m) ∧ ival x' = Z.max (ival x) (ival m).
Proof.
  intros E Hx Hm. destruct (ival x <? ival m) eqn:El; simplify_eq.
  - apply Z.ltb_lt in El. split; [exact Hx|]. split; [exact Hm|]. lia.
  - apply Z.ltb_ge in El. split; [exact Hm|]. split; [exact Hx|]. lia.
Qed.

Lemma new_max_spec (b x' : pyint) :
  cpython_int b → cpython_int x' →
  ∃ q, (if ival b <? ival x' then Some x' else Some b) = Some q ∧
       cpython_int q ∧ ival q = Z.max (ival b) (ival x').
Proof.
  intros Hb Hx. destruct (ival b <? ival x') eqn:E.
  - apply Z.ltb_lt in E. exists x'. split; [reflexivity|]. split; [exact Hx|lia].
  - apply Z.ltb_ge in E. exists b. split; [reflexivity|]. split; [exact Hb|lia].
Qed.

(** [insert] on a base node. *)
Lemma insert_base mn mx x nxt :
  wf 0 (Base mn mx) → cpython_int x → 0 ≤ ival x < 2 →
  ∃ t', VEBTree.insert (Base mn mx) x nxt = Ok (t', nxt) ∧ wf 0 t' ∧
        (∀ y, has 0 t' y ↔ has 0 (Base mn mx) y ∨ y = ival x) ∧
        VEBTree.minimum t' ≠ None.
Proof.
  cbn [wf]. unfold bounds. intros Hb Hcx Hx.
  destruct mn as [m|], mx as [b|]; [|destruct Hb|destruct Hb|].
  - destruct Hb as (Hcm & Hcb & Hm0 & Hmb & Hb2 & _).
    cbn [VEBTree.insert].
    destruct (if ival x <? ival m then (x, m) else (m, x)) as [mn' x'] eqn:Esw.
    destruct (swap_spec _ _ _ _ Esw Hcx Hcm) as (Hcmn & Hcx' & Hvmn & Hvx').
    destruct (new_max_spec b x' Hcb Hcx') as (q & Hq & Hcq & Hvq).
    cbn [VEBTree.int_of]. unfold mbind, alloc_bind, mret, alloc_ret.
    rewrite Hq. eexists. split; [reflexivity|].
    cbn [wf has VEBTree.minimum]. unfold bounds.
    split; [|split; [|discriminate]].
    + split; [exact Hcmn|]. split; [exact Hcq|].
      split; [lia|]. split; [lia|]. split; [lia|].
      intros y. rewrite !holds_Some. lia.
    + intros y. rewrite !holds_Some. lia.
  - cbn [VEBTree.insert]. eexists. split; [reflexivity|].
    cbn [wf has VEBTree.minimum]. unfold bounds.
    split; [|split; [|discriminate]].
    + split; [exact Hcx|]. split; [exact Hcx|].
      split; [lia|]. split; [lia|]. split; [lia|].
      intros y. rewrite !holds_Some. lia.
    + intros y. rewrite !holds_Some. split; [intros [?|?]; by right|].
      intros [[H|H]|H]; [by apply holds_None in H..|by left].
Qed.

Lemma to_nat_eq i h : 0 ≤ i → 0 ≤ h → Z.to_nat i = Z.to_nat h ↔ i = h.
Proof. lia. Qed.

(** [insert] keeps a tree well formed and adds exactly the inserted value. *)
Lemma insert_spec k :
  (k ≤ 4)%nat → ∀ t x nxt,
  wf k t → cpython_int x → 0 ≤ ival x < universe k →
  ∃ t' n', VEBTree.insert t x nxt = Ok (t', n') ∧ wf k t' ∧
           (∀ y, has k t' y ↔ has k t y ∨ y = ival x) ∧
           VEBTree.minimum t' ≠ None.
Proof.
  induction k as [|k IH]; intros Hk t x nxt Hwf Hcx Hx.
  { destruct t as [mn mx|]; [|destruct Hwf].
    destruct (insert_base mn mx x nxt Hwf Hcx Hx) as (t' & H1 & H2).
    exists t', nxt. split; [exact H1|exact H2]. }
  destruct t as [|u ru mn mx s cl]; [destruct Hwf|].
  assert (Hk' : (k ≤ 4)%nat) by lia. specialize (IH Hk').
  cbn [wf] in Hwf.
  destruct Hwf as (Hu & Hru & Hs & Hlen & Hcl & Hb & Hmx & Hsum).
  pose proof (universe_ge k) as Hge.
  assert (He : exact_universe u ru) by (subst u ru; apply exact_universes; lia).
  assert (Huru : u = ru * ru) by (subst u ru; reflexivity).
  cbn [universe] in Hx. rewrite <- Hru in Hx, Hge.
  unfold bounds in Hb.
  destruct mn as [m|], mx as [b|]; [|destruct Hb|destruct Hb|].
  - destruct Hb as (Hcm & Hcb & Hm0 & Hmb & Hbu & Hall).
    cbn [VEBTree.insert].
    destruct (if ival x <? ival m then (x, m) else (m, x)) as [mn' x'] eqn:Esw.
    destruct (swap_spec _ _ _ _ Esw Hcx Hcm) as (Hcmn & Hcx' & Hvmn & Hvx').
    assert (Hx' : 0 ≤ ival x' < u) by lia.
    assert (H2u : (2 <? u) = true) by (apply Z.ltb_lt; nia).
    rewrite H2u.
    assert (Hh : 0 ≤ ival x' / ru < ru).
    { split; [apply Z.div_pos; lia|apply Z.div_lt_upper_bound; lia]. }
    assert (Hl : 0 ≤ ival x' mod ru < ru) by (apply Z.mod_pos_bound; lia).
    destruct (lookup_lt_is_Some_2 cl (Z.to_nat (ival x' / ru))) as [c Hc]; [lia|].
    assert (Hwc : wf k c) by (eapply Forall_lookup_1; eassumption).
    match goal with |- ∃ _ _, (?m ≫= _) nxt = _ ∧ _ =>
      assert (Hin : ∃ s' c' n',
        m nxt = Ok ((s', <[Z.to_nat (ival x' / ru) := c']> cl), n') ∧
        wf k s' ∧ (∀ i, has k s' i ↔ has k s i ∨ i = ival x' / ru) ∧
        wf k c' ∧ (∀ y, has k c' y ↔ has k c y ∨ y = ival x' mod ru) ∧
        VEBTree.minimum c' ≠ None)
    end.
    { destruct (high_obj_spec u ru x' nxt He Hx') as (h1 & n1 & Hh1 & Hv1 & Hc1).
      bind_step Hh1.
      assert (Hi1 : lift (py_index (length cl) (ival h1)) n1
                    = Ok (Z.to_nat (ival x' / ru), n1)).
      { apply lift_ok. rewrite Hv1. apply py_index_ok. lia. }
      bind_step Hi1. rewrite Hc.
      assert (Hl1 : lift (Ok c) n1 = Ok (c, n1)) by reflexivity.
      bind_step Hl1.
      match goal with |- ∃ _ _ _, (?m ≫= _) n1 = _ ∧ _ =>
        assert (Hsm : ∃ s' n2, m n1 = Ok (s', n2) ∧ wf k s' ∧
                  (∀ i, has k s' i ↔ has k s i ∨ i = ival x' / ru))
      end.
      { destruct (VEBTree.minimum c) as [mc|] eqn:Emin.
        - exists s, n1. split; [reflexivity|]. split; [exact Hs|].
          intros i. split; [by left|]. intros [Hi|Hi]; [exact Hi|]. subst i.
          apply Hsum. split; [lia|]. exists c. split; [exact Hc|].
          rewrite Emin. discriminate.
        - destruct (high_obj_spec u ru x' n1 He Hx')
            as (h2 & n2 & Hh2 & Hv2 & Hc2).
          assert (Hr2 : 0 ≤ ival h2 < universe k) by lia.
          destruct (IH s h2 n2 Hs Hc2 Hr2) as (s' & n3 & Hs' & Hws' & Hhs' & _).
          exists s', n3. split; [bind_step Hh2; exact Hs'|].
          split; [exact Hws'|]. intros i. rewrite Hhs', Hv2. reflexivity. }
      destruct Hsm as (s' & n2 & Hsm & Hws' & Hhs'). bind_step Hsm.
      destruct (high_obj_spec u ru x' n2 He Hx') as (h3 & n3 & Hh3 & Hv3 & Hc3).
      bind_step Hh3.
      assert (Hi3 : lift (py_index (length cl) (ival h3)) n3
                    = Ok (Z.to_nat (ival x' / ru), n3)).
      { apply lift_ok. rewrite Hv3. apply py_index_ok. lia. }
      bind_step Hi3.
      destruct (low_obj_spec u ru x' n3 He Hx') as (l3 & n4 & Hl3 & Hvl3 & Hcl3).
      bind_step Hl3.
      assert (Hr3 : 0 ≤ ival l3 < universe k) by lia.
      destruct (IH c l3 n4 Hwc Hcl3 Hr3) as (c' & n5 & Hc' & Hwc' & Hhc' & Hmc').
      match goal with |- ∃ _ _ _, (?m ≫= _) n4 = _ ∧ _ =>
        assert (Hat : m n4 = Ok (<[Z.to_nat (ival x' / ru) := c']> cl, n5))
      end.
      { rewrite insert_at_spec, Hc, Hc'. reflexivity. }
      bind_step Hat. exists s', c', n5. split; [reflexivity|].
      split; [exact Hws'|]. split; [exact Hhs'|]. split; [exact Hwc'|].
      split; [|exact Hmc']. intros y. rewrite Hhc', Hvl3. reflexivity. }
    destruct Hin as (s' & c' & n' & Hin & Hws' & Hhs' & Hwc' & Hhc' & Hmc').
    bind_step Hin. cbv beta iota. cbn [VEBTree.int_of].
    unfold mbind, alloc_bind, mret, alloc_ret.
    destruct (new_max_spec b x' Hcb Hcx') as (q & Hq & Hcq & Hvq). rewrite Hq.
    eexists _, _. split; [reflexivity|].
    assert (Hru0 : 0 < ru) by lia. assert (Hx0 : 0 ≤ ival x') by lia.
    pose proof (in_cluster_insert (has k) ru cl c c' (ival x') Hru0 Hx0 Hc Hhc')
      as Hic.
    assert (Hall' : ∀ y, in_cluster (has k) ru cl y → ival m ≤ y ≤ ival b).
    { intros y Hy. apply Hall. right. right. exact Hy. }
    assert (Hb' : ival b = ival m ∨ in_cluster (has k) ru cl (ival b)).
    { destruct (Hmx b eq_refl) as [H|H]; [left|right; exact H].
      apply holds_Some in H. lia. }
    destruct (node_update (ival m) (ival b) (ival x) (ival mn') (ival x') (ival q)
                _ _ Hmb Hall' Hb' Hvmn Hvx' Hvq Hic) as (N1 & N2 & N3).
    cbn [wf has VEBTree.minimum].
    split; [|split; [|discriminate]].
    + split; [exact Hu|]. split; [exact Hru|]. split; [exact Hws'|].
      split; [by rewrite length_insert|].
      split; [by apply Forall_insert|].
      split; [|split].
      * unfold bounds. split; [exact Hcmn|]. split; [exact Hcq|].
        split; [lia|]. split; [lia|]. split; [lia|].
        intros y. rewrite !holds_Some. apply N2.
      * intros b0 Hb0. injection Hb0 as <-. rewrite holds_Some. exact N3.
      * intros i. rewrite Hhs', Hsum. split.
        -- intros [(Hi & c0 & Hc0 & Hm)|Hi].
           ++ split; [exact Hi|].
              destruct (decide (i = ival x' / ru)) as [->|Hne].
              ** exists c'. split; [|exact Hmc'].
                 apply list_lookup_insert_eq. lia.
              ** exists c0. split; [|exact Hm].
                 rewrite list_lookup_insert_ne; [exact Hc0|].
                 rewrite to_nat_eq; lia.
           ++ subst i. split; [lia|]. exists c'. split; [|exact Hmc'].
              apply list_lookup_insert_eq. lia.
        -- intros (Hi & c0 & Hc0 & Hm).
           destruct (decide (i = ival x' / ru)) as [->|Hne]; [by right|].
           left. split; [exact Hi|]. exists c0. split; [|exact Hm].
           rewrite list_lookup_insert_ne in Hc0; [exact Hc0|].
           rewrite to_nat_eq; lia.
    + intros y. rewrite !holds_Some. apply N1.
  - cbn [VEBTree.insert]. eexists _, _. split; [reflexivity|].
    cbn [wf has VEBTree.minimum].
    split; [|split; [|discriminate]].
    + split; [exact Hu|]. split; [exact Hru|]. split; [exact Hs|].
      split; [exact Hlen|]. split; [exact Hcl|].
      split; [|split; [|exact Hsum]].
      * unfold bounds. split; [exact Hcx|]. split; [exact Hcx|].
        split; [lia|]. split; [lia|]. split; [lia|].
        intros y. rewrite !holds_Some. intros [H|[H|H]]; [lia|lia|].
        exfalso. apply (Hb y). right. right. exact H.
      * intros b0 Hb0. injection Hb0 as <-. left. by apply holds_Some.
    + intros y. rewrite !holds_Some. split.
      * intros [H|[H|H]]; [by right|by right|]. left. right. right. exact H.
      * intros [[H|[H|H]]|H]; [by apply holds_None in H..| |by left].
        right. right. exact H.
Qed.

(** [VEBTree(universe k)] is an empty well-formed tree. *)
Lemma init_spec k :
  (k ≤ 4)%nat → ∀ fuel, (k < fuel)%nat →
  ∃ t, VEBTree.init fuel (universe k) = Ok t ∧ wf k t ∧
       (∀ y, ¬ has k t y) ∧ VEBTree.minimum t = None ∧
       VEBTree.maximum t = None.
Proof.
  induction k as [|k IH]; intros Hk fuel Hf.
  { destruct fuel as [|fuel]; [lia|]. exists (Base None None).
    split; [reflexivity|]. cbn [wf has bounds].
    split; [|split; [|split; reflexivity]].
    - intros y [H|H]; by apply holds_None in H.
    - intros y [H|H]; by apply holds_None in H. }
  destruct fuel as [|fuel]; [lia|].
  assert (Hk' : (k ≤ 4)%nat) by lia. assert (Hf' : (k < fuel)%nat) by lia.
  destruct (IH Hk' fuel Hf') as (c & Hc & Hwc & Hec & Hminc & _).
  pose proof (universe_ge k) as Hge.
  assert (Hlt : (k < 4)%nat) by lia.
  destruct (exact_universes k Hlt) as [Hr _].
  cbn [VEBTree.init].
  assert (Hne : (universe (S k) =? 2) = false).
  { apply Z.eqb_neq. cbn [universe]. nia. }
  rewrite Hne, Hr. cbn [mbind res_bind]. rewrite Hc. cbn [mbind res_bind].
  assert (Hpos : (universe k <=? 0) = false) by (apply Z.leb_gt; lia).
  rewrite Hpos. eexists. split; [reflexivity|].
  assert (Hnone : ∀ y, ¬ in_cluster (has k) (universe k)
                          (replicate (Z.to_nat (universe k)) c) y).
  { intros y (_ & c0 & Hc0 & Hy). apply lookup_replicate in Hc0 as [-> _].
    by apply Hec in Hy. }
  cbn [wf has VEBTree.minimum VEBTree.maximum].
  split; [|split; [|split; reflexivity]].
  - split; [reflexivity|]. split; [reflexivity|]. split; [exact Hwc|].
    split; [by rewrite length_replicate|].
    split; [by apply Forall_replicate|].
    split; [|split].
    + unfold bounds. intros y [H|[H|H]]; [by apply holds_None in H..|].
      by apply Hnone in H.
    + intros b Hb. discriminate.
    + intros i. split.
      * intros Hi. by apply Hec in Hi.
      * intros (_ & c0 & Hc0 & Hm). apply lookup_replicate in Hc0 as [-> _].
        by rewrite Hminc in Hm.
  - intros y [H|[H|H]]; [by apply holds_None in H..|]. by apply Hnone in H.
Qed.

Lemma member_at_spec (cl : list VEBTree) (i : nat) (l : pyint) nxt :
  (fix at_ (cl : list VEBTree) (i : nat) {struct cl} : alloc bool :=
     match cl, i with
     | [], _ => raise IndexError
     | c :: _, O => VEBTree.member c l
     | _ :: cl', S i' => at_ cl' i'
     end) cl i nxt =
  match cl !! i with
  | Some c => VEBTree.member c l nxt
  | None => Raise IndexError
  end.
Proof.
  revert i. induction cl as [|c cl IH]; intros i; [reflexivity|].
  destruct i as [|i]; [reflexivity|]. cbn [lookup list_lookup]. apply IH.
Qed.

(** [x is o] implies equal values, and is equality of values between
    shared small objects. *)
Lemma is_sound x o : is_ x o = true → holds o (ival x).
Proof.
  destruct o as [p|]; [|discriminate]. cbn [is_]. unfold int_is.
  intros H. apply andb_true_iff in H as [H _]. apply Z.eqb_eq in H.
  apply holds_Some. lia.
Qed.

Lemma is_complete x o :
  cpython_int x → is_small (ival x) = true →
  (∀ p, o = Some p → cpython_int p) → holds o (ival x) → is_ x o = true.
Proof.
  intros Hx Hs Ho (p & -> & Hv). cbn [is_]. unfold int_is.
  apply andb_true_iff. split; [apply Z.eqb_eq; lia|].
  apply Pos.eqb_eq. rewrite (Hx Hs). symmetry. apply (Ho p eq_refl).
  rewrite Hv. exact Hs.
Qed.

Lemma bounds_cpython u mn mx P p :
  bounds u mn mx P → mn = Some p ∨ mx = Some p → cpython_int p.
Proof.
  unfold bounds. destruct mn as [a|], mx as [b|]; try done.
  - intros (Ha & Hb & _) [H|H]; by simplify_eq.
  - intros _ [H|H]; discriminate.
Qed.

Lemma small_in_universe (v u : Z) : 0 ≤ v < u → u ≤ 256 → is_small v = true.
Proof.
  intros Hv Hu. unfold is_small. apply andb_true_iff.
  split; apply Z.leb_le; lia.
Qed.

(** [member] returns; what it finds is held, and on a universe of shared
    small objects it finds everything that is held. *)
Lemma member_spec k :
  (k ≤ 4)%nat → ∀ t x nxt,
  wf k t → cpython_int x → 0 ≤ ival x < universe k →
  ∃ b n', VEBTree.member t x nxt = Ok (b, n') ∧
          (b = true → has k t (ival x)) ∧
          (universe k ≤ 256 → has k t (ival x) → b = true).
Proof.
  induction k as [|k IH]; intros Hk t x nxt Hwf Hcx Hx.
  { destruct t as [mn mx|]; [|destruct Hwf]. cbn [wf] in Hwf.
    cbn [VEBTree.member has]. eexists _, _. split; [reflexivity|]. split.
    - intros H. apply orb_true_iff in H as [H|H]; [left|right]; by apply is_sound.
    - intros Hu H. apply orb_true_iff.
      destruct H as [H|H]; [left|right];
        (apply is_complete; [exact Hcx|by eapply small_in_universe| |exact H]);
        intros p Hp; eapply bounds_cpython; eauto. }
  destruct t as [|u ru mn mx s cl]; [destruct Hwf|].
  assert (Hk' : (k ≤ 4)%nat) by lia. specialize (IH Hk').
  cbn [wf] in Hwf.
  destruct Hwf as (Hu & Hru & Hs & Hlen & Hcl & Hb & Hmx & Hsum).
  pose proof (universe_ge k) as Hge.
  assert (He : exact_universe u ru) by (subst u ru; apply exact_universes; lia).
  rewrite <- Hu in Hx.
  assert (Huru : u = ru * ru) by (subst u ru; reflexivity).
  rewrite <- Hru in Hge.
  cbn [VEBTree.member has].
  destruct (is_ x mn || is_ x mx) eqn:E.
  { exists true, nxt. split; [reflexivity|]. split; [|done]. intros _.
    apply orb_true_iff in E as [E|E]; [left|right; left]; by apply is_sound. }
  assert (Hh : 0 ≤ ival x / ru < ru).
  { split; [apply Z.div_pos; lia|apply Z.div_lt_upper_bound; lia]. }
  assert (Hl : 0 ≤ ival x mod ru < ru) by (apply Z.mod_pos_bound; lia).
  destruct (lookup_lt_is_Some_2 cl (Z.to_nat (ival x / ru))) as [c Hc]; [lia|].
  assert (Hwc : wf k c) by (eapply Forall_lookup_1; eassumption).
  destruct (high_obj_spec u ru x nxt He Hx) as (h1 & n1 & Hh1 & Hv1 & Hc1).
  bind_step Hh1.
  assert (Hi1 : lift (py_index (length cl) (ival h1)) n1
                = Ok (Z.to_nat (ival x / ru), n1)).
  { apply lift_ok. rewrite Hv1. apply py_index_ok. lia. }
  bind_step Hi1.
  destruct (low_obj_spec u ru x n1 He Hx) as (l3 & n2 & Hl3 & Hvl3 & Hcl3).
  bind_step Hl3. rewrite member_at_spec, Hc.
  assert (Hr3 : 0 ≤ ival l3 < universe k) by lia.
  destruct (IH c l3 n2 Hwc Hcl3 Hr3) as (b & n3 & Hm & Hsound & Hcompl).
  exists b, n3. split; [exact Hm|]. rewrite Hvl3 in Hsound, Hcompl. split.
  - intros Hbt. right. right. split; [lia|]. exists c. split; [exact Hc|].
    by apply Hsound.
  - intros Hu256 Hhas. apply Hcompl; [subst u ru; cbn [universe] in Hu256; nia|].
    apply orb_false_iff in E as [E1 E2].
    assert (Hsm : is_small (ival x) = true).
    { apply (small_in_universe _ u); [exact Hx|rewrite Hu; exact Hu256]. }
    destruct Hhas as [H|[H|H]].
    + apply is_complete in H; [congruence|exact Hcx|exact Hsm|].
      intros p Hp. eapply bounds_cpython; eauto.
    + apply is_complete in H; [congruence|exact Hcx|exact Hsm|].
      intros p Hp. eapply bounds_cpython; eauto.
    + destruct H as (_ & c0 & Hc0 & Hy). by simplify_eq.
Qed.

(** [insert] of each of [xs] in turn. *)
Lemma insert_all_spec k :
  (k ≤ 4)%nat → ∀ xs t nxt,
  wf k t → Forall (λ x, cpython_int x ∧ 0 ≤ ival x < universe k) xs →
  ∃ t' n', veb_insert_all t xs nxt = Ok (t', n') ∧ wf k t' ∧
           (∀ y, has k t' y ↔ has k t y ∨ y ∈ ival <$> xs).
Proof.
  intros Hk xs. induction xs as [|x xs IH]; intros t nxt Hwf Hxs.
  { exists t, nxt. split; [reflexivity|]. split; [exact Hwf|].
    intros y. split; [by left|]. intros [H|H]; [exact H|].
    by apply elem_of_nil in H. }
  apply Forall_cons in Hxs as [[Hcx Hx] Hxs].
  destruct (insert_spec k Hk t x nxt Hwf Hcx Hx) as (t1 & n1 & H1 & Hw1 & Hh1 & _).
  destruct (IH t1 n1 Hw1 Hxs) as (t2 & n2 & H2 & Hw2 & Hh2).
  exists t2, n2. split; [|split; [exact Hw2|]].
  - cbn [veb_insert_all]. bind_step H1. exact H2.
  - intros y. rewrite Hh2, Hh1, fmap_cons, elem_of_cons. tauto.
Qed.

(** The universes as the constructor sees them. *)
Lemma universe_of u :
  u ∈ [2; 4; 16; 256; 65536] → ∃ k, (k ≤ 4)%nat ∧ u = universe k.
Proof.
  intros Hu. repeat (apply elem_of_cons in Hu as [->|Hu]).
  - exists 0%nat. split; [lia|reflexivity].
  - exists 1%nat. split; [lia|reflexivity].
  - exists 2%nat. split; [lia|reflexivity].
  - exists 3%nat. split; [lia|reflexivity].
  - exists 4%nat. split; [lia|reflexivity].
  - by apply elem_of_nil in Hu.
Qed.

(** [VEBTree(u)] followed by [insert] of each of [xs]. *)
Lemma veb_of_spec k xs nxt :
  (k ≤ 4)%nat →
  Forall (λ x, cpython_int x ∧ 0 ≤ ival x < universe k) xs →
  ∃ t n', veb_of (universe k) xs nxt = Ok (t, n') ∧ wf k t ∧
          (∀ y, has k t y ↔ y ∈ ival <$> xs).
Proof.
  intros Hk Hxs.
  assert (Hf : (k < 8)%nat) by lia.
  destruct (init_spec k Hk 8%nat Hf) as (t0 & H0 & Hw0 & He0 & _).
  destruct (insert_all_spec k Hk xs t0 nxt Hw0 Hxs) as (t & n' & H1 & Hw & Hh).
  exists t, n'. split; [|split; [exact Hw|]].
  - unfold veb_of. rewrite (alloc_bind_ok _ _ nxt t0 nxt); [exact H1|].
    apply lift_ok. exact H0.
  - intros y. rewrite Hh. split; [|by right]. intros [H|H]; [|exact H].
    by apply He0 in H.
Qed.

Lemma pyobj_cpython v a : cpython_int (pyobj v a) ∧ ival (pyobj v a) = v.
Proof.
  unfold pyobj, cpython_int. destruct (is_small v) eqn:E; cbn [ival iaddr].
  - split; [intros _|]; reflexivity.
  - split; [intros H; congruence|reflexivity].
Qed.

Lemma universe_small k : (k ≤ 3)%nat → universe k ≤ 256.
Proof.
  intros Hk. destruct k as [|[|[|[|k]]]]; [| | | |lia]; cbn [universe]; lia.
Qed.

Lemma sqrt_universe k : Z.sqrt (universe (S k)) = universe k.
Proof.
  cbn [universe]. apply Z.sqrt_square. pose proof (universe_ge k). lia.
Qed.

(** [min] and [max] of a tree that holds something are held and bound what
    is held. *)
Lemma min_max_spec k t y :
  wf k t → has k t y →
  ∃ a b, VEBTree.minimum t = Some a ∧ VEBTree.maximum t = Some b ∧
         has k t (ival a) ∧ has k t (ival b) ∧
         ∀ v, has k t v → ival a ≤ v ≤ ival b.
Proof.
  destruct k as [|k], t as [mn mx|u ru mn mx s cl];
    cbn [wf has VEBTree.minimum VEBTree.maximum]; try done.
  - unfold bounds. intros Hb Hy.
    destruct mn as [a|], mx as [b|]; try done; [|by apply Hb in Hy].
    destruct Hb as (_ & _ & _ & _ & _ & Hall). exists a, b.
    split; [done|]. split; [done|].
    split; [left; by apply holds_Some|].
    split; [right; by apply holds_Some|exact Hall].
  - unfold bounds. intros (_ & _ & _ & _ & _ & Hb & _) Hy.
    destruct mn as [a|], mx as [b|]; try done; [|by apply Hb in Hy].
    destruct Hb as (_ & _ & _ & _ & _ & Hall). exists a, b.
    split; [done|]. split; [done|].
    split; [left; by apply holds_Some|].
    split; [right; left; by apply holds_Some|exact Hall].
Qed.

(** X15.  On the universes 2, 4, 16 and 256, after [VEBTree(u)] and
    [insert] of each of [xs] (values below [u]), [member(y)] returns, and
    returns [True] exactly when [y] is one of the inserted values. *)
Theorem member_after_inserts u xs y nxt :
  u ∈ [2; 4; 16; 256] →
  Forall (λ x, cpython_int x ∧ 0 ≤ ival x < u) xs →
  cpython_int y → 0 ≤ ival y < u →
  run (t ← veb_of u xs; VEBTree.member t y) nxt
  = Ok (bool_decide (ival y ∈ ival <$> xs)).
Proof.
  intros Hu Hxs Hcy Hy.
  assert (Hk : ∃ k, (k ≤ 3)%nat ∧ u = universe k).
  { repeat (apply elem_of_cons in Hu as [->|Hu]).
    - exists 0%nat. split; [lia|reflexivity].
    - exists 1%nat. split; [lia|reflexivity].
    - exists 2%nat. split; [lia|reflexivity].
    - exists 3%nat. split; [lia|reflexivity].
    - by apply elem_of_nil in Hu. }
  destruct Hk as (k & Hk & ->).
  assert (Hk4 : (k ≤ 4)%nat) by lia.
  destruct (veb_of_spec k xs nxt Hk4 Hxs) as (t & n1 & Ht & Hw & Hh).
  destruct (member_spec k Hk4 t y n1 Hw Hcy Hy) as (b & n2 & Hm & Hs & Hc).
  unfold run. bind_step Ht. rewrite Hm. f_equal.
  pose proof (universe_small k Hk) as Hsm.
  case_bool_decide as Hin.
  - apply Hc; [exact Hsm|]. by apply Hh.
  - destruct b; [|reflexivity]. exfalso. apply Hin, Hh, Hs. reflexivity.
Qed.

Lemma member_after_inserts_witness :
  16 ∈ [2; 4; 16; 256] ∧
  Forall (λ x, cpython_int x ∧ 0 ≤ ival x < 16)
    (map (λ v, pyobj v 2) [2; 3; 4; 5; 7; 10]) ∧
  cpython_int (pyobj 7 9) ∧ 0 ≤ ival (pyobj 7 9) < 16 ∧
  run (t ← veb_of 16 (map (λ v, pyobj v 2) [2; 3; 4; 5; 7; 10]);
       VEBTree.member t (pyobj 7 9)) 3
  = Ok (bool_decide (ival (pyobj 7 9)
                     ∈ ival <$> map (λ v, pyobj v 2) [2; 3; 4; 5; 7; 10])).
Proof.
  assert (H1 : 16 ∈ [2; 4; 16; 256]) by (apply (bool_decide_unpack _); by vm_compute).
  assert (H2 : Forall (λ x, cpython_int x ∧ 0 ≤ ival x < 16)
                 (map (λ v, pyobj v 2) [2; 3; 4; 5; 7; 10])).
  { repeat (apply Forall_cons; split;
              [split; [intros _; reflexivity|simpl; lia]|]).
    apply Forall_nil. done. }
  assert (H3 : cpython_int (pyobj 7 9)) by (intros _; reflexivity).
  assert (H4 : 0 ≤ ival (pyobj 7 9) < 16) by (simpl; lia).
  split; [exact H1|]. split; [exact H2|]. split; [exact H3|].
  split; [exact H4|].
  exact (member_after_inserts 16 _ (pyobj 7 9) 3 H1 H2 H3 H4).
Defined.

(** X16.  On the universes 2, 4, 16, 256 and 65536, [insert] of values below
    [u] never raises, and after [VEBTree(u)] and [insert] of each of a
    non-empty [xs], [minimum()] and [maximum()] are the least and the
    greatest of the inserted values. *)
Theorem minimum_maximum_after_inserts u xs nxt :
  u ∈ [2; 4; 16; 256; 65536] →
  Forall (λ x, cpython_int x ∧ 0 ≤ ival x < u) xs →
  xs ≠ [] →
  ∃ a b,
    run (t ← veb_of u xs;
         mret (ival <$> VEBTree.minimum t, ival <$> VEBTree.maximum t)) nxt
    = Ok (Some a, Some b) ∧
    a ∈ ival <$> xs ∧ b ∈ ival <$> xs ∧
    ∀ v, v ∈ ival <$> xs → a ≤ v ≤ b.
Proof.
  intros Hu Hxs Hne.
  destruct (universe_of u Hu) as (k & Hk & ->).
  destruct (veb_of_spec k xs nxt Hk Hxs) as (t & n1 & Ht & Hw & Hh).
  destruct xs as [|x0 xs0]; [done|].
  assert (H0 : has k t (ival x0)).
  { apply Hh. rewrite fmap_cons. apply elem_of_cons. by left. }
  destruct (min_max_spec k t _ Hw H0) as (a & b & Hmin & Hmax & Ha & Hb & Hall).
  exists (ival a), (ival b). split; [|split; [|split]].
  - unfold run. bind_step Ht. rewrite Hmin, Hmax. reflexivity.
  - by apply Hh.
  - by apply Hh.
  - intros v Hv. apply Hall, Hh, Hv.
Qed.

Lemma minimum_maximum_after_inserts_witness :
  65536 ∈ [2; 4; 16; 256; 65536] ∧
  Forall (λ x, cpython_int x ∧ 0 ≤ ival x < 65536)
    [pyobj 1000 2; pyobj 7 3; pyobj 40000 4] ∧
  [pyobj 1000 2; pyobj 7 3; pyobj 40000 4] ≠ [] ∧
  ∃ a b,
    run (t ← veb_of 65536 [pyobj 1000 2; pyobj 7 3; pyobj 40000 4];
         mret (ival <$> VEBTree.minimum t, ival <$> VEBTree.maximum t)) 5
    = Ok (Some a, Some b) ∧
    a ∈ ival <$> [pyobj 1000 2; pyobj 7 3; pyobj 40000 4] ∧
    b ∈ ival <$> [pyobj 1000 2; pyobj 7 3; pyobj 40000 4] ∧
    ∀ v, v ∈ ival <$> [pyobj 1000 2; pyobj 7 3; pyobj 40000 4] → a ≤ v ≤ b.
Proof.
  assert (H1 : 65536 ∈ [2; 4; 16; 256; 65536])
    by (apply (bool_decide_unpack _); by vm_compute).
  assert (H2 : Forall (λ x, cpython_int x ∧ 0 ≤ ival x < 65536)
                 [pyobj 1000 2; pyobj 7 3; pyobj 40000 4]).
  { repeat (apply Forall_cons; split;
              [split; [intros H; simpl in H; try discriminate; reflexivity
                      |simpl; lia]|]).
    apply Forall_nil. done. }
  assert (H3 : [pyobj 1000 2; pyobj 7 3; pyobj 40000 4] ≠ []) by discriminate.
  split; [exact H1|]. split; [exact H2|]. split; [exact H3|].
  exact (minimum_maximum_after_inserts 65536 _ 5 H1 H2 H3).
Defined.

(** X17.  On the universes 2, 4, 16, 256 and 65536, [member] returns, and
    never returns [True] for a value that was not inserted. *)
Theorem member_only_finds_inserted u xs y nxt :
  u ∈ [2; 4; 16; 256; 65536] →
  Forall (λ x, cpython_int x ∧ 0 ≤ ival x < u) xs →
  cpython_int y → 0 ≤ ival y < u →
  ∃ b, run (t ← veb_of u xs; VEBTree.member t y) nxt = Ok b ∧
       (b = true → ival y ∈ ival <$> xs).
Proof.
  intros Hu Hxs Hcy Hy.
  destruct (universe_of u Hu) as (k & Hk & ->).
  destruct (veb_of_spec k xs nxt Hk Hxs) as (t & n1 & Ht & Hw & Hh).
  destruct (member_spec k Hk t y n1 Hw Hcy Hy) as (b & n2 & Hm & Hs & _).
  exists b. split.
  - unfold run. bind_step Ht. rewrite Hm. reflexivity.
  - intros Hb. apply Hh, Hs, Hb.
Qed.

Lemma member_only_finds_inserted_witness :
  65536 ∈ [2; 4; 16; 256; 65536] ∧
  Forall (λ x, cpython_int x ∧ 0 ≤ ival x < 65536) [pyobj 1000 2] ∧
  cpython_int (pyobj 1000 3) ∧ 0 ≤ ival (pyobj 1000 3) < 65536 ∧
  ∃ b, run (t ← veb_of 65536 [pyobj 1000 2]; VEBTree.member t (pyobj 1000 3)) 4
       = Ok b ∧
       (b = true → ival (pyobj 1000 3) ∈ ival <$> [pyobj 1000 2]).
Proof.
  assert (H1 : 65536 ∈ [2; 4; 16; 256; 65536])
    by (apply (bool_decide_unpack _); by vm_compute).
  assert (H2 : Forall (λ x, cpython_int x ∧ 0 ≤ ival x < 65536) [pyobj 1000 2]).
  { apply Forall_cons. split; [|by apply Forall_nil].
    split; [intros H; simpl in H; discriminate|simpl; lia]. }
  assert (H3 : cpython_int (pyobj 1000 3)) by (intros H; simpl in H; discriminate).
  assert (H4 : 0 ≤ ival (pyobj 1000 3) < 65536) by (simpl; lia).
  split; [exact H1|]. split; [exact H2|]. split; [exact H3|].
  split; [exact H4|].
  exact (member_only_finds_inserted 65536 _ (pyobj 1000 3) 4 H1 H2 H3 H4).
Defined.

(** X18.  On the universes 4, 16, 256 and 65536, after [VEBTree(u)] and
    [insert] of each of [xs], the root's [summary] has [i] as a member
    exactly when [cluster[i]] is not empty. *)
Theorem summary_tracks_clusters u xs nxt i a n :
  u ∈ [4; 16; 256; 65536] →
  Forall (λ x, cpython_int x ∧ 0 ≤ ival x < u) xs →
  0 ≤ i < Z.sqrt u →
  ∃ mn mx s cl c,
    run (veb_of u xs) nxt = Ok (Node u (Z.sqrt u) mn mx s cl) ∧
    cl !! Z.to_nat i = Some c ∧
    run (VEBTree.member s (pyobj i a)) n
    = Ok (match VEBTree.minimum c with Some _ => true | None => false end).
Proof.
  intros Hu Hxs Hi.
  assert (Hk : ∃ k, (k ≤ 3)%nat ∧ u = universe (S k)).
  { repeat (apply elem_of_cons in Hu as [->|Hu]).
    - exists 0%nat. split; [lia|reflexivity].
    - exists 1%nat. split; [lia|reflexivity].
    - exists 2%nat. split; [lia|reflexivity].
    - exists 3%nat. split; [lia|reflexivity].
    - by apply elem_of_nil in Hu. }
  destruct Hk as (k & Hk & ->). rewrite sqrt_universe in *.
  assert (Hk4 : (S k ≤ 4)%nat) by lia.
  destruct (veb_of_spec (S k) xs nxt Hk4 Hxs) as (t' & n1 & Ht' & Hw & _).
  destruct t' as [|u ru mn mx s cl]; [destruct Hw|]. cbn [wf] in Hw.
  destruct Hw as (Hu' & Hru & Hs & Hlen & Hcl & _ & _ & Hsum). subst u ru.
  destruct (lookup_lt_is_Some_2 cl (Z.to_nat i)) as [c Hc]; [lia|].
  exists mn, mx, s, cl, c.
  split; [unfold run; rewrite Ht'; reflexivity|]. split; [exact Hc|].
  destruct (pyobj_cpython i a) as [Hcp Hv].
  assert (Hk' : (k ≤ 4)%nat) by lia.
  assert (Hr : 0 ≤ ival (pyobj i a) < universe k) by (rewrite Hv; exact Hi).
  destruct (member_spec k Hk' s (pyobj i a) n Hs Hcp Hr)
    as (b & n2 & Hm & Hsound & Hcompl).
  unfold run. rewrite Hm. f_equal. rewrite Hv in Hsound, Hcompl.
  pose proof (universe_small k Hk) as Hsm.
  destruct (VEBTree.minimum c) as [mc|] eqn:Emin.
  - apply Hcompl; [exact Hsm|]. apply Hsum. split; [lia|].
    exists c. split; [exact Hc|]. rewrite Emin. discriminate.
  - destruct b; [|reflexivity]. exfalso.
    specialize (Hsound eq_refl). apply Hsum in Hsound.
    destruct Hsound as (_ & c0 & Hc0 & Hm0). simplify_eq.
Qed.

Lemma summary_tracks_clusters_witness :
  16 ∈ [4; 16; 256; 65536] ∧
  Forall (λ x, cpython_int x ∧ 0 ≤ ival x < 16)
    (map (λ v, pyobj v 2) [2; 3; 4; 5; 7; 10]) ∧
  0 ≤ 3 < Z.sqrt 16 ∧
  ∃ mn mx s cl c,
    run (veb_of 16 (map (λ v, pyobj v 2) [2; 3; 4; 5; 7; 10])) 3
    = Ok (Node 16 (Z.sqrt 16) mn mx s cl) ∧
    cl !! Z.to_nat 3 = Some c ∧
    run (VEBTree.member s (pyobj 3 9)) 9
    = Ok (match VEBTree.minimum c with Some _ => true | None => false end).
Proof.
  assert (H1 : 16 ∈ [4; 16; 256; 65536])
    by (apply (bool_decide_unpack _); by vm_compute).
  assert (H2 : Forall (λ x, cpython_int x ∧ 0 ≤ ival x < 16)
                 (map (λ v, pyobj v 2) [2; 3; 4; 5; 7; 10])).
  { repeat (apply Forall_cons; split;
              [split; [intros _; reflexivity|simpl; lia]|]).
    apply Forall_nil. done. }
  assert (H3 : 0 ≤ 3 < Z.sqrt 16) by (change (Z.sqrt 16) with 4; lia).
  split; [exact H1|]. split; [exact H2|]. split; [exact H3|].
  exact (summary_tracks_clusters 16 _ 3 3 9 9 H1 H2 H3).
Defined.

(** ** The minimum after [extract_min], and [FibHeap.delete] *)

(** Once [min] is a smallest root, the reforming pass keeps it one. *)
Lemma reforming_pass_min vals s h L :
  ring s (start (roots h)) L → min_ok s h L → L ≠ [] → NoDup (L ++ vals) →
  ∃ s' h', FibHeap.reforming_pass s h vals = Ok (s', h') ∧
        ring s' (start (roots h')) (L ++ vals) ∧
        min_ok s' h' (L ++ vals).
Proof.
  revert s h L. induction vals as [|item rest IH]; intros s h L Hring Hmin HL Hnd.
  - exists s, h. split; [reflexivity|]. rewrite app_nil_r. by split.
  - assert (Hitem : item ∉ L).
    { apply NoDup_app in Hnd as (_ & Hd & _). intros Hin.
      apply (Hd _ Hin), list_elem_of_here. }
    destruct (heap_insert_min s h L item Hring Hitem Hmin)
      as (s1 & h1 & Hi & Hring1 & _ & Hmin1 & _ & _).
    assert (Hm : ∃ m, min h = Some m).
    { destruct L as [|a l]; [done|]. destruct Hmin as (m & Hm & _). by exists m. }
    destruct Hm as [m Hm].
    cbn [FibHeap.reforming_pass]. rewrite Hm, Hi. cbn [mbind res_bind].
    destruct (IH s1 (mkFibHeap (roots h1) (n h1 - 1) (min h1)) (L ++ [item]))
      as (s' & h' & Hr & Hring' & Hmin').
    + exact Hring1.
    + exact Hmin1.
    + by destruct L.
    + by rewrite <- app_assoc.
    + exists s', h'. split; [exact Hr|]. rewrite <- app_assoc in Hring', Hmin'.
      by split.
Qed.

Lemma reforming_pass_fresh_min vals s h :
  min h = None → NoDup vals → vals ≠ [] →
  ∃ s' h', FibHeap.reforming_pass s h vals = Ok (s', h') ∧
        ring s' (start (roots h')) vals ∧ min_ok s' h' vals.
Proof.
  intros Hmin Hnd Hne. destruct vals as [|item rest]; [done|].
  cbn [FibHeap.reforming_pass]. rewrite Hmin.
  destruct (init_singleton s item) as (s1 & Hi & Hring1 & _ & _).
  rewrite Hi.
  apply (reforming_pass_min rest s1
           (mkFibHeap (mkCircularDLL (Some item) (Some item)) (n h) (Some item))
           [item]); [exact Hring1| |done|exact Hnd].
  exists item. split; [reflexivity|]. split; [apply list_elem_of_here|].
  intros r Hr. apply list_elem_of_singleton in Hr. subst r. apply key_le_refl.
Qed.

Lemma consolidate_min fuel s h s' h' :
  FibHeap.consolidate fuel s h = Ok (s', h') → start (roots h) ≠ None →
  ∃ L, L ≠ [] ∧ ring s' (start (roots h')) L ∧ min_ok s' h' L.
Proof.
  unfold FibHeap.consolidate. intros H Hst.
  destruct (CircularDLL.items fuel s (roots h)) as [its| |] eqn:Hits;
    simpl in H; [|done..].
  apply items_nonempty in Hits; [|done].
  destruct (FibHeap.bunching_pass fuel s [] its) as [[s1 d]| |] eqn:Hb;
    simpl in H; [|done..].
  destruct (bunching_pass_ok _ _ _ _ _ _ (dict_ok_nil s) Hb) as [Hok Hne].
  specialize (Hne Hits).
  assert (Hv : dict_values d ≠ []) by (unfold dict_values; by destruct d).
  destruct (reforming_pass_fresh_min (dict_values d) s1
              (mkFibHeap (roots h) (n h) None))
    as (s2 & h2 & Hr & Hring & Hmin); [done|by eapply dict_ok_values|exact Hv|].
  rewrite Hr in H. injection H as <- <-.
  exists (dict_values d). by split.
Qed.

(** X19.  Whenever [extract_min] returns on a heap that had a minimum, the
    root list it leaves is a well-formed ring and [min] is again a root with
    the smallest key among the roots ([None] when no root is left). *)
Theorem extract_min_sets_min fuel s h z s' h' :
  FibHeap.extract_min fuel s h = Ok (z, s', h') → min h ≠ None →
  ∃ L, ring s' (start (roots h')) L ∧ min_ok s' h' L.
Proof.
  unfold FibHeap.extract_min. intros H Hmin.
  destruct (min h) as [cm|]; [clear Hmin|done].
  match type of H with (?m ≫= _) = _ => destruct m as [[s1 r1]| |] eqn:H1 end;
    simpl in H; [|done..].
  destruct (CircularDLL.delete s1 r1 cm) as [[s2 r2]| |] eqn:H2;
    simpl in H; [|done..].
  destruct (start r2) as [st|] eqn:Hst.
  - destruct (FibHeap.consolidate fuel s2 _) as [[s3 h3]| |] eqn:Hc;
      simpl in H; [|done..].
    injection H as <- <- <-.
    apply consolidate_min in Hc as (L & _ & Hring & Hm); [|simpl; congruence].
    by exists L.
  - injection H as <- <- <-. exists []. simpl. by rewrite Hst.
Qed.

Lemma extract_min_sets_min_witness :
  FibHeap.extract_min 5 heap5.1 heap5.2 = Ok heap5_extracted ∧
  min heap5.2 ≠ None ∧
  ∃ L, ring heap5_extracted.1.2 (start (roots heap5_extracted.2)) L ∧
       min_ok heap5_extracted.1.2 heap5_extracted.2 L.
Proof.
  assert (H1 : FibHeap.extract_min 5 heap5.1 heap5.2 = Ok heap5_extracted)
    by (apply ok_get_ok; vm_compute; reflexivity).
  assert (H2 : min heap5.2 ≠ None) by (vm_compute; discriminate).
  split; [exact H1|]. split; [exact H2|].
  destruct heap5_extracted as [[z s'] h'].
  exact (extract_min_sets_min 5 heap5.1 heap5.2 z s' h' H1 H2).
Defined.

(** [cut] leaves [min] and [n] alone. *)
Lemma cut_min_n fuel s h item s' h' :
  FibHeap.cut fuel s h item = Ok (s', h') → min h' = min h ∧ n h' = n h.
Proof.
  revert s h item. induction fuel as [|fuel IH]; intros s h item H; simpl in H; [done|].
  destruct (parent (s item)) as [p|]; [|by injection H as <- <-].
  destruct (children (s p)) as [c|]; simpl in H; [|done].
  destruct (CircularDLL.delete s c item) as [[s1 c']| |]; simpl in H; [|done..].
  match type of H with
  | context [CircularDLL.insert ?x _ _] => set (s5 := x) in *
  end.
  destruct (CircularDLL.insert s5 (roots h) item) as [[s6 r6]| |]; simpl in H; [|done..].
  destruct (parent (s6 p)) as [pp|].
  - destruct (marked (s6 p)).
    + by destruct (IH _ _ _ H) as [-> ->].
    + by injection H as <- <-.
  - by injection H as <- <-.
Qed.

(** What [extract_min] returns, and the count. *)
Lemma extract_min_result fuel s h z s' h' :
  FibHeap.extract_min fuel s h = Ok (z, s', h') →
  z = min h ∧ (min h ≠ None → n h' = n h - 1).
Proof.
  unfold FibHeap.extract_min. destruct (min h) as [cm|]; [|by intros [= <- <- <-]].
  intros H.
  match type of H with (?m ≫= _) = _ => destruct m as [[s1 r1]| |] end;
    simpl in H; [|done..].
  destruct (CircularDLL.delete s1 r1 cm) as [[s2 r2]| |]; simpl in H; [|done..].
  destruct (start r2) as [st|].
  - destruct (FibHeap.consolidate fuel s2 _) as [[s3 h3]| |] eqn:Hc; simpl in H; [|done..].
    injection H as <- <- <-. split; [done|]. intros _.
    unfold FibHeap.consolidate in Hc.
    destruct (CircularDLL.items fuel s2 _) as [its| |]; simpl in Hc; [|done..].
    destruct (FibHeap.bunching_pass fuel s2 [] its) as [[s4 d]| |]; simpl in Hc; [|done..].
    by rewrite (reforming_pass_n _ _ _ _ _ Hc).
  - by injection H as <- <- <-.
Qed.

(** X20.  [FibHeap.delete] returns only on a heap that has a minimum, and
    what its [extract_min] takes out is the item given unless the key of
    the minimum is already minus infinity: then it is the minimum that is
    taken out.  Either way the count drops by one, the item ends with key
    minus infinity and no other key is written. *)
Theorem heap_delete_removes fuel s h item z s' h' :
  FibHeap.delete fuel s h item = Ok (z, s', h') →
  ∃ m, min h = Some m ∧
       z = Some (match key (s m) with NegInf => m | Num _ => item end) ∧
       n h' = n h - 1 ∧
       key (s' item) = NegInf ∧
       (∀ r, r ≠ item → key (s' r) = key (s r)).
Proof.
  unfold FibHeap.delete. intros H.
  destruct (FibHeap.decrease_key fuel s h item NegInf) as [[s1 h1]| |] eqn:Hd;
    simpl in H; [|done..].
  destruct (decrease_key_order _ _ _ _ _ _ _ Hd) as (_ & Kitem & _ & Kother & _).
  assert (Hm : ∃ m, min h = Some m ∧ n h1 = n h ∧
                 min h1 = Some (if key_lt (key (s1 item)) (key (s1 m))
                                then item else m)).
  { unfold FibHeap.decrease_key in Hd. simpl in Hd.
    match type of Hd with (?m ≫= _) = _ => destruct m as [[s2 h2]| |] eqn:Hc end;
      simpl in Hd; [|done..].
    assert (H2 : min h2 = min h ∧ n h2 = n h).
    { destruct (parent _) as [p|].
      - destruct (key_lt _ _).
        + by apply cut_min_n in Hc.
        + by injection Hc as <- <-.
      - by injection Hc as <- <-. }
    destruct H2 as [Hmin2 Hn2]. rewrite <- Hmin2, <- Hn2.
    destruct (min h2) as [m|] eqn:E; simpl in Hd; [|done]. exists m.
    destruct (key_lt (key (s2 item)) (key (s2 m))) eqn:Hlt;
      injection Hd as <- <-; rewrite Hlt; [done|]. by rewrite E. }
  destruct Hm as (m & Hmin & Hn1 & Hmin1).
  destruct (extract_min_result _ _ _ _ _ _ H) as [Hz Hn].
  pose proof (extract_min_same_keys _ _ _ _ _ _ H) as Hk.
  exists m. split; [exact Hmin|]. split; [|split; [|split]].
  - rewrite Hz, Hmin1, Kitem. destruct (decide (m = item)) as [->|Hne].
    + rewrite Kitem. simpl. by destruct (key (s item)).
    + rewrite (Kother m Hne). by destruct (key (s m)).
  - rewrite Hn, Hn1; [done|]. by rewrite Hmin1.
  - destruct (Hk item) as [-> _]. exact Kitem.
  - intros r Hr. destruct (Hk r) as [-> _]. by apply Kother.
Qed.

Lemma heap_delete_removes_witness :
  FibHeap.delete 5 heap5.1 heap5.2 3%positive = Ok heap5_deleted ∧
  ∃ m, min heap5.2 = Some m ∧
       heap5_deleted.1.1
       = Some (match key (heap5.1 m) with NegInf => m | Num _ => 3%positive end) ∧
       n heap5_deleted.2 = n heap5.2 - 1 ∧
       key (heap5_deleted.1.2 3%positive) = NegInf ∧
       (∀ r, r ≠ 3%positive → key (heap5_deleted.1.2 r) = key (heap5.1 r)).
Proof.
  assert (H1 : FibHeap.delete 5 heap5.1 heap5.2 3%positive = Ok heap5_deleted)
    by (apply ok_get_ok; vm_compute; reflexivity).
  split; [exact H1|].
  destruct heap5_deleted as [[z s'] h'].
  exact (heap_delete_removes 5 heap5.1 heap5.2 3%positive z s' h' H1).
Defined.

(** ** The unused [cut2] and [cascading_cut] *)

Lemma cut2_spec s h x y s' h' :
  FibHeap.cut2 s h x y = Ok (s', h') →
  (∀ r, marked (s' r) = if decide (r = x) then false else marked (s r)) ∧
  same_keys s s' ∧ min h' = min h ∧ n h' = n h.
Proof.
  unfold FibHeap.cut2. intros H.
  destruct (children (s y)) as [c|]; simpl in H; [|done].
  destruct (CircularDLL.delete s c x) as [[s1 c']| |] eqn:Hd; simpl in H; [|done..].
  pose proof (delete_same_data _ _ _ _ _ Hd) as Hsd1.
  match type of H with
  | context [CircularDLL.insert ?a _ _] => set (s3 := a) in *
  end.
  destruct (CircularDLL.insert s3 (roots h) x) as [[s4 r]| |] eqn:Hi; simpl in H; [|done..].
  pose proof (insert_same_data _ _ _ _ _ Hi) as Hsd4.
  injection H as <- <-. split; [|split; [|done]].
  - intros r0. destruct (Hsd4 r0) as (_&_&_&_&Hm4&_). destruct (Hsd1 r0) as (_&_&_&_&Hm1&_).
    revert Hm4. unfold s3. upd_cases.
  - intros r0. destruct (Hsd4 r0) as (Hk4&Hp4&_). destruct (Hsd1 r0) as (Hk1&Hp1&_).
    revert Hk4 Hp4. unfold s3. split; upd_cases.
Qed.

(** X21.  [cascading_cut] never marks an item: on an item without a parent
    or without a mark it changes nothing (the statement [y.marked == True]
    is a comparison), and otherwise it only clears marks.  It writes no key
    or payload and leaves [min] and [n] alone. *)
Theorem cascading_cut_never_marks fuel s h y s' h' :
  FibHeap.cascading_cut fuel s h y = Ok (s', h') →
  (∀ r, marked (s' r) = true → marked (s r) = true) ∧
  same_keys s s' ∧ min h' = min h ∧ n h' = n h ∧
  (parent (s y) = None ∨ marked (s y) = false → s' = s ∧ h' = h).
Proof.
  revert s h y. induction fuel as [|fuel IH]; intros s h y H; simpl in H; [done|].
  destruct (parent (s y)) as [z|] eqn:Hp.
  2:{ injection H as <- <-. split; [done|]. split; [apply same_keys_refl|]. done. }
  destruct (marked (s y)) eqn:Hm; simpl in H.
  2:{ injection H as <- <-. split; [done|]. split; [apply same_keys_refl|]. done. }
  destruct (FibHeap.cut2 s h y z) as [[s1 h1]| |] eqn:Hc; simpl in H; [|done..].
  destruct (cut2_spec _ _ _ _ _ _ Hc) as (M1 & K1 & Hmin1 & Hn1).
  destruct (IH _ _ _ H) as (M2 & K2 & Hmin2 & Hn2 & _).
  split; [|split; [|split; [|split]]].
  - intros r Hr. apply M2 in Hr. rewrite M1 in Hr. by case_decide.
  - by eapply same_keys_trans.
  - congruence.
  - congruence.
  - intros [?|?]; congruence.
Qed.

Lemma cascading_cut_never_marks_witness :
  FibHeap.cascading_cut 5 heap5_decreased.1 heap5_decreased.2 4%positive
  = Ok heap5_cascaded ∧
  (∀ r, marked (heap5_cascaded.1 r) = true → marked (heap5_decreased.1 r) = true) ∧
  same_keys heap5_decreased.1 heap5_cascaded.1 ∧
  min heap5_cascaded.2 = min heap5_decreased.2 ∧
  n heap5_cascaded.2 = n heap5_decreased.2 ∧
  (parent (heap5_decreased.1 4%positive) = None
   ∨ marked (heap5_decreased.1 4%positive) = false →
   heap5_cascaded.1 = heap5_decreased.1 ∧ heap5_cascaded.2 = heap5_decreased.2).
Proof.
  assert (H1 : FibHeap.cascading_cut 5 heap5_decreased.1 heap5_decreased.2 4%positive
               = Ok heap5_cascaded)
    by (apply ok_get_ok; vm_compute; reflexivity).
  split; [exact H1|].
  destruct heap5_cascaded as [s' h'].
  exact (cascading_cut_never_marks 5 _ _ 4%positive s' h' H1).
Defined.

(** ** [successor] is right whenever it returns *)

Lemma alloc_bind_raise {A B} (m : alloc A) (f : A → alloc B) nxt e :
  m nxt = Raise e → (m ≫= f) nxt = Raise e.
Proof. intros H. unfold mbind, alloc_bind. rewrite H. reflexivity. Qed.

Lemma successor_at_spec (cl : list VEBTree) (i : nat) (l : pyint) nxt :
  (fix at_ (cl : list VEBTree) (i : nat) {struct cl} : alloc (option pyint) :=
     match cl, i with
     | [], _ => raise IndexError
     | c :: _, O => VEBTree.successor c l
     | _ :: cl', S i' => at_ cl' i'
     end) cl i nxt =
  match cl !! i with
  | Some c => VEBTree.successor c l nxt
  | None => Raise IndexError
  end.
Proof.
  revert i. induction cl as [|c cl IH]; intros i; [reflexivity|].
  destruct i as [|i]; [reflexivity|]. cbn [lookup list_lookup]. apply IH.
Qed.

Lemma successor_base mn mx x nxt :
  wf 0 (Base mn mx) → 0 ≤ ival x < 2 →
  ∃ r, VEBTree.successor (Base mn mx) x nxt = Ok (r, nxt) ∧
       is_succ (has 0 (Base mn mx)) (ival x) (ival <$> r).
Proof.
  cbn [wf has VEBTree.successor]. unfold bounds. intros Hb Hx.
  destruct mn as [a|], mx as [b|]; [|destruct Hb|destruct Hb|].
  - destruct Hb as (_ & _ & Ha0 & Hab & Hb2 & Hall).
    destruct ((ival x =? 0) && (ival b =? 1)) eqn:E.
    + apply andb_true_iff in E as [E1 E2]. apply Z.eqb_eq in E1, E2.
      eexists. split; [reflexivity|]. cbn [fmap option_fmap option_map ival is_succ].
      split; [right; apply holds_Some; lia|]. split; [lia|]. intros y _ Hy. lia.
    + eexists. split; [reflexivity|]. cbn [fmap option_fmap option_map is_succ].
      intros y Hy. specialize (Hall y Hy).
      apply andb_false_iff in E as [E|E]; apply Z.eqb_neq in E; lia.
  - rewrite andb_false_r. eexists. split; [reflexivity|].
    cbn [fmap option_fmap option_map is_succ]. intros y Hy. by apply Hb in Hy.
Qed.

(** [successor] raises nothing but [AttributeError], and what it returns
    is the successor of [x] among the values held. *)
Lemma successor_spec k :
  (k ≤ 4)%nat → ∀ t x nxt,
  wf k t → cpython_int x → 0 ≤ ival x < universe k →
  VEBTree.successor t x nxt = Raise AttributeError ∨
  ∃ r n', VEBTree.successor t x nxt = Ok (r, n') ∧
          is_succ (has k t) (ival x) (ival <$> r) ∧
          (k ≠ 0%nat → r ≠ None → ∀ y, has k t y → ival x < y).
Proof.
  induction k as [|k IH]; intros Hk t x nxt Hwf Hcx Hx.
  { destruct t as [mn mx|]; [|destruct Hwf].
    destruct (successor_base mn mx x nxt Hwf Hx) as (r & H1 & H2).
    right. exists r, nxt. split; [exact H1|]. split; [exact H2|]. done. }
  destruct t as [|u ru mn mx s cl]; [destruct Hwf|].
  assert (Hk' : (k ≤ 4)%nat) by lia. specialize (IH Hk').
  pose proof Hwf as Hwf0.
  cbn [wf] in Hwf.
  destruct Hwf as (Hu & Hru & Hs & Hlen & Hcl & Hb & Hmx & Hsum).
  pose proof (universe_ge k) as Hge.
  assert (He : exact_universe u ru) by (subst u ru; apply exact_universes; lia).
  rewrite <- Hu in Hx.
  assert (Huru : u = ru * ru) by (subst u ru; reflexivity).
  rewrite <- Hru in Hge.
  cbn [VEBTree.successor].
  destruct (match mn with Some m => ival x <? ival m | None => false end) eqn:Etest.
  { destruct mn as [m|]; [|done]. apply Z.ltb_lt in Etest.
    unfold bounds in Hb. destruct mx as [b|]; [|destruct Hb].
    destruct Hb as (_ & _ & _ & _ & _ & Hall).
    right. exists (Some m), nxt. split; [reflexivity|].
    cbn [fmap option_fmap option_map is_succ has]. split.
    - split; [left; by apply holds_Some|]. split; [exact Etest|].
      intros y Hy _. apply (Hall y Hy).
    - intros _ _ y Hy. specialize (Hall y Hy). lia. }
  assert (Hmin : ∀ y, holds mn y → y ≤ ival x).
  { intros y (m & -> & <-). apply Z.ltb_ge in Etest. exact Etest. }
  clear Etest.
  assert (Hh : 0 ≤ ival x / ru < ru).
  { split; [apply Z.div_pos; lia|apply Z.div_lt_upper_bound; lia]. }
  assert (Hl : 0 ≤ ival x mod ru < ru) by (apply Z.mod_pos_bound; lia).
  destruct (lookup_lt_is_Some_2 cl (Z.to_nat (ival x / ru))) as [c Hc]; [lia|].
  assert (Hwc : wf k c) by (eapply Forall_lookup_1; eassumption).
  destruct (high_obj_spec u ru x nxt He Hx) as (h1 & n1 & Hh1 & Hv1 & Hc1).
  bind_step Hh1.
  assert (Hi1 : lift (py_index (length cl) (ival h1)) n1
                = Ok (Z.to_nat (ival x / ru), n1)).
  { apply lift_ok. rewrite Hv1. apply py_index_ok. lia. }
  bind_step Hi1. rewrite Hc.
  assert (Hl1 : lift (Ok c) n1 = Ok (c, n1)) by reflexivity.
  bind_step Hl1.
  destruct (low_obj_spec u ru x n1 He Hx) as (lw & n2 & Hlw & Hvlw & Hclw).
  bind_step Hlw.
  destruct (match VEBTree.maximum c with
            | Some m => ival lw <? ival m | None => false end) eqn:Etest.
  { (* the successor is in the same cluster *)
    destruct (high_obj_spec u ru x n2 He Hx) as (h2 & n3 & Hh2 & Hv2 & Hc2).
    bind_step Hh2.
    assert (Hi2 : lift (py_index (length cl) (ival h2)) n3
                  = Ok (Z.to_nat (ival x / ru), n3)).
    { apply lift_ok. rewrite Hv2. apply py_index_ok. lia. }
    bind_step Hi2.
    destruct (low_obj_spec u ru x n3 He Hx) as (lw' & n4 & Hlw' & Hvlw' & Hclw').
    bind_step Hlw'.
    assert (Hr' : 0 ≤ ival lw' < universe k) by lia.
    left.
    destruct (IH c lw' n4 Hwc Hclw' Hr') as [Hrec|(r & n5 & Hrec & _)].
    - apply alloc_bind_raise. rewrite successor_at_spec, Hc. exact Hrec.
    - rewrite (alloc_bind_ok _ _ n4 r n5); [reflexivity|].
      rewrite successor_at_spec, Hc. exact Hrec. }
  (* the successor, if any, is in a later cluster *)
  assert (Hcl0 : ∀ y, has k c y → y ≤ ival x mod ru).
  { intros y Hy. destruct (min_max_spec k c y Hwc Hy) as (a & b & _ & Hmaxc & _ & _ & Hall).
    rewrite Hmaxc in Etest. apply Z.ltb_ge in Etest. specialize (Hall y Hy). lia. }
  clear Etest.
  destruct (high_obj_spec u ru x n2 He Hx) as (h2 & n3 & Hh2 & Hv2 & Hc2).
  bind_step Hh2.
  assert (Hr2 : 0 ≤ ival h2 < universe k) by lia.
  destruct (IH s h2 n3 Hs Hc2 Hr2) as [Hrec|(r & n4 & Hrec & Hsucc & _)].
  { left. apply alloc_bind_raise. exact Hrec. }
  bind_step Hrec. rewrite Hv2 in Hsucc.
  destruct r as [sc|]; cbn [fmap option_fmap option_map is_succ] in Hsucc.
  - (* a later cluster is not empty *)
    left. destruct Hsucc as (Hsc & _ & _).
    pose proof (has_range k s _ Hs Hsc) as Hrsc.
    assert (Hi3 : lift (py_index (length cl) (ival sc)) n4
                  = Ok (Z.to_nat (ival sc), n4)).
    { apply lift_ok. apply py_index_ok. lia. }
    bind_step Hi3.
    destruct (lookup_lt_is_Some_2 cl (Z.to_nat (ival sc))) as [c' Hc']; [lia|].
    rewrite Hc'. reflexivity.
  - (* no later cluster holds anything *)
    right. exists None, n4. split; [reflexivity|]. split; [|done].
    cbn [fmap option_fmap option_map is_succ has].
    assert (Hic : ∀ y, in_cluster (has k) ru cl y → y ≤ ival x).
    { intros y (Hy0 & cy & Hcy & Hy).
      destruct (Z.lt_trichotomy (y / ru) (ival x / ru)) as [Hlt|[Heq|Hgt]].
      - assert (y < ival x); [|lia].
        apply Z.nle_gt. intros Hle. apply (Z.div_le_mono _ _ ru) in Hle; lia.
      - rewrite Heq, Hc in Hcy. injection Hcy as <-. apply Hcl0 in Hy.
        rewrite (Z.div_mod y ru), (Z.div_mod (ival x) ru) by lia. rewrite Heq. lia.
      - exfalso.
        assert (Hwcy : wf k cy) by (eapply Forall_lookup_1; eassumption).
        assert (Hne : VEBTree.minimum cy ≠ None).
        { apply (has_minimum k cy Hwcy). by eexists. }
        assert (Hs' : has k s (y / ru)).
        { apply Hsum. split; [apply Z.div_pos; lia|]. by exists cy. }
        apply Hsucc in Hs'. lia. }
    intros y [Hy|[Hy|Hy]].
    + by apply Hmin.
    + destruct Hy as (b & -> & <-).
      destruct (Hmx b eq_refl) as [H|H]; [by apply Hmin|by apply Hic].
    + by apply Hic.
Qed.

Lemma is_succ_ext (P Q : Z → Prop) x r :
  (∀ y, P y ↔ Q y) → is_succ P x r → is_succ Q x r.
Proof.
  intros H. destruct r as [v|]; cbn [is_succ].
  - intros (Hv & Hlt & Hall). split; [by apply H|]. split; [exact Hlt|].
    intros y Hy. apply Hall. by apply H.
  - intros Hall y Hy. apply Hall. by apply H.
Qed.

Lemma is_pred_ext (P Q : Z → Prop) x r :
  (∀ y, P y ↔ Q y) → is_pred P x r → is_pred Q x r.
Proof.
  intros H. destruct r as [v|]; cbn [is_pred].
  - intros (Hv & Hlt & Hall). split; [by apply H|]. split; [exact Hlt|].
    intros y Hy. apply Hall. by apply H.
  - intros Hall y Hy. apply Hall. by apply H.
Qed.

(** X22.  On the universes 2, 4, 16, 256 and 65536, after [VEBTree(u)] and
    [insert] of each of [xs], [successor(x)] either raises [AttributeError]
    (at a call of the missing [self.index]) or returns the right answer:
    the least inserted value above [x], [None] when there is none. *)
Theorem successor_right_or_attribute_error u xs x nxt :
  u ∈ [2; 4; 16; 256; 65536] →
  Forall (λ x, cpython_int x ∧ 0 ≤ ival x < u) xs →
  cpython_int x → 0 ≤ ival x < u →
  run (t ← veb_of u xs; VEBTree.successor t x) nxt = Raise AttributeError ∨
  ∃ r, run (t ← veb_of u xs; VEBTree.successor t x) nxt = Ok r ∧
       is_succ (λ y, y ∈ ival <$> xs) (ival x) (ival <$> r).
Proof.
  intros Hu Hxs Hcx Hx.
  destruct (universe_of u Hu) as (k & Hk & ->).
  destruct (veb_of_spec k xs nxt Hk Hxs) as (t & n1 & Ht & Hw & Hh).
  unfold run. bind_step Ht.
  destruct (successor_spec k Hk t x n1 Hw Hcx Hx) as [Hs|(r & n2 & Hs & Hr & _)];
    rewrite Hs.
  - by left.
  - right. exists r. split; [reflexivity|]. by apply (is_succ_ext (has k t)).
Qed.

Lemma successor_right_or_attribute_error_witness :
  16 ∈ [2; 4; 16; 256; 65536] ∧
  Forall (λ x, cpython_int x ∧ 0 ≤ ival x < 16)
    (map (λ v, pyobj v 2) [2; 3; 4; 5; 7; 10]) ∧
  cpython_int (pyobj 1 2) ∧ 0 ≤ ival (pyobj 1 2) < 16 ∧
  (run (t ← veb_of 16 (map (λ v, pyobj v 2) [2; 3; 4; 5; 7; 10]);
        VEBTree.successor t (pyobj 1 2)) 3 = Raise AttributeError ∨
   ∃ r, run (t ← veb_of 16 (map (λ v, pyobj v 2) [2; 3; 4; 5; 7; 10]);
             VEBTree.successor t (pyobj 1 2)) 3 = Ok r ∧
        is_succ (λ y, y ∈ ival <$> map (λ v, pyobj v 2) [2; 3; 4; 5; 7; 10])
          (ival (pyobj 1 2)) (ival <$> r)).
Proof.
  assert (H1 : 16 ∈ [2; 4; 16; 256; 65536])
    by (apply (bool_decide_unpack _); by vm_compute).
  assert (H2 : Forall (λ x, cpython_int x ∧ 0 ≤ ival x < 16)
                 (map (λ v, pyobj v 2) [2; 3; 4; 5; 7; 10])).
  { repeat (apply Forall_cons; split;
              [split; [intros _; reflexivity|simpl; lia]|]).
    apply Forall_nil. done. }
  assert (H3 : cpython_int (pyobj 1 2)) by (intros _; reflexivity).
  assert (H4 : 0 ≤ ival (pyobj 1 2) < 16) by (simpl; lia).
  split; [exact H1|]. split; [exact H2|]. split; [exact H3|].
  split; [exact H4|].
  exact (successor_right_or_attribute_error 16 _ (pyobj 1 2) 3 H1 H2 H3 H4).
Defined.

(** ** [predecessor] *)

Lemma predecessor_at_spec (cl : list VEBTree) (i : nat) (l : pyint) nxt :
  (fix at_ (cl : list VEBTree) (i : nat) {struct cl} : alloc (option pyint) :=
     match cl, i with
     | [], _ => raise IndexError
     | c :: _, O => VEBTree.predecessor c l
     | _ :: cl', S i' => at_ cl' i'
     end) cl i nxt =
  match cl !! i with
  | Some c => VEBTree.predecessor c l nxt
  | None => Raise IndexError
  end.
Proof.
  revert i. induction cl as [|c cl IH]; intros i; [reflexivity|].
  destruct i as [|i]; [reflexivity|]. cbn [lookup list_lookup]. apply IH.
Qed.

Lemma predecessor_base mn mx x nxt :
  wf 0 (Base mn mx) → 0 ≤ ival x < 2 →
  ∃ r, VEBTree.predecessor (Base mn mx) x nxt = Ok (r, nxt) ∧
       is_pred (has 0 (Base mn mx)) (ival x) (ival <$> r).
Proof.
  cbn [wf has VEBTree.predecessor]. unfold bounds. intros Hb Hx.
  destruct mn as [a|], mx as [b|]; [|destruct Hb|destruct Hb|].
  - destruct Hb as (_ & _ & Ha0 & Hab & Hb2 & Hall).
    destruct ((ival a =? 0) && (ival x =? 1)) eqn:E.
    + apply andb_true_iff in E as [E1 E2]. apply Z.eqb_eq in E1, E2.
      eexists. split; [reflexivity|]. cbn [fmap option_fmap option_map ival is_pred].
      split; [left; apply holds_Some; lia|]. split; [lia|]. intros y _ Hy. lia.
    + eexists. split; [reflexivity|]. cbn [fmap option_fmap option_map is_pred].
      intros y Hy. specialize (Hall y Hy).
      apply andb_false_iff in E as [E|E]; apply Z.eqb_neq in E; lia.
  - cbn [andb]. eexists. split; [reflexivity|].
    cbn [fmap option_fmap option_map is_pred]. intros y Hy. by apply Hb in Hy.
Qed.

(** [predecessor] raises nothing but [AttributeError], and what it returns
    is the predecessor of [x] among the values held. *)
Lemma predecessor_spec k :
  (k ≤ 4)%nat → ∀ t x nxt,
  wf k t → cpython_int x → 0 ≤ ival x < universe k →
  VEBTree.predecessor t x nxt = Raise AttributeError ∨
  ∃ r n', VEBTree.predecessor t x nxt = Ok (r, n') ∧
          is_pred (has k t) (ival x) (ival <$> r).
Proof.
  induction k as [|k IH]; intros Hk t x nxt Hwf Hcx Hx.
  { destruct t as [mn mx|]; [|destruct Hwf].
    destruct (predecessor_base mn mx x nxt Hwf Hx) as (r & H1 & H2).
    right. by exists r, nxt. }
  destruct t as [|u ru mn mx s cl]; [destruct Hwf|].
  assert (Hk' : (k ≤ 4)%nat) by lia. specialize (IH Hk').
  cbn [wf] in Hwf.
  destruct Hwf as (Hu & Hru & Hs & Hlen & Hcl & Hb & Hmx & Hsum).
  pose proof (universe_ge k) as Hge.
  assert (He : exact_universe u ru) by (subst u ru; apply exact_universes; lia).
  rewrite <- Hu in Hx.
  assert (Huru : u = ru * ru) by (subst u ru; reflexivity).
  rewrite <- Hru in Hge.
  cbn [VEBTree.predecessor].
  destruct (match mx with Some m => ival m <? ival x | None => false end) eqn:Etest.
  { destruct mx as [b|]; [|done]. apply Z.ltb_lt in Etest.
    right. exists (Some b), nxt. split; [reflexivity|].
    cbn [fmap option_fmap option_map is_pred has].
    split; [right; left; by apply holds_Some|]. split; [exact Etest|].
    intros y Hy _. unfold bounds in Hb. destruct mn as [a|]; [|destruct Hb].
    destruct Hb as (_ & _ & _ & _ & _ & Hall). apply (Hall y Hy). }
  assert (Hmax : ∀ y, holds mx y → ival x ≤ y).
  { intros y (m & -> & <-). apply Z.ltb_ge in Etest. exact Etest. }
  clear Etest.
  assert (Hh : 0 ≤ ival x / ru < ru).
  { split; [apply Z.div_pos; lia|apply Z.div_lt_upper_bound; lia]. }
  assert (Hl : 0 ≤ ival x mod ru < ru) by (apply Z.mod_pos_bound; lia).
  destruct (lookup_lt_is_Some_2 cl (Z.to_nat (ival x / ru))) as [c Hc]; [lia|].
  assert (Hwc : wf k c) by (eapply Forall_lookup_1; eassumption).
  destruct (high_obj_spec u ru x nxt He Hx) as (h1 & n1 & Hh1 & Hv1 & Hc1).
  bind_step Hh1.
  assert (Hi1 : lift (py_index (length cl) (ival h1)) n1
                = Ok (Z.to_nat (ival x / ru), n1)).
  { apply lift_ok. rewrite Hv1. apply py_index_ok. lia. }
  bind_step Hi1. rewrite Hc.
  assert (Hl1 : lift (Ok c) n1 = Ok (c, n1)) by reflexivity.
  bind_step Hl1.
  match goal with |- (?m ≫= _) n1 = _ ∨ _ =>
    assert (Hins : ∃ inside n2, m n1 = Ok (inside, n2) ∧
              (inside = false → ∀ y, has k c y → ival x mod ru ≤ y))
  end.
  { destruct (VEBTree.minimum c) as [mc|] eqn:Eminc.
    - destruct (low_obj_spec u ru x n1 He Hx) as (lw & n2 & Hlw & Hvlw & Hclw).
      exists (ival mc <? ival lw), n2. split; [bind_step Hlw; reflexivity|].
      intros Etest y Hy. apply Z.ltb_ge in Etest.
      destruct (min_max_spec k c y Hwc Hy) as (a & b & Hminc & _ & _ & _ & Hall).
      rewrite Hminc in Eminc. injection Eminc as ->.
      specialize (Hall y Hy). lia.
    - exists false, n1. split; [reflexivity|]. intros _ y Hy. exfalso.
      assert (Hne : VEBTree.minimum c ≠ None).
      { apply (has_minimum k c Hwc). by eexists. }
      by rewrite Eminc in Hne. }
  destruct Hins as (inside & n2 & Hins & Hcl0). bind_step Hins.
  destruct inside.
  { (* the predecessor is in the same cluster *)
    destruct (high_obj_spec u ru x n2 He Hx) as (h2 & n3 & Hh2 & Hv2 & Hc2).
    bind_step Hh2.
    assert (Hi2 : lift (py_index (length cl) (ival h2)) n3
                  = Ok (Z.to_nat (ival x / ru), n3)).
    { apply lift_ok. rewrite Hv2. apply py_index_ok. lia. }
    bind_step Hi2.
    destruct (low_obj_spec u ru x n3 He Hx) as (lw' & n4 & Hlw' & Hvlw' & Hclw').
    bind_step Hlw'.
    assert (Hr' : 0 ≤ ival lw' < universe k) by lia.
    left.
    destruct (IH c lw' n4 Hwc Hclw' Hr') as [Hrec|(r & n5 & Hrec & _)].
    - apply alloc_bind_raise. rewrite predecessor_at_spec, Hc. exact Hrec.
    - rewrite (alloc_bind_ok _ _ n4 r n5); [reflexivity|].
      rewrite predecessor_at_spec, Hc. exact Hrec. }
  specialize (Hcl0 eq_refl).
  destruct (high_obj_spec u ru x n2 He Hx) as (h2 & n3 & Hh2 & Hv2 & Hc2).
  bind_step Hh2.
  assert (Hr2 : 0 ≤ ival h2 < universe k) by lia.
  destruct (IH s h2 n3 Hs Hc2 Hr2) as [Hrec|(r & n4 & Hrec & Hpred)].
  { left. apply alloc_bind_raise. exact Hrec. }
  bind_step Hrec. rewrite Hv2 in Hpred.
  destruct r as [pc|]; cbn [fmap option_fmap option_map is_pred] in Hpred.
  - (* an earlier cluster is not empty *)
    left. destruct Hpred as (Hpc & _ & _).
    pose proof (has_range k s _ Hs Hpc) as Hrpc.
    assert (Hi3 : lift (py_index (length cl) (ival pc)) n4
                  = Ok (Z.to_nat (ival pc), n4)).
    { apply lift_ok. apply py_index_ok. lia. }
    bind_step Hi3.
    destruct (lookup_lt_is_Some_2 cl (Z.to_nat (ival pc))) as [c' Hc']; [lia|].
    rewrite Hc'. reflexivity.
  - (* no earlier cluster holds anything *)
    assert (Hic : ∀ y, in_cluster (has k) ru cl y → ival x ≤ y).
    { intros y (Hy0 & cy & Hcy & Hy).
      destruct (Z.lt_trichotomy (y / ru) (ival x / ru)) as [Hlt|[Heq|Hgt]].
      - exfalso.
        assert (Hwcy : wf k cy) by (eapply Forall_lookup_1; eassumption).
        assert (Hne : VEBTree.minimum cy ≠ None).
        { apply (has_minimum k cy Hwcy). by eexists. }
        assert (Hs' : has k s (y / ru)).
        { apply Hsum. split; [apply Z.div_pos; lia|]. by exists cy. }
        apply Hpred in Hs'. lia.
      - rewrite Heq, Hc in Hcy. injection Hcy as <-. apply Hcl0 in Hy.
        rewrite (Z.div_mod y ru), (Z.div_mod (ival x) ru) by lia. rewrite Heq. lia.
      - assert (ival x < y); [|lia].
        apply Z.nle_gt. intros Hle. apply (Z.div_le_mono _ _ ru) in Hle; lia. }
    right.
    destruct (match mn with Some m => ival m <? ival x | None => false end) eqn:Etest.
    + destruct mn as [m|]; [|done]. apply Z.ltb_lt in Etest.
      exists (Some m), n4. split; [reflexivity|].
      cbn [fmap option_fmap option_map is_pred has].
      split; [left; by apply holds_Some|]. split; [exact Etest|].
      intros y [Hy|[Hy|Hy]] Hlt.
      * apply holds_Some in Hy. lia.
      * apply Hmax in Hy. lia.
      * apply Hic in Hy. lia.
    + exists None, n4. split; [reflexivity|].
      cbn [fmap option_fmap option_map is_pred has].
      intros y [Hy|[Hy|Hy]].
      * destruct Hy as (m & -> & <-). apply Z.ltb_ge in Etest. exact Etest.
      * by apply Hmax.
      * by apply Hic.
Qed.

(** X23.  On the same universes [predecessor(x)] either raises
    [AttributeError] or returns the right answer: the greatest inserted
    value below [x], [None] when there is none. *)
Theorem predecessor_right_or_attribute_error u xs x nxt :
  u ∈ [2; 4; 16; 256; 65536] →
  Forall (λ x, cpython_int x ∧ 0 ≤ ival x < u) xs →
  cpython_int x → 0 ≤ ival x < u →
  run (t ← veb_of u xs; VEBTree.predecessor t x) nxt = Raise AttributeError ∨
  ∃ r, run (t ← veb_of u xs; VEBTree.predecessor t x) nxt = Ok r ∧
       is_pred (λ y, y ∈ ival <$> xs) (ival x) (ival <$> r).
Proof.
  intros Hu Hxs Hcx Hx.
  destruct (universe_of u Hu) as (k & Hk & ->).
  destruct (veb_of_spec k xs nxt Hk Hxs) as (t & n1 & Ht & Hw & Hh).
  unfold run. bind_step Ht.
  destruct (predecessor_spec k Hk t x n1 Hw Hcx Hx) as [Hs|(r & n2 & Hs & Hr)];
    rewrite Hs.
  - by left.
  - right. exists r. split; [reflexivity|]. by apply (is_pred_ext (has k t)).
Qed.

Lemma predecessor_right_or_attribute_error_witness :
  16 ∈ [2; 4; 16; 256; 65536] ∧
  Forall (λ x, cpython_int x ∧ 0 ≤ ival x < 16)
    (map (λ v, pyobj v 2) [2; 3; 4; 5; 7; 10]) ∧
  cpython_int (pyobj 12 2) ∧ 0 ≤ ival (pyobj 12 2) < 16 ∧
  (run (t ← veb_of 16 (map (λ v, pyobj v 2) [2; 3; 4; 5; 7; 10]);
        VEBTree.predecessor t (pyobj 12 2)) 3 = Raise AttributeError ∨
   ∃ r, run (t ← veb_of 16 (map (λ v, pyobj v 2) [2; 3; 4; 5; 7; 10]);
             VEBTree.predecessor t (pyobj 12 2)) 3 = Ok r ∧
        is_pred (λ y, y ∈ ival <$> map (λ v, pyobj v 2) [2; 3; 4; 5; 7; 10])
          (ival (pyobj 12 2)) (ival <$> r)).
Proof.
  assert (H1 : 16 ∈ [2; 4; 16; 256; 65536])
    by (apply (bool_decide_unpack _); by vm_compute).
  assert (H2 : Forall (λ x, cpython_int x ∧ 0 ≤ ival x < 16)
                 (map (λ v, pyobj v 2) [2; 3; 4; 5; 7; 10])).
  { repeat (apply Forall_cons; split;
              [split; [intros _; reflexivity|simpl; lia]|]).
    apply Forall_nil. done. }
  assert (H3 : cpython_int (pyobj 12 2)) by (intros _; reflexivity).
  assert (H4 : 0 ≤ ival (pyobj 12 2) < 16) by (simpl; lia).
  split; [exact H1|]. split; [exact H2|]. split; [exact H3|].
  split; [exact H4|].
  exact (predecessor_right_or_attribute_error 16 _ (pyobj 12 2) 3 H1 H2 H3 H4).
Defined.

(** ** When [successor] raises *)

Lemma maximum_held k t b : wf k t → VEBTree.maximum t = Some b → has k t (ival b).
Proof.
  destruct k as [|k], t as [mn mx|u ru mn mx s cl];
    cbn [wf has VEBTree.maximum]; try done.
  - intros _ ->. right. by apply holds_Some.
  - intros _ ->. right. left. by apply holds_Some.
Qed.

(** Below the minimum, [successor] returns the minimum. *)
Lemma successor_below k t x nxt m :
  wf (S k) t → VEBTree.minimum t = Some m → ival x < ival m →
  VEBTree.successor t x nxt = Ok (Some m, nxt).
Proof.
  destruct t as [|u ru mn mx s cl]; [done|]. cbn [VEBTree.minimum].
  intros _ -> Hlt. cbn [VEBTree.successor].
  apply Z.ltb_lt in Hlt. rewrite Hlt. reflexivity.
Qed.

(** At or above everything held, [successor] returns [None]. *)
Lemma successor_none k :
  (k ≤ 4)%nat → ∀ t x nxt,
  wf k t → cpython_int x → 0 ≤ ival x < universe k →
  (∀ y, has k t y → y ≤ ival x) →
  ∃ n', VEBTree.successor t x nxt = Ok (None, n').
Proof.
  induction k as [|k IH]; intros Hk t x nxt Hwf Hcx Hx Hall.
  { destruct t as [mn mx|]; [|destruct Hwf].
    destruct (successor_base mn mx x nxt Hwf Hx) as (r & H1 & H2).
    exists nxt. rewrite H1. destruct r as [v|]; [|done]. exfalso.
    cbn [fmap option_fmap option_map is_succ] in H2. destruct H2 as (Hv & Hlt & _).
    apply Hall in Hv. lia. }
  destruct t as [|u ru mn mx s cl]; [destruct Hwf|].
  assert (Hk' : (k ≤ 4)%nat) by lia. specialize (IH Hk').
  cbn [has] in Hall. cbn [wf] in Hwf.
  destruct Hwf as (Hu & Hru & Hs & Hlen & Hcl & Hb & Hmx & Hsum).
  pose proof (universe_ge k) as Hge.
  assert (He : exact_universe u ru) by (subst u ru; apply exact_universes; lia).
  rewrite <- Hu in Hx.
  assert (Huru : u = ru * ru) by (subst u ru; reflexivity).
  rewrite <- Hru in Hge.
  cbn [VEBTree.successor].
  assert (Et1 : match mn with Some m => ival x <? ival m | None => false end = false).
  { destruct mn as [m|]; [|done]. apply Z.ltb_ge. apply Hall. left.
    by apply holds_Some. }
  rewrite Et1.
  assert (Hh : 0 ≤ ival x / ru < ru).
  { split; [apply Z.div_pos; lia|apply Z.div_lt_upper_bound; lia]. }
  assert (Hl : 0 ≤ ival x mod ru < ru) by (apply Z.mod_pos_bound; lia).
  destruct (lookup_lt_is_Some_2 cl (Z.to_nat (ival x / ru))) as [c Hc]; [lia|].
  assert (Hwc : wf k c) by (eapply Forall_lookup_1; eassumption).
  (* what a cluster holds is held by the node *)
  assert (Hup : ∀ i ci j, 0 ≤ i → cl !! Z.to_nat i = Some ci → has k ci j →
                  i * ru + j ≤ ival x).
  { intros i ci j Hi Hci Hj.
    assert (Hwci : wf k ci) by (eapply Forall_lookup_1; eassumption).
    pose proof (has_range k ci j Hwci Hj) as Hrj. rewrite <- Hru in Hrj.
    apply Hall. right. right. split; [nia|].
    exists ci. rewrite Z.div_add_l, Z.div_small, Z.add_0_r by lia.
    split; [exact Hci|].
    by rewrite Z.add_comm, Z.mod_add, Z.mod_small by lia. }
  destruct (high_obj_spec u ru x nxt He Hx) as (h1 & n1 & Hh1 & Hv1 & Hc1).
  bind_step Hh1.
  assert (Hi1 : lift (py_index (length cl) (ival h1)) n1
                = Ok (Z.to_nat (ival x / ru), n1)).
  { apply lift_ok. rewrite Hv1. apply py_index_ok. lia. }
  bind_step Hi1. rewrite Hc.
  assert (Hl1 : lift (Ok c) n1 = Ok (c, n1)) by reflexivity.
  bind_step Hl1.
  destruct (low_obj_spec u ru x n1 He Hx) as (lw & n2 & Hlw & Hvlw & Hclw).
  bind_step Hlw.
  assert (Et2 : match VEBTree.maximum c with
                | Some m => ival lw <? ival m | None => false end = false).
  { destruct (VEBTree.maximum c) as [mc|] eqn:Emax; [|done]. apply Z.ltb_ge.
    pose proof (maximum_held k c mc Hwc Emax) as Hmc.
    pose proof (Hup (ival x / ru) c (ival mc) ltac:(lia) Hc Hmc) as Hle.
    pose proof (Z.div_mod (ival x) ru ltac:(lia)). lia. }
  rewrite Et2.
  destruct (high_obj_spec u ru x n2 He Hx) as (h2 & n3 & Hh2 & Hv2 & Hc2).
  bind_step Hh2.
  assert (Hr2 : 0 ≤ ival h2 < universe k) by lia.
  assert (Hall2 : ∀ i, has k s i → i ≤ ival h2).
  { intros i Hi. apply Hsum in Hi as (Hi0 & ci & Hci & Hne).
    assert (Hwci : wf k ci) by (eapply Forall_lookup_1; eassumption).
    apply (has_minimum k ci Hwci) in Hne as [j Hj].
    pose proof (has_range k ci j Hwci Hj) as Hrj.
    pose proof (Hup i ci j Hi0 Hci Hj) as Hle. rewrite Hv2.
    apply Z.div_le_lower_bound; lia. }
  destruct (IH s h2 n3 Hs Hc2 Hr2 Hall2) as (n4 & Hrec).
  bind_step Hrec. by exists n4.
Qed.

(** X24.  On the universes 4, 16, 256 and 65536, [successor(x)] raises
    [AttributeError] exactly when [x] lies between two inserted values: at
    or above one and below another.  Below all of them it returns the
    minimum, at or above all of them it returns [None]. *)
Theorem successor_raises_exactly u xs x nxt :
  u ∈ [4; 16; 256; 65536] →
  Forall (λ x, cpython_int x ∧ 0 ≤ ival x < u) xs →
  cpython_int x → 0 ≤ ival x < u →
  run (t ← veb_of u xs; VEBTree.successor t x) nxt = Raise AttributeError ↔
  ∃ a b, a ∈ ival <$> xs ∧ b ∈ ival <$> xs ∧ a ≤ ival x < b.
Proof.
  intros Hu Hxs Hcx Hx.
  assert (Hk : ∃ k, (S k ≤ 4)%nat ∧ u = universe (S k)).
  { repeat (apply elem_of_cons in Hu as [->|Hu]).
    - exists 0%nat. split; [lia|reflexivity].
    - exists 1%nat. split; [lia|reflexivity].
    - exists 2%nat. split; [lia|reflexivity].
    - exists 3%nat. split; [lia|reflexivity].
    - by apply elem_of_nil in Hu. }
  destruct Hk as (k & Hk & ->).
  destruct (veb_of_spec (S k) xs nxt Hk Hxs) as (t & n1 & Ht & Hw & Hh).
  unfold run. bind_step Ht. split.
  - intros Hraise.
    destruct (decide (Exists (λ b, ival x < b) (ival <$> xs))) as [Hb|Hb].
    2:{ exfalso.
        destruct (successor_none (S k) Hk t x n1 Hw Hcx Hx) as (n2 & Hs).
        - intros y Hy. apply Hh in Hy. apply Z.nlt_ge. intros Hlt. apply Hb.
          apply Exists_exists. by exists y.
        - by rewrite Hs in Hraise. }
    apply Exists_exists in Hb as (b & Hb & Hxb).
    destruct (decide (Exists (λ a, a ≤ ival x) (ival <$> xs))) as [Ha|Ha].
    { apply Exists_exists in Ha as (a & Ha & Hax). by exists a, b. }
    exfalso.
    assert (Hhb : has (S k) t b) by by apply Hh.
    destruct (min_max_spec (S k) t b Hw Hhb) as (m & _ & Hmin & _ & Hm & _).
    rewrite (successor_below k t x n1 m Hw Hmin) in Hraise; [done|].
    apply Z.nle_gt. intros Hle. apply Ha. apply Exists_exists.
    exists (ival m). split; [by apply Hh|exact Hle].
  - intros (a & b & Ha & Hb & Hax & Hxb).
    destruct (successor_spec (S k) Hk t x n1 Hw Hcx Hx)
      as [Hs|(r & n2 & Hs & Hr & Hsome)]; rewrite Hs; [done|].
    exfalso. destruct r as [v|].
    + assert (Hlt : ival x < a); [|lia].
      apply Hsome; [done|done|]. by apply Hh.
    + cbn [fmap option_fmap option_map is_succ] in Hr.
      assert (Hle : b ≤ ival x); [|lia]. apply Hr. by apply Hh.
Qed.

Lemma successor_raises_exactly_witness :
  16 ∈ [4; 16; 256; 65536] ∧
  Forall (λ x, cpython_int x ∧ 0 ≤ ival x < 16)
    (map (λ v, pyobj v 2) [2; 3; 4; 5; 7; 10]) ∧
  cpython_int (pyobj 5 2) ∧ 0 ≤ ival (pyobj 5 2) < 16 ∧
  (run (t ← veb_of 16 (map (λ v, pyobj v 2) [2; 3; 4; 5; 7; 10]);
        VEBTree.successor t (pyobj 5 2)) 3 = Raise AttributeError ↔
   ∃ a b, a ∈ ival <$> map (λ v, pyobj v 2) [2; 3; 4; 5; 7; 10] ∧
          b ∈ ival <$> map (λ v, pyobj v 2) [2; 3; 4; 5; 7; 10] ∧
          a ≤ ival (pyobj 5 2) < b).
Proof.
  assert (H1 : 16 ∈ [4; 16; 256; 65536])
    by (apply (bool_decide_unpack _); by vm_compute).
  assert (H2 : Forall (λ x, cpython_int x ∧ 0 ≤ ival x < 16)
                 (map (λ v, pyobj v 2) [2; 3; 4; 5; 7; 10])).
  { repeat (apply Forall_cons; split;
              [split; [intros _; reflexivity|simpl; lia]|]).
    apply Forall_nil. done. }
  assert (H3 : cpython_int (pyobj 5 2)) by (intros _; reflexivity).
  assert (H4 : 0 ≤ ival (pyobj 5 2) < 16) by (simpl; lia).
  split; [exact H1|]. split; [exact H2|]. split; [exact H3|].
  split; [exact H4|].
  exact (successor_raises_exactly 16 _ (pyobj 5 2) 3 H1 H2 H3 H4).
Defined.

(** * Well-formed heaps: [extract_min] returns the minimum *)

Lemma forest_perm s V V' M : V ≡ₚ V' → forest s V M → forest s V' M.
Proof.
  intros HV [H1 H2 H3 H4 H5]. split; [|by rewrite <- HV|done|done|].
  - intros r Hr. apply H1. by rewrite HV.
  - intros x Hx. destruct (H5 x Hx) as (r & Hr & Ha). exists r. by rewrite <- HV.
Qed.

Lemma anc_ext s s' r x :
  (∀ y, parent (s' y) = parent (s y)) → anc s r x → anc s' r x.
Proof.
  intros Hp Ha. induction Ha as [|x p Hx Ha IH]; [constructor|].
  apply (anc_step _ _ x p); [by rewrite Hp|exact IH].
Qed.

(** A store that differs in sibling links of parentless items only, and in
    marks and degrees, holds the same forest. *)
Lemma forest_ext s s' V M :
  forest s V M →
  (∀ r, parent (s' r) = parent (s r) ∧ children (s' r) = children (s r)) →
  (∀ r, parent (s r) ≠ None →
        left (s' r) = left (s r) ∧ right (s' r) = right (s r)) →
  forest s' V M.
Proof.
  intros [H1 H2 H3 H4 H5] Hpc Hlr.
  assert (Hp : ∀ y, parent (s' y) = parent (s y)) by (intros y; apply Hpc).
  split; [|done| | |].
  - intros r Hr. rewrite Hp. by apply H1.
  - intros x p. rewrite Hp. apply H3.
  - intros p Hpm. specialize (H4 p Hpm). unfold kids_ok in *.
    destruct (Hpc p) as [_ ->]. destruct (children (s p)) as [c|].
    + destruct H4 as (Lc & Hring & Hiff). exists Lc. split.
      * apply (ring_ext s); [done|]. intros x Hx. apply Hlr.
        apply Hiff in Hx. congruence.
      * intros y. rewrite Hp. apply Hiff.
    + intros y. rewrite Hp. apply H4.
  - intros x Hx. destruct (H5 x Hx) as (r & Hr & Ha). exists r. split; [done|].
    by apply (anc_ext s).
Qed.

(** In min-heap order an ancestor's key is not larger. *)
Lemma anc_key s r x :
  heap_order s → anc s r x → key_le (key (s r)) (key (s x)) = true.
Proof.
  intros Ho Ha. induction Ha as [|x p Hx Ha IH]; [apply key_le_refl|].
  eapply key_le_trans; [exact IH|]. by apply Ho.
Qed.

(** [min] has the smallest key of all the items of a well-formed heap. *)
Lemma heap_wf_min_smallest s h L M m x :
  heap_wf s h L M → min h = Some m → x ∈ M →
  key_le (key (s m)) (key (s x)) = true.
Proof.
  intros [_ Hf _ Hmin Ho _] Hm Hx.
  destruct (fo_anc _ _ _ Hf x Hx) as (r & Hr & Ha).
  eapply key_le_trans; [|by apply anc_key].
  destruct L as [|a l]; [by apply elem_of_nil in Hr|].
  destruct Hmin as (m' & Hm' & _ & Hle). simplify_eq. by apply Hle.
Qed.

Lemma dict_pop_values k d v d' :
  dict_pop k d = Some (v, d') →
  dict_values d ≡ₚ v :: dict_values d' ∧ length d = S (length d').
Proof.
  revert v d'. induction d as [|[k' w] d IH]; intros v d'; simpl; [done|].
  destruct (k' =? k).
  - intros [= <- <-]. done.
  - destruct (dict_pop k d) as [[w' d'']|]; [|done]. intros [= <- <-].
    destruct (IH _ _ eq_refl) as [Hp Hl]. split.
    + unfold dict_values in *. simpl. rewrite Hp. apply Permutation_swap.
    + simpl. by rewrite Hl.
Qed.

Lemma dict_set_values k v d :
  k ∉ d.*1 → dict_values (dict_set k v d) ≡ₚ v :: dict_values d.
Proof.
  intros Hk. rewrite (dict_set_fresh _ _ _ Hk). unfold dict_values.
  rewrite map_app. simpl. by rewrite Permutation_app_comm.
Qed.

(** Setting the parent of a top item [b] to another top item [a] moves
    what was below [b] below [a]. *)
Lemma anc_link s s' a b r x :
  parent (s b) = None →
  (∀ y, parent (s' y) = if decide (y = b) then Some a else parent (s y)) →
  anc s r x →
  anc s' (if decide (r = b) then a else r) x.
Proof.
  intros Hb Hp Ha. induction Ha as [|x p Hx Ha IH].
  - case_decide as Hr; [|constructor]. subst r.
    apply (anc_step _ _ b a); [|constructor]. rewrite Hp. by rewrite decide_True.
  - apply (anc_step _ _ x p); [|exact IH]. rewrite Hp.
    rewrite decide_False; [done|]. intros ->. congruence.
Qed.

(** [a.link(b)] on two top items of a forest returns, and leaves the forest
    with [b] below [a]. *)
Lemma link_forest s V M a b :
  forest s (b :: V) M → a ∈ V →
  ∃ s', FibHeapHItem.link s a b = Ok s' ∧ forest s' V M.
Proof.
  intros Hf Ha.
  pose proof (fo_nodup _ _ _ Hf) as Hnd. apply NoDup_cons in Hnd as [HbV HndV].
  assert (Hab : a ≠ b) by (intros ->; done).
  destruct (fo_roots _ _ _ Hf a) as [Hpa HaM]; [by apply list_elem_of_further|].
  destruct (fo_roots _ _ _ Hf b) as [Hpb HbM]; [apply list_elem_of_here|].
  pose proof (fo_kids _ _ _ Hf a HaM) as Hka. unfold kids_ok in Hka.
  assert (Hstep : ∃ s1 c1 Lc,
    (match children (s a) with
     | Some c =>
         '(s', c') ← CircularDLL.insert s c b;
         Ok (upd s' a (with_children (Some c')))
     | None =>
         let '(s', c') := CircularDLL.init s [b] in
         Ok (upd s' a (with_children (Some c')))
     end) = Ok (upd s1 a (with_children (Some c1))) ∧
    ring s1 (start c1) (Lc ++ [b]) ∧
    (∀ r, same_data (s r) (s1 r)) ∧
    (∀ r, r ≠ b → r ∉ Lc → s1 r = s r) ∧
    (∀ y, y ∈ Lc ↔ parent (s y) = Some a)).
  { destruct (children (s a)) as [c|].
    - destruct Hka as (Lc & Hring & Hiff).
      assert (HbLc : b ∉ Lc) by (intros Hin; apply Hiff in Hin; congruence).
      destruct (insert_ring s c Lc b Hring HbLc) as (s1 & c1 & Hi & _ & Hr1 & Hsd & Hfr).
      exists s1, c1, Lc. rewrite Hi. split; [reflexivity|]. by split_and!.
    - destruct (init_singleton s b) as (s1 & Hi & Hr1 & Hsd & Hfr).
      exists s1, (mkCircularDLL (Some b) (Some b)), []. rewrite Hi.
      split; [reflexivity|]. split; [exact Hr1|]. split; [exact Hsd|].
      split; [intros r Hr _; by apply Hfr|].
      intros y. split; [intros Hy; by apply elem_of_nil in Hy|].
      intros Hy. by apply Hka in Hy. }
  destruct Hstep as (s1 & c1 & Lc & Hstep & Hr1 & Hsd & Hfr & Hiff).
  set (s' := upd (upd (upd (upd s1 a (with_children (Some c1)))
                        b (with_marked false))
                   b (with_parent (Some a)))
              a (λ i, with_degree (degree i + 1) i)).
  assert (Hl : FibHeapHItem.link s a b = Ok s').
  { unfold FibHeapHItem.link. rewrite Hstep. reflexivity. }
  assert (Flr : ∀ r, left (s' r) = left (s1 r) ∧ right (s' r) = right (s1 r)).
  { intros r. unfold s'. split; upd_cases. }
  assert (Fp : ∀ r, parent (s' r) = if decide (r = b) then Some a else parent (s r)).
  { intros r. destruct (Hsd r) as (_&_&Hp&_). unfold s'. revert Hp. upd_cases. }
  assert (Fc : ∀ r, children (s' r) = if decide (r = a) then Some c1 else children (s r)).
  { intros r. destruct (Hsd r) as (_&_&_&Hc&_). unfold s'. revert Hc. upd_cases. }
  clearbody s'. exists s'. split; [exact Hl|].
  destruct Hf as [H1 _ H3 H4 H5]. split.
  - intros r Hr. rewrite Fp. rewrite decide_False by (intros ->; done).
    apply H1. by apply list_elem_of_further.
  - exact HndV.
  - intros x p. rewrite Fp. case_decide as Hx.
    + intros [= <-]. by subst x.
    + apply H3.
  - intros p Hp. unfold kids_ok. rewrite Fc. case_decide as Hpa'.
    + subst p. exists (Lc ++ [b]). split.
      * apply (ring_ext s1); [exact Hr1|]. intros x _. apply Flr.
      * intros y. rewrite Fp, elem_of_app, list_elem_of_singleton, Hiff.
        case_decide as Hy; [subst y; split; [done|by right]|].
        split; [intros [?|?]; done|by left].
    + specialize (H4 p Hp). unfold kids_ok in H4.
      destruct (children (s p)) as [c|].
      * destruct H4 as (Lp & Hring & Hiffp). exists Lp. split.
        -- apply (ring_ext s); [exact Hring|]. intros x Hx.
           apply Hiffp in Hx. destruct (Flr x) as [-> ->].
           rewrite Hfr; [done| |].
           ++ intros ->. congruence.
           ++ intros Hin. apply Hiff in Hin. congruence.
        -- intros y. rewrite Fp, Hiffp. case_decide as Hy; [|done]. subst y.
           split; [congruence|]. intros [= ->]. done.
      * intros y. rewrite Fp. case_decide; [|apply H4]. intros [= ->]. done.
  - intros x Hx. destruct (H5 x Hx) as (r & Hr & Hanc).
    exists (if decide (r = b) then a else r). split.
    + case_decide as Hrb; [exact Ha|].
      apply elem_of_cons in Hr as [?|?]; done.
    + by apply (anc_link s).
Qed.

Lemma forest_top_length s V M : forest s V M → (length V ≤ length M)%nat.
Proof.
  intros Hf. apply submseteq_length, NoDup_submseteq; [apply (fo_nodup _ _ _ Hf)|].
  intros x Hx. by apply (fo_roots _ _ _ Hf).
Qed.

(** The [while] loop of the bunching pass for one root returns. *)
Lemma bunch_forest fuel s d item rest M :
  forest s (item :: dict_values d ++ rest) M → (length d < fuel)%nat →
  ∃ s' d', FibHeap.bunch fuel s d item = Ok (s', d') ∧
           forest s' (dict_values d' ++ rest) M.
Proof.
  revert s d item. induction fuel as [|fuel IH]; intros s d item Hf Hlen; [lia|].
  cbn [FibHeap.bunch].
  destruct (dict_pop (degree (s item)) d) as [[other d1]|] eqn:Hpop.
  - destruct (dict_pop_values _ _ _ _ Hpop) as [Hperm Hl].
    assert (Hf1 : forest s (item :: other :: dict_values d1 ++ rest) M).
    { eapply forest_perm; [|exact Hf]. by rewrite Hperm. }
    assert (Hlen1 : (length d1 < fuel)%nat) by lia.
    destruct (key_lt (key (s other)) (key (s item))).
    + destruct (link_forest s (other :: dict_values d1 ++ rest) M other item Hf1)
        as (s1 & Hlink & Hf2); [apply list_elem_of_here|].
      rewrite Hlink. cbn [mbind res_bind]. by apply IH.
    + assert (Hf1' : forest s (other :: item :: dict_values d1 ++ rest) M).
      { eapply forest_perm; [|exact Hf1]. apply Permutation_swap. }
      destruct (link_forest s (item :: dict_values d1 ++ rest) M item other Hf1')
        as (s1 & Hlink & Hf2); [apply list_elem_of_here|].
      rewrite Hlink. cbn [mbind res_bind]. by apply IH.
  - apply dict_pop_None in Hpop. do 2 eexists. split; [reflexivity|].
    eapply forest_perm; [|exact Hf].
    by rewrite (dict_set_values _ _ _ Hpop).
Qed.

(** The bunching pass returns on a forest, given fuel for as many steps as
    there are items. *)
Lemma bunching_pass_forest fuel s d its M :
  forest s (dict_values d ++ its) M → (length M ≤ fuel)%nat →
  ∃ s' d', FibHeap.bunching_pass fuel s d its = Ok (s', d') ∧
           forest s' (dict_values d') M.
Proof.
  revert s d. induction its as [|item rest IH]; intros s d Hf Hlen.
  - exists s, d. split; [reflexivity|]. by rewrite app_nil_r in Hf.
  - assert (Hf1 : forest s (item :: dict_values d ++ rest) M).
    { eapply forest_perm; [|exact Hf]. by rewrite Permutation_middle. }
    pose proof (forest_top_length _ _ _ Hf1) as Htop.
    cbn [length] in Htop. rewrite length_app in Htop.
    unfold dict_values in Htop. rewrite length_map in Htop.
    destruct (bunch_forest fuel s d item rest M Hf1) as (s1 & d1 & Hb & Hf2); [lia|].
    cbn [FibHeap.bunching_pass]. rewrite Hb. cbn [mbind res_bind].
    by apply IH.
Qed.

(** The reforming pass writes the items it is given and the roots already
    in place, and nothing else. *)
Lemma reforming_pass_frame vals s h L s' h' :
  ring s (start (roots h)) L → min h ≠ None → NoDup (L ++ vals) →
  FibHeap.reforming_pass s h vals = Ok (s', h') →
  ∀ r, r ∉ L ++ vals → s' r = s r.
Proof.
  revert s h L. induction vals as [|item rest IH]; intros s h L Hring Hmin Hnd.
  - cbn [FibHeap.reforming_pass]. by intros [= <- <-].
  - cbn [FibHeap.reforming_pass]. destruct (min h) as [m|] eqn:Hm; [|done].
    assert (Hitem : item ∉ L).
    { apply NoDup_app in Hnd as (_ & Hd & _). intros Hin.
      apply (Hd _ Hin), list_elem_of_here. }
    destruct (heap_insert_ring s h L item Hring Hitem)
      as (s1 & h1 & Hi & Hring1 & _ & Hmin1 & _ & Hfr1).
    rewrite Hi. cbn [mbind res_bind]. intros Hr r Hnotin.
    rewrite (IH s1 (mkFibHeap (roots h1) (n h1 - 1) (min h1)) (L ++ [item])
               Hring1 Hmin1); [| |exact Hr|].
    + apply Hfr1.
      * intros ->. apply Hnotin. apply elem_of_app. right. apply list_elem_of_here.
      * intros Hin. apply Hnotin. apply elem_of_app. by left.
    + by rewrite <- app_assoc.
    + by rewrite <- app_assoc.
Qed.

Lemma reforming_pass_fresh_frame vals s h s' h' :
  min h = None → NoDup vals →
  FibHeap.reforming_pass s h vals = Ok (s', h') →
  ∀ r, r ∉ vals → s' r = s r.
Proof.
  intros Hmin Hnd. destruct vals as [|item rest].
  { cbn [FibHeap.reforming_pass]. by intros [= <- <-]. }
  cbn [FibHeap.reforming_pass]. rewrite Hmin.
  destruct (init_singleton s item) as (s1 & Hi & Hring1 & _ & Hfr1).
  rewrite Hi. intros Hr r Hnotin.
  rewrite (reforming_pass_frame rest s1
             (mkFibHeap (mkCircularDLL (Some item) (Some item)) (n h) (Some item))
             [item] s' h' Hring1); [| |exact Hnd|exact Hr|].
  - apply Hfr1. intros ->. apply Hnotin, list_elem_of_here.
  - done.
  - exact Hnotin.
Qed.

(** Cutting the children [Lc] of the root [cm] loose leaves every other
    item below a root or below one of [Lc]. *)
Lemma anc_cut s s' cm (Lc : list ref) r x :
  (∀ y, y ∈ Lc ↔ parent (s y) = Some cm) →
  (∀ y, parent (s' y) = if decide (y ∈ Lc) then None else parent (s y)) →
  anc s r x → x ≠ cm →
  ∃ r', (r' = r ∧ r ≠ cm ∨ r' ∈ Lc) ∧ anc s' r' x.
Proof.
  intros Hiff Hp Ha. induction Ha as [|x p Hx Ha IH]; intros Hne.
  - exists r. split; [by left|constructor].
  - destruct (decide (p = cm)) as [->|Hpc].
    + exists x. split; [right; by apply Hiff|constructor].
    + destruct (IH Hpc) as (r' & Hr' & Ha'). exists r'. split; [exact Hr'|].
      apply (anc_step _ _ x p); [|exact Ha']. rewrite Hp.
      rewrite decide_False; [done|]. intros Hin. apply Hiff in Hin. congruence.
Qed.

(** [extract_min] returns on a well-formed heap, and leaves a forest under
    a root ring with [min] a smallest root. *)
Lemma extract_min_forest fuel s h L M M' cm :
  heap_wf s h L M → min h = Some cm → (length M ≤ fuel)%nat →
  M ≡ₚ cm :: M' →
  ∃ s' h' L',
    FibHeap.extract_min fuel s h = Ok (Some cm, s', h') ∧
    ring s' (start (roots h')) L' ∧ forest s' L' M' ∧ min_ok s' h' L'.
Proof.
  intros [Hring Hf Hnd Hmo Ho Hn] Hmin Hfuel HM.
  assert (HcmL : cm ∈ L).
  { destruct L as [|a l]; [simpl in Hmo; congruence|].
    destruct Hmo as (m & Hm & HmL & _). by simplify_eq. }
  destruct (fo_roots _ _ _ Hf cm HcmL) as [Hpcm HcmM].
  assert (HndM : NoDup (cm :: M')) by by rewrite <- HM.
  apply NoDup_cons in HndM as [HcmM' HndM'].
  assert (HinM' : ∀ x, x ∈ M' ↔ x ∈ M ∧ x ≠ cm).
  { intros x. rewrite HM, elem_of_cons. split.
    - intros Hx. split; [by right|]. intros ->. done.
    - intros [[->|Hx] Hne]; done. }
  assert (HlenM : length M = S (length M')) by by rewrite HM.
  unfold FibHeap.extract_min. rewrite Hmin.
  match goal with |- ∃ _ _ _, (?m ≫= _) = _ ∧ _ =>
    assert (Hph1 : ∃ s1 r1 Lc, m = Ok (s1, r1) ∧
      ring s1 (start r1) (L ++ Lc) ∧
      (∀ y, y ∈ Lc ↔ parent (s y) = Some cm) ∧
      (∀ r, parent (s1 r) = if decide (r ∈ Lc) then None else parent (s r)) ∧
      (∀ r, children (s1 r) = children (s r)) ∧
      (∀ r, r ∉ L ++ Lc → left (s1 r) = left (s r) ∧ right (s1 r) = right (s r)))
  end.
  { pose proof (fo_kids _ _ _ Hf cm HcmM) as Hk. unfold kids_ok in Hk.
    destruct (children (s cm)) as [c|].
    - destruct Hk as (Lc & Hrc & Hiff).
      assert (HLc : (length Lc ≤ fuel)%nat).
      { etrans; [|exact Hfuel].
        apply submseteq_length, NoDup_submseteq; [by eapply ring_NoDup|].
        intros x Hx. apply Hiff in Hx. by apply (fo_parent _ _ _ Hf) in Hx as [? _]. }
      rewrite (items_ring fuel s c Lc Hrc HLc). cbn [mbind res_bind].
      set (s0 := foldl (λ st c0, upd st c0 (with_parent None)) s Lc).
      assert (H0 : ∀ r,
        parent (s0 r) = (if decide (r ∈ Lc) then None else parent (s r)) ∧
        left (s0 r) = left (s r) ∧ right (s0 r) = right (s r) ∧
        children (s0 r) = children (s r)).
      { intros r. by destruct (clear_parents_spec Lc s r) as (H1 & _ & _ & H2 & H3 & H4). }
      clearbody s0.
      assert (Hr0 : ring s0 (start (roots h)) L).
      { apply (ring_ext s); [done|]. intros x _. by destruct (H0 x) as (_ & -> & -> & _). }
      assert (Hrc0 : ring s0 (start c) Lc).
      { apply (ring_ext s); [done|]. intros x _. by destruct (H0 x) as (_ & -> & -> & _). }
      assert (Hdisj : ∀ x, x ∈ L → x ∉ Lc).
      { intros x Hx Hin. apply Hiff in Hin.
        destruct (fo_roots _ _ _ Hf x Hx). congruence. }
      destruct (merge_ring s0 (roots h) c L Lc Hr0 Hrc0 Hdisj)
        as (s1 & c' & Hm & _ & Hr1 & Hsd & Hfr).
      exists s1, c', Lc. split; [exact Hm|]. split; [exact Hr1|].
      split; [exact Hiff|]. split; [|split].
      + intros r. destruct (Hsd r) as (_&_&<-&_). apply H0.
      + intros r. destruct (Hsd r) as (_&_&_&<-&_). apply H0.
      + intros r Hr. rewrite (Hfr r Hr). by destruct (H0 r) as (_ & -> & -> & _).
    - exists s, (roots h), []. split; [reflexivity|]. rewrite app_nil_r.
      split; [exact Hring|]. split; [|split; [|done]].
      + intros y. split; [intros Hy; by apply elem_of_nil in Hy|].
        intros Hy. by apply Hk in Hy.
      + intros r. rewrite decide_False; [done|]. apply not_elem_of_nil. }
  destruct Hph1 as (s1 & r1 & Lc & Hph1 & Hr1 & Hiff & P1 & C1 & LR1).
  rewrite Hph1. cbn [mbind res_bind].
  assert (HcmR : cm ∈ L ++ Lc) by (apply elem_of_app; by left).
  destruct (delete_ring s1 r1 (L ++ Lc) cm Hr1 HcmR)
    as (s2 & r2 & L2 & Hd & _ & Hr2 & Hperm & _ & Hsd2 & Hfr2).
  rewrite Hd. cbn [mbind res_bind].
  assert (P2 : ∀ r, parent (s2 r) = if decide (r ∈ Lc) then None else parent (s r)).
  { intros r. destruct (Hsd2 r) as (_&_&<-&_). apply P1. }
  assert (C2 : ∀ r, children (s2 r) = children (s r)).
  { intros r. destruct (Hsd2 r) as (_&_&_&<-&_). apply C1. }
  assert (LR2 : ∀ r, r ∉ L ++ Lc →
            left (s2 r) = left (s r) ∧ right (s2 r) = right (s r)).
  { intros r Hr. rewrite (Hfr2 r Hr). by apply LR1. }
  assert (HndR : NoDup (cm :: L2)).
  { rewrite <- Hperm. by eapply ring_NoDup. }
  apply NoDup_cons in HndR as [HcmL2 HndL2].
  assert (HinL2 : ∀ x, x ∈ L2 ↔ (x ∈ L ∨ x ∈ Lc) ∧ x ≠ cm).
  { intros x. rewrite <- elem_of_app, Hperm, elem_of_cons. split.
    - intros Hx. split; [by right|]. intros ->. done.
    - intros [[->|Hx] Hne]; done. }
  assert (Hf2 : forest s2 L2 M').
  { split.
    - intros r Hr. apply HinL2 in Hr as [[Hr|Hr] Hne].
      + destruct (fo_roots _ _ _ Hf r Hr) as [Hpr HrM]. rewrite P2, Hpr.
        split; [by case_decide|]. by apply HinM'.
      + rewrite P2, decide_True by done. split; [done|]. apply HinM'.
        split; [|done]. apply Hiff in Hr.
        by apply (fo_parent _ _ _ Hf) in Hr as [? _].
    - exact HndL2.
    - intros x p. rewrite P2. case_decide as Hx; [done|]. intros Hxp.
      destruct (fo_parent _ _ _ Hf x p Hxp) as [HxM HpM].
      split; apply HinM'; (split; [done|]).
      + intros ->. congruence.
      + intros ->. apply Hx. by apply Hiff.
    - intros p Hp. apply HinM' in Hp as [HpM Hpne].
      pose proof (fo_kids _ _ _ Hf p HpM) as Hk. unfold kids_ok in *.
      rewrite C2. destruct (children (s p)) as [c|].
      + destruct Hk as (Lp & Hrp & Hiffp). exists Lp. split.
        * apply (ring_ext s); [done|]. intros x Hx. apply LR2.
          apply Hiffp in Hx. intros Hin. apply elem_of_app in Hin as [Hin|Hin].
          -- destruct (fo_roots _ _ _ Hf x Hin). congruence.
          -- apply Hiff in Hin. congruence.
        * intros y. rewrite P2, Hiffp. case_decide as Hy; [|done].
          apply Hiff in Hy. split; [intros; congruence|done].
      + intros y. rewrite P2. case_decide; [done|apply Hk].
    - intros x Hx. apply HinM' in Hx as [HxM Hxne].
      destruct (fo_anc _ _ _ Hf x HxM) as (r & Hr & Ha).
      destruct (anc_cut s s2 cm Lc r x Hiff P2 Ha Hxne) as (r' & Hr' & Ha').
      exists r'. split; [|done]. apply HinL2.
      destruct Hr' as [[-> Hne]|Hin]; [split; [by left|done]|].
      split; [by right|]. intros ->. apply Hiff in Hin. congruence. }
  destruct L2 as [|a l2].
  - simpl in Hr2. rewrite Hr2.
    eexists s2, _, []. split; [reflexivity|]. split; [exact Hr2|].
    split; [exact Hf2|]. reflexivity.
  - pose proof (ring_start _ _ _ Hr2) as Hst. simpl in Hst. rewrite Hst.
    unfold FibHeap.consolidate. cbn [roots n min].
    assert (Hlen2 : (length (a :: l2) ≤ fuel)%nat).
    { pose proof (forest_top_length _ _ _ Hf2). lia. }
    rewrite (items_ring fuel s2 r2 (a :: l2) Hr2 Hlen2). cbn [mbind res_bind].
    assert (Hfuel' : (length M' ≤ fuel)%nat) by lia.
    destruct (bunching_pass_forest fuel s2 [] (a :: l2) M' Hf2 Hfuel')
      as (s3 & d & Hb & Hf3).
    rewrite Hb. cbn [mbind res_bind].
    destruct (bunching_pass_ok _ _ _ _ _ _ (dict_ok_nil s2) Hb) as [Hok Hne].
    assert (Hv : dict_values d ≠ []).
    { unfold dict_values. destruct d; [|done]. exfalso. by apply Hne. }
    pose proof (fo_nodup _ _ _ Hf3) as Hndv.
    destruct (reforming_pass_fresh_min (dict_values d) s3
                (mkFibHeap r2 (n h - 1) None) eq_refl Hndv Hv)
      as (s4 & h4 & Hr & Hring4 & Hmin4).
    rewrite Hr. cbn [mbind res_bind].
    exists s4, h4, (dict_values d). split; [reflexivity|]. split; [exact Hring4|].
    split; [|exact Hmin4].
    apply (forest_ext s3); [exact Hf3| |].
    + intros r. by destruct (reforming_pass_same_data _ _ _ _ _ Hr r) as (_&_&<-&<-&_).
    + intros r Hpr.
      rewrite (reforming_pass_fresh_frame (dict_values d) s3
                 (mkFibHeap r2 (n h - 1) None) s4 h4 eq_refl Hndv Hr r); [done|].
      intros Hin. by destruct (fo_roots _ _ _ Hf3 r Hin).
Qed.

Lemma extract_min_wf fuel s h L M cm :
  heap_wf s h L M → min h = Some cm → (length M ≤ fuel)%nat →
  ∃ s' h' L' M',
    FibHeap.extract_min fuel s h = Ok (Some cm, s', h') ∧
    heap_wf s' h' L' M' ∧ M ≡ₚ cm :: M' ∧ same_keys s s' ∧
    ∀ x, x ∈ M → key_le (key (s cm)) (key (s x)) = true.
Proof.
  intros Hw Hmin Hfuel.
  assert (HcmM : cm ∈ M).
  { destruct Hw as [_ Hf _ Hmo _ _]. apply (fo_roots _ _ _ Hf).
    destruct L as [|a l]; [simpl in Hmo; congruence|].
    destruct Hmo as (m & Hm & HmL & _). by simplify_eq. }
  apply elem_of_Permutation in HcmM as [M' HM].
  destruct (extract_min_forest fuel s h L M M' cm Hw Hmin Hfuel HM)
    as (s' & h' & L' & He & Hring & Hf' & Hmin').
  destruct (extract_min_order _ _ _ _ _ _ He (hw_order _ _ _ _ Hw)) as [Ho' Hk'].
  destruct (extract_min_result _ _ _ _ _ _ He) as [_ Hn'].
  exists s', h', L', M'. split; [exact He|]. split; [|split; [exact HM|split; [exact Hk'|]]].
  - split; [exact Hring|exact Hf'| |exact Hmin'|exact Ho'|].
    + pose proof (hw_nodup _ _ _ _ Hw) as Hnd. rewrite HM in Hnd.
      by apply NoDup_cons in Hnd as [_ ?].
    + rewrite Hn' by congruence. rewrite (hw_n _ _ _ _ Hw), HM. cbn [length]. lia.
  - intros x Hx. by apply (heap_wf_min_smallest s h L M).
Qed.

(** A new item next to a forest. *)
Lemma forest_add s V M item :
  forest s V M → item ∉ M →
  parent (s item) = None → children (s item) = None →
  forest s (V ++ [item]) (M ++ [item]).
Proof.
  intros [H1 H2 H3 H4 H5] Hitem Hp Hc. split.
  - intros r Hr. apply elem_of_app in Hr as [Hr|Hr].
    + destruct (H1 r Hr). split; [done|]. apply elem_of_app. by left.
    + apply list_elem_of_singleton in Hr. subst r. split; [done|].
      apply elem_of_app. right. apply list_elem_of_here.
  - apply NoDup_app. split; [done|]. split; [|apply NoDup_singleton].
    intros x Hx Hx'. apply list_elem_of_singleton in Hx'. subst x.
    apply Hitem. by apply H1.
  - intros x p Hxp. destruct (H3 x p Hxp). split; apply elem_of_app; by left.
  - intros p Hpm. apply elem_of_app in Hpm as [Hpm|Hpm]; [by apply H4|].
    apply list_elem_of_singleton in Hpm. subst p. unfold kids_ok. rewrite Hc.
    intros y Hy. apply Hitem. by apply (H3 y item).
  - intros x Hx. apply elem_of_app in Hx as [Hx|Hx].
    + destruct (H5 x Hx) as (r & Hr & Ha). exists r. split; [|done].
      apply elem_of_app. by left.
    + apply list_elem_of_singleton in Hx. subst x. exists item.
      split; [|constructor]. apply elem_of_app. right. apply list_elem_of_here.
Qed.

(** [insert] of a new item keeps the heap well formed. *)
Lemma insert_wf s h L M item :
  heap_wf s h L M → item ∉ M →
  parent (s item) = None → children (s item) = None →
  ∃ s' h', FibHeap.insert s h item = Ok (s', h') ∧
           heap_wf s' h' (L ++ [item]) (M ++ [item]) ∧
           (∀ r, same_data (s r) (s' r)).
Proof.
  intros [Hring Hf Hnd Hmo Ho Hn] Hitem Hp Hc.
  assert (HitemL : item ∉ L).
  { intros Hin. apply Hitem. by apply (fo_roots _ _ _ Hf). }
  destruct (heap_insert_min s h L item Hring HitemL Hmo)
    as (s' & h' & Hi & Hring' & Hn' & Hmo' & _ & _).
  destruct (heap_insert_ring s h L item Hring HitemL)
    as (s2 & h2 & Hi2 & _ & _ & _ & Hsd & Hfr).
  rewrite Hi in Hi2. injection Hi2 as <- <-.
  exists s', h'. split; [exact Hi|]. split; [|exact Hsd].
  split; [exact Hring'| |  |exact Hmo'| |].
  - apply forest_add; [|exact Hitem| |].
    + apply (forest_ext s); [exact Hf| |].
      * intros r. by destruct (Hsd r) as (_&_&<-&<-&_).
      * intros r Hr. rewrite Hfr; [done| |].
        -- intros ->. done.
        -- intros Hin. by destruct (fo_roots _ _ _ Hf r Hin).
    + by destruct (Hsd item) as (_&_&<-&_).
    + by destruct (Hsd item) as (_&_&_&<-&_).
  - apply NoDup_app. split; [done|]. split; [|apply NoDup_singleton].
    intros x Hx Hx'. apply list_elem_of_singleton in Hx'. by subst x.
  - by apply (heap_order_same_data s).
  - rewrite Hn', Hn, length_app. cbn [length]. lia.
Qed.

(** [FibHeap(item)] on new items is a well-formed heap. *)
Lemma init_wf s item :
  (∀ y, parent (s y) = None) → children (s item) = None →
  ∃ s' h, FibHeap.init s (Some item) = Ok (s', h) ∧
          heap_wf s' h [item] [item] ∧ (∀ r, same_data (s r) (s' r)).
Proof.
  intros Hp Hc. destruct (init_singleton s item) as (s' & Hi & Hring & Hsd & _).
  exists s', (mkFibHeap (mkCircularDLL (Some item) (Some item)) 1 (Some item)).
  split; [unfold FibHeap.init; by rewrite Hi|]. split; [|exact Hsd].
  assert (Hp' : ∀ y, parent (s' y) = None).
  { intros y. destruct (Hsd y) as (_&_&<-&_). apply Hp. }
  split; [exact Hring| |apply NoDup_singleton| | |done].
  - split.
    + intros r Hr. split; [apply Hp'|exact Hr].
    + apply NoDup_singleton.
    + intros x p Hxp. rewrite Hp' in Hxp. discriminate.
    + intros p Hpm. unfold kids_ok. destruct (Hsd item) as (_&_&_&Hc'&_).
      destruct (children (s' p)) as [c|] eqn:Hcp.
      * apply list_elem_of_singleton in Hpm. subst p. congruence.
      * intros y. rewrite Hp'. discriminate.
    + intros x Hx. exists x. split; [exact Hx|constructor].
  - exists item. split; [reflexivity|]. split; [apply list_elem_of_here|].
    intros r Hr. apply list_elem_of_singleton in Hr. subst r. apply key_le_refl.
  - intros x p Hxp. rewrite Hp' in Hxp. discriminate.
Qed.

Lemma key_sorted_ext s s' l : same_keys s s' → key_sorted s' l → key_sorted s l.
Proof.
  intros Hk. induction l as [|x l IH]; [done|]. cbn [key_sorted].
  intros [H1 H2]. split; [|by apply IH].
  intros y Hy. destruct (Hk x) as [<- _]. destruct (Hk y) as [<- _]. by apply H1.
Qed.

Lemma insert_all_wf l s h L M :
  heap_wf s h L M → NoDup (M ++ l) →
  (∀ x, x ∈ l → parent (s x) = None ∧ children (s x) = None) →
  ∃ s' h', insert_all s h l = Ok (s', h') ∧
           heap_wf s' h' (L ++ l) (M ++ l) ∧
           (∀ r, same_data (s r) (s' r)).
Proof.
  revert s h L M. induction l as [|x l IH]; intros s h L M Hw Hnd Hnew.
  - exists s, h. split; [reflexivity|]. rewrite !app_nil_r. split; [exact Hw|].
    intros r. apply same_data_refl.
  - assert (Hx : x ∉ M).
    { apply NoDup_app in Hnd as (_ & Hd & _). intros Hin.
      apply (Hd _ Hin), list_elem_of_here. }
    destruct (Hnew x) as [Hpx Hcx]; [apply list_elem_of_here|].
    destruct (insert_wf s h L M x Hw Hx Hpx Hcx) as (s1 & h1 & Hi & Hw1 & Hsd1).
    destruct (IH s1 h1 (L ++ [x]) (M ++ [x]) Hw1) as (s' & h' & Hr & Hw' & Hsd').
    + by rewrite <- app_assoc.
    + intros y Hy. destruct (Hsd1 y) as (_&_&<-&<-&_).
      apply Hnew. by apply list_elem_of_further.
    + exists s', h'. cbn [insert_all]. rewrite Hi. cbn [mbind res_bind].
      split; [exact Hr|]. rewrite <- !app_assoc in Hw'. split; [exact Hw'|].
      intros r. eapply same_data_trans; [apply Hsd1|apply Hsd'].
Qed.

(** [FibHeap(i1)] and [insert] of further new items build a well-formed
    heap of these items. *)
Lemma heap_of_wf s i1 others :
  (∀ r, parent (s r) = None ∧ children (s r) = None) →
  NoDup (i1 :: others) →
  ∃ s' h, heap_of s i1 others = Ok (s', h) ∧
          heap_wf s' h (i1 :: others) (i1 :: others) ∧
          (∀ r, same_data (s r) (s' r)).
Proof.
  intros Hnew Hnd.
  destruct (init_wf s i1) as (s1 & h1 & Hi & Hw1 & Hsd1);
    [intros y; apply Hnew|apply Hnew|].
  destruct (insert_all_wf others s1 h1 [i1] [i1] Hw1 Hnd)
    as (s' & h' & Hr & Hw' & Hsd').
  { intros x _. destruct (Hsd1 x) as (_&_&<-&<-&_). apply Hnew. }
  exists s', h'. unfold heap_of. rewrite Hi. cbn [mbind res_bind].
  split; [exact Hr|]. split; [exact Hw'|].
  intros r. eapply same_data_trans; [apply Hsd1|apply Hsd'].
Qed.

(** Draining a well-formed heap returns its items in key order. *)
Lemma drain_wf k fuel : ∀ s h L M,
  heap_wf s h L M → length M = k → (k ≤ fuel)%nat →
  ∃ zs s' h', drain k fuel s h = Ok (zs, s', h') ∧
              zs ≡ₚ M ∧ key_sorted s zs ∧ min h' = None ∧ same_keys s s'.
Proof.
  induction k as [|k IH]; intros s h L M Hw Hlen Hfuel.
  - destruct M; [|done]. exists [], s, h. split; [reflexivity|].
    split; [done|]. split; [done|]. split; [|apply same_keys_refl].
    destruct Hw as [_ Hf _ Hmo _ _]. destruct L as [|a l]; [exact Hmo|].
    destruct (fo_roots _ _ _ Hf a) as [_ Ha]; [apply list_elem_of_here|].
    by apply elem_of_nil in Ha.
  - assert (Hmin : ∃ cm, min h = Some cm).
    { destruct M as [|x M0]; [done|].
      destruct Hw as [_ Hf _ Hmo _ _].
      destruct (fo_anc _ _ _ Hf x) as (r & Hr & _); [apply list_elem_of_here|].
      destruct L as [|a l]; [by apply elem_of_nil in Hr|].
      destruct Hmo as (m & Hm & _). by exists m. }
    destruct Hmin as [cm Hmin].
    assert (HfuelM : (length M ≤ fuel)%nat) by lia.
    destruct (extract_min_wf fuel s h L M cm Hw Hmin HfuelM)
      as (s1 & h1 & L1 & M1 & He & Hw1 & HM & Hk1 & Hsmall).
    assert (Hlen1 : length M1 = k).
    { rewrite HM in Hlen. cbn [length] in Hlen. lia. }
    assert (Hfuel1 : (k ≤ fuel)%nat) by lia.
    destruct (IH s1 h1 L1 M1 Hw1 Hlen1 Hfuel1)
      as (zs & s' & h' & Hd & Hperm & Hsorted & Hnone & Hk').
    exists (cm :: zs), s', h'. cbn [drain]. rewrite He. cbn [mbind res_bind].
    rewrite Hd. cbn [mbind res_bind]. split; [reflexivity|].
    split; [by rewrite HM, Hperm|]. split; [|split; [exact Hnone|]].
    + cbn [key_sorted]. split; [|by apply (key_sorted_ext s s1)].
      intros y Hy. apply Hsmall. rewrite HM. apply list_elem_of_further.
      by rewrite <- Hperm.
    + by eapply same_keys_trans.
Qed.

(** X25.  On a well-formed heap [extract_min] returns (the loops run for no
    more steps than there are items), what it returns is the item [min]
    names, whose key is the smallest of all the items in the heap, and it
    leaves a well-formed heap of the other items, with keys and payloads
    untouched. *)
Theorem extract_min_total fuel s h L M cm :
  heap_wf s h L M → min h = Some cm → (length M ≤ fuel)%nat →
  ∃ s' h' L' M',
    FibHeap.extract_min fuel s h = Ok (Some cm, s', h') ∧
    heap_wf s' h' L' M' ∧ M ≡ₚ cm :: M' ∧ same_keys s s' ∧
    ∀ x, x ∈ M → key_le (key (s cm)) (key (s x)) = true.
Proof. apply extract_min_wf. Qed.

(** X26.  [insert] of a new item (one that is not in the heap and has no
    parent and no children) into a well-formed heap returns and leaves a
    well-formed heap with the item as the last root, changing nothing but
    sibling links. *)
Theorem insert_keeps_well_formed s h L M item :
  heap_wf s h L M → item ∉ M →
  parent (s item) = None → children (s item) = None →
  ∃ s' h', FibHeap.insert s h item = Ok (s', h') ∧
           heap_wf s' h' (L ++ [item]) (M ++ [item]) ∧
           (∀ r, same_data (s r) (s' r)).
Proof. apply insert_wf. Qed.

(** X27.  Heap sort: [FibHeap(i1)] on new items, [insert] of the others and
    then [extract_min] until the heap is empty never raises, and returns
    every item exactly once, in the order of the keys; the heap ends with
    [min] unset and no key or payload is written. *)
Theorem heap_sorts s i1 others fuel :
  (∀ r, parent (s r) = None ∧ children (s r) = None) →
  NoDup (i1 :: others) → (length (i1 :: others) ≤ fuel)%nat →
  ∃ s1 h1 zs s' h',
    heap_of s i1 others = Ok (s1, h1) ∧
    drain (length (i1 :: others)) fuel s1 h1 = Ok (zs, s', h') ∧
    zs ≡ₚ i1 :: others ∧ key_sorted s zs ∧ min h' = None ∧ same_keys s s'.
Proof.
  intros Hnew Hnd Hfuel.
  destruct (heap_of_wf s i1 others Hnew Hnd) as (s1 & h1 & Hh & Hw & Hsd).
  destruct (drain_wf (length (i1 :: others)) fuel s1 h1 _ _ Hw eq_refl Hfuel)
    as (zs & s' & h' & Hd & Hperm & Hsorted & Hnone & Hk).
  pose proof (same_data_keys _ _ Hsd) as Hk1.
  exists s1, h1, zs, s', h'. split; [exact Hh|]. split; [exact Hd|].
  split; [exact Hperm|]. split; [by apply (key_sorted_ext s s1)|].
  split; [exact Hnone|]. by eapply same_keys_trans.
Qed.

Lemma fresh_store_new r :
  parent (fresh_store r) = None ∧ children (fresh_store r) = None.
Proof. split; reflexivity. Qed.

Lemma NoDup_12345 : NoDup [1; 2; 3; 4; 5]%positive.
Proof. apply (bool_decide_unpack _). by vm_compute. Qed.

Lemma heap5_wf :
  heap_wf heap5.1 heap5.2 [1; 2; 3; 4; 5]%positive [1; 2; 3; 4; 5]%positive.
Proof.
  destruct (heap_of_wf fresh_store 1%positive [2; 3; 4; 5]%positive
              fresh_store_new NoDup_12345) as (s & h & Hh & Hw & _).
  unfold heap5. rewrite Hh. exact Hw.
Qed.

Lemma extract_min_total_witness :
  heap_wf heap5.1 heap5.2 [1; 2; 3; 4; 5]%positive [1; 2; 3; 4; 5]%positive ∧
  min heap5.2 = Some 1%positive ∧
  (length [1; 2; 3; 4; 5]%positive ≤ 5)%nat ∧
  ∃ s' h' L' M',
    FibHeap.extract_min 5 heap5.1 heap5.2 = Ok (Some 1%positive, s', h') ∧
    heap_wf s' h' L' M' ∧ [1; 2; 3; 4; 5]%positive ≡ₚ 1%positive :: M' ∧
    same_keys heap5.1 s' ∧
    ∀ x, x ∈ [1; 2; 3; 4; 5]%positive →
         key_le (key (heap5.1 1%positive)) (key (heap5.1 x)) = true.
Proof.
  assert (H1 := heap5_wf).
  assert (H2 : min heap5.2 = Some 1%positive) by (vm_compute; reflexivity).
  assert (H3 : (length [1; 2; 3; 4; 5]%positive ≤ 5)%nat) by (simpl; lia).
  split; [exact H1|]. split; [exact H2|]. split; [exact H3|].
  exact (extract_min_total 5 heap5.1 heap5.2 _ _ 1%positive H1 H2 H3).
Defined.

Lemma insert_keeps_well_formed_witness :
  heap_wf heap5.1 heap5.2 [1; 2; 3; 4; 5]%positive [1; 2; 3; 4; 5]%positive ∧
  (6%positive ∉ [1; 2; 3; 4; 5]%positive) ∧
  parent (heap5.1 6%positive) = None ∧ children (heap5.1 6%positive) = None ∧
  ∃ s' h', FibHeap.insert heap5.1 heap5.2 6%positive = Ok (s', h') ∧
           heap_wf s' h' ([1; 2; 3; 4; 5]%positive ++ [6%positive])
             ([1; 2; 3; 4; 5]%positive ++ [6%positive]) ∧
           (∀ r, same_data (heap5.1 r) (s' r)).
Proof.
  assert (H1 := heap5_wf).
  assert (H2 : 6%positive ∉ [1; 2; 3; 4; 5]%positive)
    by (apply (bool_decide_unpack _); by vm_compute).
  assert (H3 : parent (heap5.1 6%positive) = None) by (vm_compute; reflexivity).
  assert (H4 : children (heap5.1 6%positive) = None) by (vm_compute; reflexivity).
  split; [exact H1|]. split; [exact H2|]. split; [exact H3|]. split; [exact H4|].
  exact (insert_keeps_well_formed heap5.1 heap5.2 _ _ 6%positive H1 H2 H3 H4).
Defined.

Lemma heap_sorts_witness :
  (∀ r, parent (fresh_store r) = None ∧ children (fresh_store r) = None) ∧
  NoDup [1; 2; 3; 4; 5]%positive ∧
  (length [1; 2; 3; 4; 5]%positive ≤ 5)%nat ∧
  ∃ s1 h1 zs s' h',
    heap_of fresh_store 1%positive [2; 3; 4; 5]%positive = Ok (s1, h1) ∧
    drain (length [1; 2; 3; 4; 5]%positive) 5 s1 h1 = Ok (zs, s', h') ∧
    zs ≡ₚ [1; 2; 3; 4; 5]%positive ∧ key_sorted fresh_store zs ∧
    min h' = None ∧ same_keys fresh_store s'.
Proof.
  assert (H1 := fresh_store_new).
  assert (H2 := NoDup_12345).
  assert (H3 : (length [1; 2; 3; 4; 5]%positive ≤ 5)%nat) by (simpl; lia).
  split; [exact H1|]. split; [exact H2|]. split; [exact H3|].
  exact (heap_sorts fresh_store 1%positive [2; 3; 4; 5]%positive 5 H1 H2 H3).
Defined.
